(** * CodeExamples.py: candidates, local-search drivers and population operators

    A shallow embedding of [src/CodeExamples.py].

    - Python objects live in a heap (a list of [Candidate] records); a
      reference is an index into it.  [Candidate] defines no [__eq__], so
      Python's [==] on two candidates is identity: equality of references.
    - The module-level generator [random] is an infinite stream of raw
      draws with a cursor.  [random.random()] is a 53-bit fraction
      [k / 2^53], as in CPython.
    - Python floats are idealised as exact rationals ([Q]); rounding is not
      modelled.  Integer genes are [Z].  What is stated about float values
      is kept to what rounding leaves alone: comparisons, values that are
      copied, results that are exact ([x + 0], [1 * x], [x - x]), and
      bounds that are themselves floats, which a rounded result cannot
      cross.
    - Exceptions and loops that may spin for ever are results: [Ok],
      [Raise] or [OutOfFuel]. *)

From Stdlib Require Import ZArith QArith Qround Qabs Qminmax Lia Lqa List Sorted.
From stdpp Require Import base list.

Local Open Scope Z_scope.

(* ===================================================================== *)
(** ** Results, worlds and the monad of the embedding *)
(* ===================================================================== *)

Inductive exn : Set :=
| ValueError | IndexError | ZeroDivisionError | OverflowError | AttributeError.

(** class Candidate (src lines 6-22): a chromosome and a fitness. *)
Record Candidate (G : Type) : Type := mkCandidate {
  chromosome : list G;
  fitness : Q
}.
Arguments mkCandidate {G} chromosome fitness.
Arguments chromosome {G} c.
Arguments fitness {G} c.

(** A reference to a Python object: its address in the heap. *)
Abbreviation ref := nat (only parsing).

Record world (G : Type) : Type := World {
  heap : list (Candidate G);
  draws : nat -> N;
  cursor : nat
}.
Arguments World {G} heap draws cursor.
Arguments heap {G} w.
Arguments draws {G} w.
Arguments cursor {G} w.

(** The outcome of a call: a value, an exception (the heap keeps what was
    written before it was raised), or a loop that was still running when
    the fuel ran out. *)
Inductive result (G A : Type) : Type :=
| Ok (a : A) (w : world G)
| Raise (e : exn) (w : world G)
| OutOfFuel.
Arguments Ok {G A} a w.
Arguments Raise {G A} e w.
Arguments OutOfFuel {G A}.

Definition M (G A : Type) : Type := world G -> result G A.

Definition ret {G A} (a : A) : M G A := fun w => Ok a w.

Definition bind {G A B} (m : M G A) (k : A -> M G B) : M G B :=
  fun w => match m w with
           | Ok a w' => k a w'
           | Raise e w' => Raise e w'
           | OutOfFuel => OutOfFuel
           end.

Definition raise {G A} (e : exn) : M G A := fun w => Raise e w.
Definition out_of_fuel {G A} : M G A := fun _ => OutOfFuel.

(** The value a call returns, and the exception it raises. *)
Definition value_of {G A} (r : result G A) : option A :=
  match r with Ok a _ => Some a | _ => None end.

Definition raised {G A} (r : result G A) : option exn :=
  match r with Raise e _ => Some e | _ => None end.

(** The world a call leaves behind, when it comes back at all. *)
Definition final_world {G A} (r : result G A) : option (world G) :=
  match r with
  | Ok _ w => Some w
  | Raise _ w => Some w
  | OutOfFuel => None
  end.

Declare Scope py_scope.
Delimit Scope py_scope with py.
Notation "x <- m ;; k" := (bind m (fun x => k))
  (at level 100, m at next level, right associativity) : py_scope.
Notation "m ;;; k" := (bind m (fun _ => k))
  (at level 100, right associativity) : py_scope.
Local Open Scope py_scope.

(** Strict comparison of two rationals, as a boolean. *)
Definition Qltb (x y : Q) : bool := negb (Qle_bool y x).

(** Heap primitives. *)
Section Heap.
Context {G : Type}.

(** [Candidate(chromosome, fitness=0.0)]: a new object at a fresh address. *)
Definition new_Candidate (chrom : list G) (fit : Q) : M G ref :=
  fun w => Ok (length (heap w))
              (World (heap w ++ [mkCandidate chrom fit]) (draws w) (cursor w)).

Definition deref (r : ref) : M G (Candidate G) :=
  fun w => match heap w !! r with
           | Some c => Ok c w
           | None => Raise AttributeError w
           end.

(** [Candidate.calculate_fitness] (src lines 16-22): writes the fitness
    field of the object in place. *)
Definition calculate_fitness (r : ref) (fitness_function : list G -> Q) : M G unit :=
  c <- deref r ;;
  fun w => Ok tt (World (<[r := mkCandidate (chromosome c)
                                  (fitness_function (chromosome c))]> (heap w))
                        (draws w) (cursor w)).

(** One raw draw of the generator. *)
Definition draw : M G N :=
  fun w => Ok (draws w (cursor w)) (World (heap w) (draws w) (S (cursor w))).

(** [random.randint(a, b)]: [ValueError] on an empty range. *)
Definition randint (a b : Z) : M G Z :=
  if b <? a then raise ValueError
  else d <- draw ;; ret (a + Z.of_N d mod (b - a + 1)).

(** [random.random()]: [k / 2^53] with [0 <= k < 2^53]. *)
Definition random_unit (d : N) : Q :=
  Qmake (Z.of_N d mod 2 ^ 53) (2 ^ 53)%positive.

Definition random_random : M G Q := d <- draw ;; ret (random_unit d).

(** [random.uniform(a, b)] is [a + (b - a) * random()]. *)
Definition random_uniform (a b : Q) : M G Q :=
  u <- random_random ;; ret (a + (b - a) * u)%Q.
End Heap.

(* ===================================================================== *)
(** ** Local-search drivers *)
(* ===================================================================== *)

(** The neighbour construction shared verbatim by the three drivers
    (src lines 68-76, 135-143, 226-232): copy the chromosome, overwrite one
    random position with [randint(0, 100)], wrap it in a new Candidate and
    evaluate it. *)
Definition make_neighbor (candidate : ref) (fitness_function : list Z -> Q) : M Z ref :=
  c <- deref candidate ;;
  let neighbor_chromosome := chromosome c in
  index_to_modify <- randint 0 (Z.of_nat (length neighbor_chromosome) - 1) ;;
  v <- randint 0 100 ;;
  (* the index comes from randint(0, len - 1): always in range *)
  let neighbor_chromosome := <[Z.to_nat index_to_modify := v]> neighbor_chromosome in
  neighbor <- new_Candidate neighbor_chromosome 0%Q ;;
  calculate_fitness neighbor fitness_function ;;;
  ret neighbor.

(** Body of the [for] loop of [hill_climb] (src lines 66-80). *)
Definition hill_step (fitness_function : list Z -> Q) (candidate : ref) : M Z ref :=
  neighbor <- make_neighbor candidate fitness_function ;;
  n <- deref neighbor ;;
  c <- deref candidate ;;
  if Qltb (fitness c) (fitness n) then ret neighbor else ret candidate.

Fixpoint hill_loop (fitness_function : list Z -> Q) (iterations : nat) (candidate : ref)
  : M Z ref :=
  match iterations with
  | O => ret candidate
  | S k => candidate' <- hill_step fitness_function candidate ;;
           hill_loop fitness_function k candidate'
  end.

(** [hill_climb] (src lines 42-82). *)
Definition hill_climb (candidate : ref) (fitness_function : list Z -> Q)
    (max_iterations : Z) : M Z ref :=
  calculate_fitness candidate fitness_function ;;;
  hill_loop fitness_function (Z.to_nat max_iterations) candidate.

(** The neighbour that [make_neighbor] builds from candidate [c] in world [w]. *)
Definition neighbor_of (fitness_function : list Z -> Q) (w : world Z) (c : Candidate Z)
  : Candidate Z :=
  let chrom :=
    <[Z.to_nat (0 + Z.of_N (draws w (cursor w))
                     mod (Z.of_nat (length (chromosome c)) - 1 - 0 + 1))
      := 0 + Z.of_N (draws w (S (cursor w))) mod (100 - 0 + 1)]> (chromosome c) in
  mkCandidate chrom (fitness_function chrom).


(** *** Simulated annealing (src lines 100-159) *)

Section Annealing.
(** [math.exp] on the float arguments it is given: a rational result, or
    [None] where CPython raises [OverflowError]. *)
Variable math_exp : Q -> option Q.
Variable fitness_function : list Z -> Q.
Variable cooling_rate : Q.
Variable min_temperature : Q.

(** Loop state: [candidate], [best_candidate], [current_temperature]. *)
Record sa_state : Type := SAState {
  sa_candidate : ref;
  sa_best : ref;
  sa_temperature : Q
}.

(** The acceptance test of line 149.  [or] short-circuits, and in
    [random.random() < math.exp(...)] the draw is made before the
    division and the exponential are evaluated. *)
Definition sa_accept (fitness_diff current_temperature : Q) : M Z bool :=
  if Qltb 0 fitness_diff then ret true
  else
    u <- random_random ;;
    if Qeq_bool current_temperature 0 then raise ZeroDivisionError
    else match math_exp (fitness_diff / current_temperature)%Q with
         | None => raise OverflowError
         | Some e => ret (Qltb u e)
         end.

(** Body of the [while] loop (src lines 134-157). *)
Definition sa_step (st : sa_state) : M Z sa_state :=
  let candidate := sa_candidate st in
  let best_candidate := sa_best st in
  let current_temperature := sa_temperature st in
  neighbor <- make_neighbor candidate fitness_function ;;
  n <- deref neighbor ;;
  c <- deref candidate ;;
  let fitness_diff := (fitness n - fitness c)%Q in
  accept <- sa_accept fitness_diff current_temperature ;;
  if accept : bool then
    b <- deref best_candidate ;;
    let best_candidate :=
      if Qltb (fitness b) (fitness n) then neighbor else best_candidate in
    ret (SAState neighbor best_candidate (current_temperature * (1 - cooling_rate))%Q)
  else
    ret (SAState candidate best_candidate (current_temperature * (1 - cooling_rate))%Q).

(** The [while current_temperature > min_temperature] loop; nothing in
    the source bounds it, so the embedding counts fuel. *)
Fixpoint sa_loop (fuel : nat) (st : sa_state) : M Z sa_state :=
  if Qltb min_temperature (sa_temperature st) then
    match fuel with
    | O => out_of_fuel
    | S k => st' <- sa_step st ;; sa_loop k st'
    end
  else ret st.

Definition simulated_annealing (fuel : nat) (candidate : ref) (initial_temperature : Q)
  : M Z ref :=
  calculate_fitness candidate fitness_function ;;;
  st <- sa_loop fuel (SAState candidate candidate initial_temperature) ;;
  ret (sa_best st).
End Annealing.

(** *** Tabu search (src lines 178-253) *)

(** [collections.deque(maxlen=n).append(x)]: the new entry goes to the right
    end, and when the queue is over its bound the leftmost entry is dropped
    (with [maxlen = 0] the queue stays empty). *)
Definition deque_append {A} (maxlen : nat) (q : list A) (x : A) : list A :=
  let q' := q ++ [x] in
  if (maxlen <? length q')%nat then drop 1 q' else q'.

Section Tabu.
Variable fitness_function : list Z -> Q.

Record tabu_state : Type := TabuState {
  current_candidate : ref;
  best_candidate : ref;
  tabu_list : list (list Z)
}.

(** The inner [for _ in range(neighborhood_size)] loop (lines 223-235). *)
Fixpoint gen_neighborhood (n : nat) (current : ref) : M Z (list ref) :=
  match n with
  | O => ret []
  | S k =>
      neighbor <- make_neighbor current fitness_function ;;
      rest <- gen_neighborhood k current ;;
      ret (neighbor :: rest)
  end.

(** Is [neighbor] admissible (line 240)?  Not tabu, or better than the
    best candidate so far. *)
Definition admissible (tabu : list (list Z)) (best n : Candidate Z) : bool :=
  negb (bool_decide (chromosome n ∈ tabu)) || Qltb (fitness best) (fitness n).

(** The scan for [best_neighbor] (lines 238-242). *)
Fixpoint scan_neighborhood (tabu : list (list Z)) (best : ref)
    (neighborhood : list ref) (best_neighbor : option ref) : M Z (option ref) :=
  match neighborhood with
  | [] => ret best_neighbor
  | neighbor :: rest =>
      n <- deref neighbor ;;
      b <- deref best ;;
      if admissible tabu b n then
        match best_neighbor with
        | None => scan_neighborhood tabu best rest (Some neighbor)
        | Some bn =>
            bnc <- deref bn ;;
            if Qltb (fitness bnc) (fitness n)
            then scan_neighborhood tabu best rest (Some neighbor)
            else scan_neighborhood tabu best rest best_neighbor
        end
      else scan_neighborhood tabu best rest best_neighbor
  end.

(** The move of lines 245-248: a Candidate object is truthy. *)
Definition tabu_move (st : tabu_state) (best_neighbor : option ref) : M Z (ref * ref) :=
  match best_neighbor with
  | None => ret (current_candidate st, best_candidate st)
  | Some bn =>
      bnc <- deref bn ;;
      c <- deref (current_candidate st) ;;
      if Qltb (fitness c) (fitness bnc) then
        b <- deref (best_candidate st) ;;
        if Qltb (fitness b) (fitness bnc) then ret (bn, bn)
        else ret (bn, best_candidate st)
      else ret (current_candidate st, best_candidate st)
  end.

(** One iteration of the outer loop (lines 221-251). *)
Definition tabu_step (maxlen neighborhood_size : nat) (st : tabu_state) : M Z tabu_state :=
  neighborhood <- gen_neighborhood neighborhood_size (current_candidate st) ;;
  best_neighbor <- scan_neighborhood (tabu_list st) (best_candidate st) neighborhood None ;;
  cb <- tabu_move st best_neighbor ;;
  c <- deref (fst cb) ;;
  ret (TabuState (fst cb) (snd cb) (deque_append maxlen (tabu_list st) (chromosome c))).

Fixpoint tabu_loop (maxlen neighborhood_size iterations : nat) (st : tabu_state)
  : M Z tabu_state :=
  match iterations with
  | O => ret st
  | S k => st' <- tabu_step maxlen neighborhood_size st ;;
           tabu_loop maxlen neighborhood_size k st'
  end.

(** State on entry to the loop (lines 207-218); [deque(maxlen=n)] raises
    [ValueError] for a negative bound. *)
Definition tabu_init (initial_candidate : ref) (tabu_list_size : Z) : M Z tabu_state :=
  calculate_fitness initial_candidate fitness_function ;;;
  if tabu_list_size <? 0 then raise ValueError
  else
    c <- deref initial_candidate ;;
    ret (TabuState initial_candidate initial_candidate
           (deque_append (Z.to_nat tabu_list_size) [] (chromosome c))).

Definition tabu_search (initial_candidate : ref) (tabu_list_size max_iterations
    neighborhood_size : Z) : M Z ref :=
  st <- tabu_init initial_candidate tabu_list_size ;;
  st' <- tabu_loop (Z.to_nat tabu_list_size) (Z.to_nat neighborhood_size)
           (Z.to_nat max_iterations) st ;;
  ret (best_candidate st').
End Tabu.

(** *** Runs as step relations *)

(** A run of the annealing loop from state [st] in world [w]: the states
    at every test of the loop condition, first to last. *)
Inductive sa_run (math_exp : Q -> option Q) (f : list Z -> Q) (cooling_rate min_temperature : Q)
  : sa_state -> world Z -> list sa_state -> sa_state -> world Z -> Prop :=
| sa_run_stop st w :
    Qltb min_temperature (sa_temperature st) = false ->
    sa_run math_exp f cooling_rate min_temperature st w [st] st w
| sa_run_step st w st1 w1 tr st' w' :
    Qltb min_temperature (sa_temperature st) = true ->
    sa_step math_exp f cooling_rate st w = Ok st1 w1 ->
    sa_run math_exp f cooling_rate min_temperature st1 w1 tr st' w' ->
    sa_run math_exp f cooling_rate min_temperature st w (st :: tr) st' w'.

(** A run of [iterations] rounds of the tabu loop: the states at the end of
    each iteration, first to last. *)
Inductive tabu_run (f : list Z -> Q) (maxlen neighborhood_size : nat)
  : nat -> tabu_state -> world Z -> list tabu_state -> tabu_state -> world Z -> Prop :=
| tabu_run_done st w :
    tabu_run f maxlen neighborhood_size O st w [] st w
| tabu_run_iter k st w st1 w1 tr st' w' :
    tabu_step f maxlen neighborhood_size st w = Ok st1 w1 ->
    tabu_run f maxlen neighborhood_size k st1 w1 tr st' w' ->
    tabu_run f maxlen neighborhood_size (S k) st w (st1 :: tr) st' w'.

(** Seen from world [w], the tabu memories along a run: each is the
    previous one with the chromosome of the then-current candidate pushed. *)
Fixpoint tabu_chain (w : world Z) (maxlen : nat) (prev : tabu_state) (tr : list tabu_state)
  : Prop :=
  match tr with
  | [] => True
  | s :: tr' =>
      (exists c, heap w !! current_candidate s = Some c /\
                 tabu_list s = deque_append maxlen (tabu_list prev) (chromosome c)) /\
      tabu_chain w maxlen s tr'
  end.

(* ===================================================================== *)
(** ** Library functions the operators call *)
(* ===================================================================== *)

Section Library.
Context {G : Type}.

(** [random.choice(seq)]: [IndexError] on an empty sequence. *)
Definition random_choice {A} (seq : list A) : M G A :=
  match seq with
  | [] => raise IndexError
  | x :: _ =>
      d <- draw ;;
      ret (nth (N.to_nat d mod length seq) seq x)
  end.

(** Drawing [k] items without replacement, one index at a time. *)
Fixpoint sample_from {A} (k : nat) (pool : list A) : M G (list A) :=
  match k with
  | O => ret []
  | S k' =>
      d <- draw ;;
      let j := (N.to_nat d mod length pool)%nat in
      match pool !! j with
      | None => raise ValueError
      | Some x => rest <- sample_from k' (delete j pool) ;; ret (x :: rest)
      end
  end.

(** [random.sample(population, k)]: [ValueError] when the sample is larger
    than the population or negative. *)
Definition random_sample {A} (population : list A) (k : Z) : M G (list A) :=
  if (k <? 0) || (Z.of_nat (length population) <? k) then raise ValueError
  else sample_from (Z.to_nat k) population.

(** [random.shuffle(x)]: for [i] from [len - 1] down to [1], swap [x[i]]
    with [x[j]] for a random [j <= i]. *)
Fixpoint shuffle_from {A} (i : nat) (x : list A) : M G (list A) :=
  match i with
  | O => ret x
  | S i' =>
      d <- draw ;;
      let j := (N.to_nat d mod S i)%nat in
      match x !! i, x !! j with
      | Some xi, Some xj => shuffle_from i' (<[j := xi]> (<[i := xj]> x))
      | _, _ => raise IndexError
      end
  end.

Definition random_shuffle {A} (x : list A) : M G (list A) :=
  shuffle_from (length x - 1) x.

(** [sum(c.fitness for c in generation)], left to right from [0]. *)
Fixpoint sum_fitness_from (acc : Q) (generation : list ref) : M G Q :=
  match generation with
  | [] => ret acc
  | candidate :: rest =>
      c <- deref candidate ;;
      sum_fitness_from (acc + fitness c)%Q rest
  end.

(** [sorted(generation, key=lambda c: c.fitness, reverse=...)]: the keys are
    read once, then the list is sorted stably; [reverse=True] keeps the
    original order among equal keys too. *)
Fixpoint keyed (generation : list ref) : M G (list (Q * ref)) :=
  match generation with
  | [] => ret []
  | candidate :: rest =>
      c <- deref candidate ;;
      ks <- keyed rest ;;
      ret ((fitness c, candidate) :: ks)
  end.

Fixpoint insert_by (before : Q -> Q -> bool) (x : Q * ref) (l : list (Q * ref))
  : list (Q * ref) :=
  match l with
  | [] => [x]
  | y :: l' => if before (fst x) (fst y) then x :: y :: l' else y :: insert_by before x l'
  end.

Definition sorted_by_fitness (reverse : bool) (generation : list ref) : M G (list ref) :=
  ks <- keyed generation ;;
  let before := if reverse then (fun a b => Qle_bool b a) else Qle_bool in
  ret (map snd (foldr (insert_by before) [] ks)).

(** [int(x)] on a float: truncation towards zero. *)
Definition py_int (x : Q) : Z := if Qle_bool 0 x then Qfloor x else Qceiling x.

(** The slice [l[:n]]; a negative [n] counts from the end. *)
Definition slice_to {A} (l : list A) (n : Z) : list A :=
  if n <? 0 then take (length l - Z.to_nat (- n)) l else take (Z.to_nat n) l.

(** The slice [l[n:]] for [n >= 0]. *)
Definition slice_from {A} (l : list A) (n : nat) : list A := drop n l.

(** The slice [l[a:b]] for [0 <= a], [0 <= b]. *)
Definition slice {A} (l : list A) (a b : nat) : list A := take (b - a) (drop a l).

(** The loop [while parent2 == parent1: parent2 = select_one()].  The
    comparison is identity of objects ([None == None] holds). *)
Fixpoint resample {P} `{EqDecision P} (fuel : nat) (select_one : M G P) (parent1 parent2 : P)
  : M G P :=
  if bool_decide (parent2 = parent1) then
    match fuel with
    | O => out_of_fuel
    | S k => p <- select_one ;; resample k select_one parent1 p
    end
  else ret parent2.
End Library.

(* ===================================================================== *)
(** ** Selection operators (src lines 272-418) *)
(* ===================================================================== *)

Section Selection.
Context {G : Type}.

(** *** roulette_wheel_selection (lines 272-297) *)

(** The [for] loop of [select_one]; falling off its end returns [None]. *)
Fixpoint roulette_walk (pick current : Q) (generation : list ref) : M G (option ref) :=
  match generation with
  | [] => ret None
  | candidate :: rest =>
      c <- deref candidate ;;
      let current := (current + fitness c)%Q in
      if Qltb pick current then ret (Some candidate)
      else roulette_walk pick current rest
  end.

Definition roulette_select_one (total_fitness : Q) (generation : list ref)
  : M G (option ref) :=
  pick <- random_uniform 0 total_fitness ;;
  roulette_walk pick 0 generation.

Definition roulette_wheel_selection (fuel : nat) (generation : list ref)
  : M G (option ref * option ref) :=
  total_fitness <- sum_fitness_from 0 generation ;;
  let select_one := roulette_select_one total_fitness generation in
  parent1 <- select_one ;;
  parent2 <- select_one ;;
  parent2 <- resample fuel select_one parent1 parent2 ;;
  ret (parent1, parent2).

(** *** rank_based_selection (lines 300-325) *)

(** [for i, candidate in enumerate(ranked_generation)], from index [i]. *)
Fixpoint rank_walk (pick current : Q) (i : nat) (ranked : list ref) : option ref :=
  match ranked with
  | [] => None
  | candidate :: rest =>
      let current := (current + inject_Z (Z.of_nat i + 1))%Q in
      if Qltb pick current then Some candidate
      else rank_walk pick current (S i) rest
  end.

(** [sum(range(1, n + 1))]. *)
Definition sum_range_1 (n : nat) : Z := foldr Z.add 0 (map (fun i => Z.of_nat i + 1) (seq 0 n)).

Definition rank_select_one (total_ranks : Z) (ranked : list ref) : M G (option ref) :=
  pick <- random_uniform 0 (inject_Z total_ranks) ;;
  ret (rank_walk pick 0 0 ranked).

Definition rank_based_selection (generation : list ref) : M G (option ref * option ref) :=
  ranked_generation <- sorted_by_fitness false generation ;;
  let total_ranks := sum_range_1 (length ranked_generation) in
  parent1 <- rank_select_one total_ranks ranked_generation ;;
  parent2 <- rank_select_one total_ranks ranked_generation ;;
  ret (parent1, parent2).

(** *** tournament_selection (lines 328-347) *)

(** [max(tournament, key=lambda c: c.fitness)]: the first maximal element;
    [ValueError] on an empty tournament. *)
Fixpoint max_from (best : Q * ref) (rest : list (Q * ref)) : ref :=
  match rest with
  | [] => snd best
  | x :: rest' => if Qltb (fst best) (fst x) then max_from x rest' else max_from best rest'
  end.

Definition max_by_fitness (tournament : list ref) : M G ref :=
  ks <- keyed tournament ;;
  match ks with
  | [] => raise ValueError
  | k :: ks' => ret (max_from k ks')
  end.

Definition tournament_select_one (generation : list ref) (tournament_size : Z) : M G ref :=
  tournament <- random_sample generation tournament_size ;;
  max_by_fitness tournament.

Definition tournament_selection (generation : list ref) (tournament_size : Z)
  : M G (ref * ref) :=
  parent1 <- tournament_select_one generation tournament_size ;;
  parent2 <- tournament_select_one generation tournament_size ;;
  ret (parent1, parent2).

(** *** stochastic_universal_sampling (lines 350-372) *)

(** The inner [while]: it appends at most [room = num_parents - len(parents)]
    times, so it is structurally recursive on [room]. *)
Fixpoint sus_collect (room : nat) (candidate : ref) (cumulative_fitness pointer_spacing : Q)
    (current_point : Q) (parents : list ref) : list ref * Q :=
  match room with
  | O => (parents, current_point)
  | S room' =>
      if Qltb current_point cumulative_fitness then
        sus_collect room' candidate cumulative_fitness pointer_spacing
          (current_point + pointer_spacing)%Q (parents ++ [candidate])
      else (parents, current_point)
  end.

(** The outer [for candidate in generation]. *)
Fixpoint sus_walk (num_parents : Z) (pointer_spacing : Q) (generation : list ref)
    (cumulative_fitness current_point : Q) (parents : list ref) : M G (list ref) :=
  match generation with
  | [] => ret parents
  | candidate :: rest =>
      c <- deref candidate ;;
      let cumulative_fitness := (cumulative_fitness + fitness c)%Q in
      let room := Z.to_nat (num_parents - Z.of_nat (length parents)) in
      let '(parents, current_point) :=
        sus_collect room candidate cumulative_fitness pointer_spacing current_point parents in
      sus_walk num_parents pointer_spacing rest cumulative_fitness current_point parents
  end.

(** The list [parents] on reaching the [return] statement. *)
Definition sus_parents (generation : list ref) (num_parents : Z) : M G (list ref) :=
  total_fitness <- sum_fitness_from 0 generation ;;
  if num_parents =? 0 then raise ZeroDivisionError
  else
    let pointer_spacing := (total_fitness / inject_Z num_parents)%Q in
    start_point <- random_uniform 0 pointer_spacing ;;
    sus_walk num_parents pointer_spacing generation 0 start_point [].

(** [return parents[0], parents[1]]. *)
Definition stochastic_universal_sampling (generation : list ref) (num_parents : Z)
  : M G (ref * ref) :=
  parents <- sus_parents generation num_parents ;;
  match parents with
  | p0 :: p1 :: _ => ret (p0, p1)
  | _ => raise IndexError
  end.

(** *** truncation_selection (lines 375-396) *)

Definition truncation_selection (fuel : nat) (generation : list ref)
    (truncation_percentage : Q) : M G (ref * ref) :=
  sorted_generation <- sorted_by_fitness true generation ;;
  let truncation_size :=
    py_int (truncation_percentage * inject_Z (Z.of_nat (length generation)))%Q in
  let truncated_generation := slice_to sorted_generation truncation_size in
  parent1 <- random_choice truncated_generation ;;
  parent2 <- random_choice truncated_generation ;;
  parent2 <- resample fuel (random_choice truncated_generation) parent1 parent2 ;;
  ret (parent1, parent2).

(** *** elitism_selection (lines 399-418) *)

Definition elitism_selection (generation : list ref) (elite_fraction : Q)
  : M G (ref * ref) :=
  sorted_generation <- sorted_by_fitness true generation ;;
  let elite_size :=
    Z.max 1 (py_int (elite_fraction * inject_Z (Z.of_nat (length generation)))%Q) in
  let elite_candidates := slice_to sorted_generation elite_size in
  parent1 <- random_choice elite_candidates ;;
  parent2 <- random_choice elite_candidates ;;
  ret (parent1, parent2).
End Selection.

(* ===================================================================== *)
(** ** More of Python's lists *)
(* ===================================================================== *)

(** [sorted(xs)] on a list of indices. *)
Fixpoint insert_nat (x : nat) (l : list nat) : list nat :=
  match l with
  | [] => [x]
  | y :: l' => if (x <=? y)%nat then x :: y :: l' else y :: insert_nat x l'
  end.

Definition sorted_nat (l : list nat) : list nat := foldr insert_nat [] l.

(** The slice assignment [l[a:b] = new] for [0 <= a <= b]. *)
Definition slice_assign {A} (l : list A) (a b : nat) (new : list A) : list A :=
  take a l ++ new ++ drop b l.

(** [start, end = sorted(random.sample(range(length), 2))]. *)
Definition random_segment {G} (length : nat) : M G (nat * nat) :=
  picked <- random_sample (seq 0 length) 2 ;;
  match sorted_nat picked with
  | [start; stop] => ret (start, stop)
  | _ => raise ValueError
  end.

(* ===================================================================== *)
(** ** Crossover operators (src lines 421-537) *)
(* ===================================================================== *)

(** Each operator ends in [return Candidate(offspring_chromosome)]: the
    [_chromosome] function computes the list, the operator allocates the
    object with the constructor's default fitness [0.0]. *)

Section Crossover.
Context {G : Type}.

(** *** n_point_crossover (lines 421-446) *)

(** The loop over [crossover_points + [length]]. *)
Fixpoint n_point_segments (points : list nat) (swap : bool) (prev_point : nat)
    (chromosome1 chromosome2 offspring_chromosome : list G) : list G :=
  match points with
  | [] => offspring_chromosome
  | point :: rest =>
      let segment := slice (if swap then chromosome2 else chromosome1) prev_point point in
      n_point_segments rest (negb swap) point chromosome1 chromosome2
        (offspring_chromosome ++ segment)
  end.

Definition n_point_chromosome (parent1 parent2 : ref) (n_points : Z) : M G (list G) :=
  p1 <- deref parent1 ;;
  let length := length (chromosome p1) in
  picked <- random_sample (seq 1 (length - 1)) n_points ;;
  let crossover_points := sorted_nat picked in
  (* parent2 is first touched in the second segment, if there is one *)
  chromosome2 <- match crossover_points with
                 | [] => ret []
                 | _ => p2 <- deref parent2 ;; ret (chromosome p2)
                 end ;;
  ret (n_point_segments (crossover_points ++ [length]) false 0
         (chromosome p1) chromosome2 []).

Definition n_point_crossover (parent1 parent2 : ref) (n_points : Z) : M G ref :=
  offspring_chromosome <- n_point_chromosome parent1 parent2 n_points ;;
  new_Candidate offspring_chromosome 0%Q.

(** *** uniform_crossover (lines 449-460) *)

Fixpoint uniform_genes (pairs : list (G * G)) : M G (list G) :=
  match pairs with
  | [] => ret []
  | (gene1, gene2) :: rest =>
      g <- random_choice [gene1; gene2] ;;
      gs <- uniform_genes rest ;;
      ret (g :: gs)
  end.

Definition uniform_crossover_chromosome (parent1 parent2 : ref) : M G (list G) :=
  p1 <- deref parent1 ;;
  p2 <- deref parent2 ;;
  uniform_genes (zip (chromosome p1) (chromosome p2)).

Definition uniform_crossover (parent1 parent2 : ref) : M G ref :=
  offspring_chromosome <- uniform_crossover_chromosome parent1 parent2 ;;
  new_Candidate offspring_chromosome 0%Q.

(** *** cut_and_splice_crossover (lines 497-510) *)

Definition cut_and_splice_chromosome (parent1 parent2 : ref) : M G (list G) :=
  p1 <- deref parent1 ;;
  cut_point1 <- randint 0 (Z.of_nat (length (chromosome p1)) - 1) ;;
  p2 <- deref parent2 ;;
  cut_point2 <- randint 0 (Z.of_nat (length (chromosome p2)) - 1) ;;
  ret (slice_to (chromosome p1) cut_point1
         ++ slice_from (chromosome p2) (Z.to_nat cut_point2)).

Definition cut_and_splice_crossover (parent1 parent2 : ref) : M G ref :=
  offspring_chromosome <- cut_and_splice_chromosome parent1 parent2 ;;
  new_Candidate offspring_chromosome 0%Q.

(** *** order_crossover (lines 513-537) *)

Context `{EqDecision G}.

(** The final [for i in range(length)] loop, from position [i] on: a [None]
    slot takes [parent2_genes[idx]], which raises [IndexError] when the
    genes have run out. *)
Fixpoint order_fill (slots : list (option G)) (parent2_genes : list G) (idx : nat)
  : option (list G) :=
  match slots with
  | [] => Some []
  | Some gene :: rest => cons gene <$> order_fill rest parent2_genes idx
  | None :: rest =>
      match parent2_genes !! idx with
      | None => None
      | Some gene => cons gene <$> order_fill rest parent2_genes (S idx)
      end
  end.

(** Lines 525-535 for a given segment [start:stop]. *)
Definition order_offspring (chromosome1 chromosome2 : list G) (start stop : nat)
  : option (list G) :=
  let length := length chromosome1 in
  let offspring_chromosome :=
    slice_assign (replicate length None) start stop
      (Some <$> slice chromosome1 start stop) in
  let parent2_genes :=
    filter (fun gene => Some gene ∉ offspring_chromosome) chromosome2 in
  order_fill offspring_chromosome parent2_genes 0.

Definition order_chromosome (parent1 parent2 : ref) : M G (list G) :=
  p1 <- deref parent1 ;;
  segment <- random_segment (length (chromosome p1)) ;;
  p2 <- deref parent2 ;;
  match order_offspring (chromosome p1) (chromosome p2) (fst segment) (snd segment) with
  | None => raise IndexError
  | Some offspring_chromosome => ret offspring_chromosome
  end.

Definition order_crossover (parent1 parent2 : ref) : M G ref :=
  offspring_chromosome <- order_chromosome parent1 parent2 ;;
  new_Candidate offspring_chromosome 0%Q.
End Crossover.

(** *** arithmetic_crossover (lines 463-475) and blend_crossover (478-494):
    real-valued genes *)

Definition arithmetic_chromosome (parent1 parent2 : ref) (alpha : Q) : M Q (list Q) :=
  p1 <- deref parent1 ;;
  p2 <- deref parent2 ;;
  ret (map (fun g => (alpha * fst g + (1 - alpha) * snd g)%Q)
         (zip (chromosome p1) (chromosome p2))).

Definition arithmetic_crossover (parent1 parent2 : ref) (alpha : Q) : M Q ref :=
  offspring_chromosome <- arithmetic_chromosome parent1 parent2 alpha ;;
  new_Candidate offspring_chromosome 0%Q.

Fixpoint blend_genes (alpha : Q) (pairs : list (Q * Q)) : M Q (list Q) :=
  match pairs with
  | [] => ret []
  | (gene1, gene2) :: rest =>
      let d := Qabs (gene1 - gene2) in
      let lower_bound := (Qmin gene1 gene2 - alpha * d)%Q in
      let upper_bound := (Qmax gene1 gene2 + alpha * d)%Q in
      g <- random_uniform lower_bound upper_bound ;;
      gs <- blend_genes alpha rest ;;
      ret (g :: gs)
  end.

Definition blend_chromosome (parent1 parent2 : ref) (alpha : Q) : M Q (list Q) :=
  p1 <- deref parent1 ;;
  p2 <- deref parent2 ;;
  blend_genes alpha (zip (chromosome p1) (chromosome p2)).

Definition blend_crossover (parent1 parent2 : ref) (alpha : Q) : M Q ref :=
  offspring_chromosome <- blend_chromosome parent1 parent2 alpha ;;
  new_Candidate offspring_chromosome 0%Q.

(* ===================================================================== *)
(** ** Mutation operators (src lines 540-721) *)
(* ===================================================================== *)

(** *** Operators that work on any gene type *)

Section MutationAnyGene.
Context {G : Type}.

(** boundary_mutation (lines 596-614). *)
Definition boundary_chromosome (candidate : ref) (lower_bound upper_bound : G)
  : M G (list G) :=
  c <- deref candidate ;;
  let offspring_chromosome := chromosome c in
  mutation_index <- randint 0 (Z.of_nat (length offspring_chromosome) - 1) ;;
  u <- random_random ;;
  if Qltb u (1 # 2)
  then ret (<[Z.to_nat mutation_index := lower_bound]> offspring_chromosome)
  else ret (<[Z.to_nat mutation_index := upper_bound]> offspring_chromosome).

Definition boundary_mutation (candidate : ref) (lower_bound upper_bound : G) : M G ref :=
  offspring_chromosome <- boundary_chromosome candidate lower_bound upper_bound ;;
  new_Candidate offspring_chromosome 0%Q.

(** swap_mutation (lines 617-630).  The right-hand side of the tuple
    assignment is read before either position is written. *)
Definition swap_chromosome (candidate : ref) : M G (list G) :=
  c <- deref candidate ;;
  let offspring_chromosome := chromosome c in
  picked <- random_sample (seq 0 (length offspring_chromosome)) 2 ;;
  match picked with
  | [idx1; idx2] =>
      match offspring_chromosome !! idx2, offspring_chromosome !! idx1 with
      | Some x2, Some x1 =>
          ret (<[idx2 := x1]> (<[idx1 := x2]> offspring_chromosome))
      | _, _ => raise IndexError
      end
  | _ => raise ValueError
  end.

Definition swap_mutation (candidate : ref) : M G ref :=
  offspring_chromosome <- swap_chromosome candidate ;;
  new_Candidate offspring_chromosome 0%Q.

(** scramble_mutation (lines 633-650). *)
Definition scramble_chromosome (candidate : ref) : M G (list G) :=
  c <- deref candidate ;;
  let offspring_chromosome := chromosome c in
  segment <- random_segment (length offspring_chromosome) ;;
  let '(start, stop) := segment in
  scrambled_part <- random_shuffle (slice offspring_chromosome start stop) ;;
  ret (slice_assign offspring_chromosome start stop scrambled_part).

Definition scramble_mutation (candidate : ref) : M G ref :=
  offspring_chromosome <- scramble_chromosome candidate ;;
  new_Candidate offspring_chromosome 0%Q.

(** inversion_mutation (lines 653-668). *)
Definition inversion_chromosome (candidate : ref) : M G (list G) :=
  c <- deref candidate ;;
  let offspring_chromosome := chromosome c in
  segment <- random_segment (length offspring_chromosome) ;;
  let '(start, stop) := segment in
  ret (slice_assign offspring_chromosome start stop
         (reverse (slice offspring_chromosome start stop))).

Definition inversion_mutation (candidate : ref) : M G ref :=
  offspring_chromosome <- inversion_chromosome candidate ;;
  new_Candidate offspring_chromosome 0%Q.
End MutationAnyGene.

(** *** Operators that write [random.randint(0, 100)]: integer genes *)

(** The per-gene loop shared by [uniform_mutation] (lines 548-556) and
    [adaptive_mutation] (lines 712-719). *)
Fixpoint mutate_genes (mutation_probability : Q) (genes : list Z) : M Z (list Z) :=
  match genes with
  | [] => ret []
  | gene :: rest =>
      u <- random_random ;;
      new_gene <- (if Qltb u mutation_probability then randint 0 100 else ret gene) ;;
      gs <- mutate_genes mutation_probability rest ;;
      ret (new_gene :: gs)
  end.

(** uniform_mutation (lines 540-558). *)
Definition uniform_mutation_chromosome (candidate : ref) (mutation_probability : Q)
  : M Z (list Z) :=
  c <- deref candidate ;;
  mutate_genes mutation_probability (chromosome c).

Definition uniform_mutation (candidate : ref) (mutation_probability : Q) : M Z ref :=
  offspring_chromosome <- uniform_mutation_chromosome candidate mutation_probability ;;
  new_Candidate offspring_chromosome 0%Q.

(** multi_point_mutation (lines 561-578). *)
Fixpoint mutate_indices (mutation_indices : list nat) (offspring_chromosome : list Z)
  : M Z (list Z) :=
  match mutation_indices with
  | [] => ret offspring_chromosome
  | index :: rest =>
      v <- randint 0 100 ;;
      (* the indices come from range(len): always in range *)
      mutate_indices rest (<[index := v]> offspring_chromosome)
  end.

Definition multi_point_chromosome (candidate : ref) (num_points : Z) : M Z (list Z) :=
  c <- deref candidate ;;
  let offspring_chromosome := chromosome c in
  mutation_indices <- random_sample (seq 0 (length offspring_chromosome)) num_points ;;
  mutate_indices mutation_indices offspring_chromosome.

Definition multi_point_mutation (candidate : ref) (num_points : Z) : M Z ref :=
  offspring_chromosome <- multi_point_chromosome candidate num_points ;;
  new_Candidate offspring_chromosome 0%Q.

(** adaptive_mutation (lines 695-721): [ZeroDivisionError] on an empty
    population. *)
Definition adaptive_chromosome (candidate : ref) (population : list ref)
    (improvement_threshold mutation_probability : Q) : M Z (list Z) :=
  total <- sum_fitness_from 0 population ;;
  if (length population =? 0)%nat then raise ZeroDivisionError
  else
    let avg_fitness := (total / inject_Z (Z.of_nat (length population)))%Q in
    c <- deref candidate ;;
    let mutation_probability :=
      if Qltb (fitness c) (avg_fitness * (1 + improvement_threshold))
      then (mutation_probability * 2)%Q else mutation_probability in
    c <- deref candidate ;;
    mutate_genes mutation_probability (chromosome c).

Definition adaptive_mutation (candidate : ref) (population : list ref)
    (improvement_threshold mutation_probability : Q) : M Z ref :=
  offspring_chromosome <-
    adaptive_chromosome candidate population improvement_threshold mutation_probability ;;
  new_Candidate offspring_chromosome 0%Q.

(** *** Operators that add noise: real-valued genes *)

Section MutationReal.
(** [random.gauss(mu, sigma)] is [mu + z * sigma] for a standard normal
    variate [z] computed from the generator; [gauss_variate] is that
    computation, here fed one raw draw. *)
Variable gauss_variate : N -> Q.

Definition random_gauss (mu sigma : Q) : M Q Q :=
  d <- draw ;; ret (mu + gauss_variate d * sigma)%Q.

(** gaussian_mutation (lines 581-593). *)
Fixpoint gaussian_genes (mean stddev : Q) (genes : list Q) : M Q (list Q) :=
  match genes with
  | [] => ret []
  | gene :: rest =>
      noise <- random_gauss mean stddev ;;
      gs <- gaussian_genes mean stddev rest ;;
      ret ((gene + noise)%Q :: gs)
  end.

Definition gaussian_chromosome (candidate : ref) (mean stddev : Q) : M Q (list Q) :=
  c <- deref candidate ;;
  gaussian_genes mean stddev (chromosome c).

Definition gaussian_mutation (candidate : ref) (mean stddev : Q) : M Q ref :=
  offspring_chromosome <- gaussian_chromosome candidate mean stddev ;;
  new_Candidate offspring_chromosome 0%Q.
End MutationReal.

(** non_uniform_mutation (lines 671-692): [generation / max_generations]
    raises [ZeroDivisionError] for [max_generations = 0], after the draw of
    [random.uniform(0, 1)]. *)
Fixpoint non_uniform_genes (generation max_generations : Z) (mutation_probability : Q)
    (genes : list Q) : M Q (list Q) :=
  match genes with
  | [] => ret []
  | gene :: rest =>
      u <- random_random ;;
      new_gene <-
        (if Qltb u mutation_probability then
           r <- random_uniform 0 1 ;;
           if max_generations =? 0 then raise ZeroDivisionError
           else
             let delta :=
               (r * (1 - inject_Z generation / inject_Z max_generations))%Q in
             sign <- random_choice [-1; 1] ;;
             ret (gene + inject_Z sign * delta)%Q
         else ret gene) ;;
      gs <- non_uniform_genes generation max_generations mutation_probability rest ;;
      ret (new_gene :: gs)
  end.

Definition non_uniform_chromosome (candidate : ref) (generation max_generations : Z)
    (mutation_probability : Q) : M Q (list Q) :=
  c <- deref candidate ;;
  non_uniform_genes generation max_generations mutation_probability (chromosome c).

Definition non_uniform_mutation (candidate : ref) (generation max_generations : Z)
    (mutation_probability : Q) : M Q ref :=
  offspring_chromosome <-
    non_uniform_chromosome candidate generation max_generations mutation_probability ;;
  new_Candidate offspring_chromosome 0%Q.

(* ===================================================================== *)
(** ** Predicates used in the statements *)
(* ===================================================================== *)

(** [grows m]: whatever [m] does, objects already in the heap stay as they
    are (new ones may be appended). *)
Definition grows {G A} (m : M G A) : Prop :=
  forall w w', final_world (m w) = Some w' -> heap w `prefix_of` heap w'.

(** [reads_only m]: [m] neither writes the heap nor draws. *)
Definition reads_only {G A} (m : M G A) : Prop :=
  forall w w', final_world (m w) = Some w' -> w' = w.

(** The loop invariant: both tracked candidates are live objects and the
    best is at least as fit as the current one. *)
Definition sa_inv (st : sa_state) (w : world Z) : Prop :=
  exists c b, heap w !! sa_candidate st = Some c /\
              heap w !! sa_best st = Some b /\
              (fitness c <= fitness b)%Q.

(** Every state of a run, seen from the final world: its current candidate
    is no fitter than its best, which is no fitter than the final best. *)
Definition sa_dominated (w' : world Z) (final : sa_state) (s : sa_state) : Prop :=
  exists c b bf,
    heap w' !! sa_candidate s = Some c /\
    heap w' !! sa_best s = Some b /\
    heap w' !! sa_best final = Some bf /\
    (fitness c <= fitness b)%Q /\ (fitness b <= fitness bf)%Q.

(** The tracked best never gets worse from one test of the loop condition
    to the next. *)
Definition sa_best_monotone (w' : world Z) (tr : list sa_state) : Prop :=
  forall i s1 s2, tr !! i = Some s1 -> tr !! S i = Some s2 ->
    exists b1 b2, heap w' !! sa_best s1 = Some b1 /\
                  heap w' !! sa_best s2 = Some b2 /\
                  (fitness b1 <= fitness b2)%Q.

(** The scan returns a neighbour of the list that passed the admissibility
    test of line 240. *)
Definition admitted (w : world Z) (tabu : list (list Z)) (best : ref) (bn : ref) : Prop :=
  exists n b, heap w !! bn = Some n /\ heap w !! best = Some b /\
              admissible tabu b n = true.

(** Seen from world [w'], the current candidate of [st] is the newest
    entry of the tabu memory of [st]. *)
Definition current_is_tabu (w' : world Z) (st : tabu_state) : Prop :=
  exists c, heap w' !! current_candidate st = Some c /\
            last (tabu_list st) = Some (chromosome c) /\
            chromosome c ∈ tabu_list st.

(** What a driver called on [candidate] with objective [f] leaves in the
    caller's heap: the input object keeps its chromosome and carries the
    freshly evaluated fitness, and every other object the caller held is as
    it was.  [w1] is the world right after the initial evaluation. *)
Definition evaluates_input_only (f : list Z -> Q) (candidate : ref) (w w' : world Z) : Prop :=
  exists c0 w1,
    heap w !! candidate = Some c0 /\
    calculate_fitness candidate f w = Ok tt w1 /\
    heap w1 = <[candidate := mkCandidate (chromosome c0) (f (chromosome c0))]> (heap w) /\
    heap w1 `prefix_of` heap w' /\
    heap w' !! candidate = Some (mkCandidate (chromosome c0) (f (chromosome c0))) /\
    (forall r c, r <> candidate -> heap w !! r = Some c -> heap w' !! r = Some c).

(** Every reference of [generation] is a live object of [w] whose fitness
    satisfies [P]. *)
Definition all_fitness {G} (P : Q -> Prop) (w : world G) (generation : list ref) : Prop :=
  Forall (fun r => exists c, heap w !! r = Some c /\ P (fitness c)) generation.

(** The world after one draw. *)
Definition advance {G} (w : world G) : world G :=
  World (heap w) (draws w) (S (cursor w)).

(** [sum(range(i + 1, i + n + 1))]: the ranks of [n] candidates from index [i]. *)
Definition ranks_from (i n : nat) : Z :=
  foldr Z.add 0 (map (fun j => Z.of_nat j + 1) (seq i n)).

(** [keeps_heap m]: when [m] returns, the heap is the one it started from
    (it may have drawn from the generator). *)
Definition keeps_heap {G A} (m : M G A) : Prop :=
  forall w a w', m w = Ok a w' -> heap w' = heap w.

(** [r] is a new object of [w'], with chromosome [chrom] and the default
    fitness, and the objects of [w] are all still there, unchanged. *)
Definition allocated {G} (w : world G) (r : ref) (chrom : list G) (w' : world G) : Prop :=
  r = length (heap w) /\ heap w' = heap w ++ [mkCandidate chrom 0%Q].

(** An ascending list of indices that starts no lower than [prev]. *)
Fixpoint ascending (prev : nat) (points : list nat) : Prop :=
  match points with
  | [] => True
  | p :: rest => (prev <= p)%nat /\ ascending p rest
  end.

(** [op] returns a new object with the default fitness and leaves every
    object of the heap it was called in unchanged. *)
Definition constructs_new {G} (op : M G ref) : Prop :=
  forall w r w', op w = Ok r w' -> exists chrom, allocated w r chrom w'.

(** Each gene of the offspring is the gene either parent has at the same
    position. *)
Definition positional {G} (c1 c2 chrom : list G) : Prop :=
  forall i g, chrom !! i = Some g -> c1 !! i = Some g \/ c2 !! i = Some g.



(** In world [w], candidate [a] is at least as fit as candidate [b]. *)
Definition at_least_as_fit {G} (w : world G) (a b : ref) : Prop :=
  exists ca cb, heap w !! a = Some ca /\ heap w !! b = Some cb /\
                (fitness cb <= fitness ca)%Q.

(** Every key is the fitness of the object it is paired with. *)
Definition keys_of {G} (w : world G) (ks : list (Q * ref)) : Prop :=
  Forall (fun k => exists c, heap w !! snd k = Some c /\ fitness c = fst k) ks.

(** [p] wins a tournament of [k] candidates drawn from the generation
    without replacement: it is one of them and none of them is fitter. *)
Definition wins_tournament {G} (w : world G) (generation : list ref) (k : nat) (p : ref)
  : Prop :=
  exists tournament,
    tournament ⊆+ generation /\ length tournament = k /\ p ∈ tournament /\
    forall r, r ∈ tournament -> at_least_as_fit w p r.

(** A parent that is a candidate of the generation, or [None]. *)
Definition from_generation (generation : list ref) (parent : option ref) : Prop :=
  forall p, parent = Some p -> p ∈ generation.

(** Called in world [w], [op] can only return a new candidate whose
    chromosome has [n] genes. *)
Definition offspring_length {G} (op : M G ref) (w : world G) (n : nat) : Prop :=
  forall r w', op w = Ok r w' -> exists chrom, allocated w r chrom w' /\ length chrom = n.

(* ===================================================================== *)
(** ** Concrete worlds for the examples *)
(* ===================================================================== *)

(** Objective used by the source's own demo harness ([test_HC], [test_SA],
    [test_TS]): [sum(chromosome)]. *)
Definition sum_fitness (chrom : list Z) : Q := inject_Z (foldr Z.add 0 chrom).

(** A generator that replays [stream] and then yields zeros. *)
Definition replay (stream : list N) : nat -> N := fun n => nth n stream 0%N.

(** A heap holding one unevaluated candidate, at address 0. *)
Definition demo_world (chrom : list Z) (stream : list N) : world Z :=
  World [mkCandidate chrom 0%Q] (replay stream) 0%nat.

(** A rational stand-in for [math.exp] on non-positive arguments,
    [1 / (1 - x)]; it never overflows. *)
Definition exp_approx (x : Q) : option Q := Some (1 / (1 - x))%Q.

(** A heap holding the given candidates at addresses 0, 1, ... *)
Definition population_world {G} (population : list (Candidate G)) (stream : list N)
  : world G :=
  World population (replay stream) 0%nat.

(** Candidates with one-gene chromosomes and the given fitness values. *)
Definition with_fitness (fs : list Q) : list (Candidate Z) :=
  imap (fun i q => mkCandidate [Z.of_nat i] q) fs.

(* ===================================================================== *)
(** ** Reasoning about monadic code *)
(* ===================================================================== *)

Lemma bind_Ok {G A B} (m : M G A) (k : A -> M G B) w b w' :
  bind m k w = Ok b w' <->
  exists a w1, m w = Ok a w1 /\ k a w1 = Ok b w'.
Proof.
  unfold bind. split.
  - destruct (m w) as [a w1| |]; try discriminate. eauto.
  - intros (a & w1 & -> & H). exact H.
Qed.

Lemma bind_of_Ok {G A B} (m : M G A) (k : A -> M G B) w a w1 :
  m w = Ok a w1 -> bind m k w = k a w1.
Proof. unfold bind. now intros ->. Qed.

Lemma bind_of_Raise {G A B} (m : M G A) (k : A -> M G B) w e w1 :
  m w = Raise e w1 -> bind m k w = Raise e w1.
Proof. unfold bind. now intros ->. Qed.

(** Where the world of [bind m k] comes from: [m] raised, or [k] ended. *)
Lemma bind_final {G A B} (m : M G A) (k : A -> M G B) w w' :
  final_world (bind m k w) = Some w' ->
  (exists e, m w = Raise e w') \/
  (exists a w1, m w = Ok a w1 /\ final_world (k a w1) = Some w').
Proof.
  unfold bind. destruct (m w) as [a w1|e w1|]; cbn; intros H.
  - right. eauto.
  - left. injection H as ->. eauto.
  - discriminate.
Qed.

Lemma ret_Ok {G A} (a b : A) (w w' : world G) :
  ret a w = Ok b w' <-> a = b /\ w = w'.
Proof. unfold ret. split; [intros [= -> ->]; auto | intros [-> ->]; auto]. Qed.

Lemma Qltb_lt (x y : Q) : Qltb x y = true <-> (x < y)%Q.
Proof.
  unfold Qltb. rewrite negb_true_iff, <- not_true_iff_false, Qle_bool_iff.
  split; [apply Qnot_le_lt | apply Qlt_not_le].
Qed.

Lemma Qltb_ge (x y : Q) : Qltb x y = false <-> (y <= x)%Q.
Proof. unfold Qltb. rewrite negb_false_iff. apply Qle_bool_iff. Qed.

(** Invert a hypothesis [m w = Ok a w'] built from [bind]. *)
Ltac inv_ok H :=
  repeat match type of H with
  | bind _ _ _ = Ok _ _ =>
      let a := fresh "a" in let w := fresh "w" in
      let H1 := fresh "H" in
      apply bind_Ok in H; destruct H as (a & w & H1 & H)
  end.

Section HeapFacts.
Context {G : Type}.
Implicit Types (w : world G) (c : Candidate G) (r : ref).

Lemma deref_Ok r w c w' :
  deref r w = Ok c w' <-> heap w !! r = Some c /\ w' = w.
Proof.
  unfold deref. destruct (heap w !! r) as [c0|]; split.
  - intros [= -> ->]; auto.
  - intros [[= ->] ->]; auto.
  - discriminate.
  - intros [[=] _].
Qed.

Lemma deref_of_lookup r w c : heap w !! r = Some c -> deref r w = Ok c w.
Proof. intros H. unfold deref. now rewrite H. Qed.

Lemma deref_final r w w' : final_world (deref r w) = Some w' -> w' = w.
Proof. unfold deref. destruct (heap w !! r); cbn; congruence. Qed.

Lemma calculate_fitness_eq r f w c :
  heap w !! r = Some c ->
  calculate_fitness r f w =
    Ok tt (World (<[r := mkCandidate (chromosome c) (f (chromosome c))]> (heap w))
                 (draws w) (cursor w)).
Proof.
  intros H. unfold calculate_fitness.
  now rewrite (bind_of_Ok _ _ _ _ _ (deref_of_lookup _ _ _ H)).
Qed.

Lemma calculate_fitness_dangling r f w :
  heap w !! r = None -> calculate_fitness r f w = Raise AttributeError w.
Proof. intros H. unfold calculate_fitness, bind, deref. now rewrite H. Qed.

Lemma randint_eq (a b : Z) w :
  a <= b ->
  @randint G a b w =
    Ok (a + Z.of_N (draws w (cursor w)) mod (b - a + 1))
       (World (heap w) (draws w) (S (cursor w))).
Proof.
  intros Hab. unfold randint. destruct (Z.ltb_spec b a); [lia | reflexivity].
Qed.

Lemma randint_empty (a b : Z) w : b < a -> @randint G a b w = Raise ValueError w.
Proof. intros Hab. unfold randint. destruct (Z.ltb_spec b a); [reflexivity | lia]. Qed.

Lemma randint_range (a b : Z) w v w' :
  @randint G a b w = Ok v w' -> a <= v <= b.
Proof.
  unfold randint. destruct (Z.ltb_spec b a); [discriminate|].
  intros [= <- _]. pose proof (Z.mod_pos_bound (Z.of_N (draws w (cursor w))) (b - a + 1)).
  lia.
Qed.
End HeapFacts.

(** *** The neighbour construction *)

Lemma make_neighbor_eq f w candidate c :
  heap w !! candidate = Some c -> chromosome c <> [] ->
  make_neighbor candidate f w =
    Ok (length (heap w))
       (World (heap w ++ [neighbor_of f w c]) (draws w) (S (S (cursor w)))).
Proof.
  intros Hc Hne. unfold make_neighbor.
  rewrite (bind_of_Ok _ _ _ _ _ (deref_of_lookup _ _ _ Hc)).
  assert (0 <= Z.of_nat (length (chromosome c)) - 1).
  { destruct (chromosome c); [congruence | simpl; lia]. }
  erewrite bind_of_Ok by (apply randint_eq; assumption).
  erewrite bind_of_Ok by (apply randint_eq; lia).
  unfold new_Candidate at 1. unfold bind at 1. cbn [heap draws cursor].
  erewrite bind_of_Ok.
  2:{ apply calculate_fitness_eq. cbn [heap]. apply list_lookup_middle. reflexivity. }
  unfold ret. cbn [heap draws cursor chromosome].
  rewrite insert_app_r_alt by lia. rewrite Nat.sub_diag. reflexivity.
Qed.

Lemma make_neighbor_empty f w candidate c :
  heap w !! candidate = Some c -> chromosome c = [] ->
  make_neighbor candidate f w = Raise ValueError w.
Proof.
  intros Hc He. unfold make_neighbor.
  rewrite (bind_of_Ok _ _ _ _ _ (deref_of_lookup _ _ _ Hc)).
  rewrite He. reflexivity.
Qed.

Lemma make_neighbor_dangling f w candidate :
  heap w !! candidate = None ->
  make_neighbor candidate f w = Raise AttributeError w.
Proof. intros Hc. unfold make_neighbor, bind, deref. now rewrite Hc. Qed.

Lemma make_neighbor_Ok f w candidate r w' :
  make_neighbor candidate f w = Ok r w' ->
  exists c, heap w !! candidate = Some c /\ chromosome c <> [] /\
    r = length (heap w) /\
    w' = World (heap w ++ [neighbor_of f w c]) (draws w) (S (S (cursor w))).
Proof.
  intros H. destruct (heap w !! candidate) as [c|] eqn:Hc.
  - destruct (decide (chromosome c = [])) as [He|Hne].
    + rewrite (make_neighbor_empty _ _ _ _ Hc He) in H. discriminate.
    + rewrite (make_neighbor_eq _ _ _ _ Hc Hne) in H. injection H as <- <-.
      exists c. auto.
  - rewrite (make_neighbor_dangling _ _ _ Hc) in H. discriminate.
Qed.

Lemma make_neighbor_Raise f w candidate e w' :
  make_neighbor candidate f w = Raise e w' -> w' = w.
Proof.
  intros H. destruct (heap w !! candidate) as [c|] eqn:Hc.
  - destruct (decide (chromosome c = [])) as [He|Hne].
    + rewrite (make_neighbor_empty _ _ _ _ Hc He) in H. congruence.
    + rewrite (make_neighbor_eq _ _ _ _ Hc Hne) in H. discriminate.
  - rewrite (make_neighbor_dangling _ _ _ Hc) in H. congruence.
Qed.

Lemma neighbor_of_length f w c :
  length (chromosome (neighbor_of f w c)) = length (chromosome c).
Proof. unfold neighbor_of. cbn [chromosome]. apply length_insert. Qed.

(** *** Effects of a computation on the heap *)



Section Effects.
Context {G : Type}.

Lemma reads_only_grows {A} (m : M G A) : reads_only m -> grows m.
Proof. intros H w w' Hf. now rewrite (H _ _ Hf). Qed.

Lemma reads_only_ret {A} (a : A) : reads_only (@ret G A a).
Proof. intros w w' [= <-]. reflexivity. Qed.

Lemma reads_only_raise {A} e : reads_only (@raise G A e).
Proof. intros w w' [= <-]. reflexivity. Qed.

Lemma reads_only_deref r : reads_only (@deref G r).
Proof. intros w w'. apply deref_final. Qed.

Lemma reads_only_bind {A B} (m : M G A) (k : A -> M G B) :
  reads_only m -> (forall a, reads_only (k a)) -> reads_only (bind m k).
Proof.
  intros Hm Hk w w' H. apply bind_final in H as [(e & He) | (a & w1 & Ha & Hf)].
  - apply Hm. now rewrite He.
  - assert (w1 = w) as -> by (apply Hm; now rewrite Ha). now apply (Hk a).
Qed.

Lemma reads_only_Ok {A} (m : M G A) w a w' : reads_only m -> m w = Ok a w' -> w' = w.
Proof. intros Hm H. apply Hm. now rewrite H. Qed.

Lemma grows_ret {A} (a : A) : grows (@ret G A a).
Proof. apply reads_only_grows, reads_only_ret. Qed.

Lemma grows_raise {A} e : grows (@raise G A e).
Proof. apply reads_only_grows, reads_only_raise. Qed.

Lemma grows_bind {A B} (m : M G A) (k : A -> M G B) :
  grows m -> (forall a, grows (k a)) -> grows (bind m k).
Proof.
  intros Hm Hk w w' H. apply bind_final in H as [(e & He) | (a & w1 & Ha & Hf)].
  - apply Hm. now rewrite He.
  - etransitivity; [apply Hm; now rewrite Ha | now apply (Hk a)].
Qed.

Lemma grows_Ok {A} (m : M G A) w a w' :
  grows m -> m w = Ok a w' -> heap w `prefix_of` heap w'.
Proof. intros Hm H. apply Hm. now rewrite H. Qed.

Lemma grows_draw : grows (@draw G).
Proof. intros w w' [= <-]. reflexivity. Qed.

Lemma grows_randint a b : grows (@randint G a b).
Proof.
  unfold randint. destruct (b <? a); [apply grows_raise |].
  apply grows_bind; [apply grows_draw | intros; apply grows_ret].
Qed.

Lemma grows_random_random : grows (@random_random G).
Proof. apply grows_bind; [apply grows_draw | intros; apply grows_ret]. Qed.

Lemma grows_random_uniform a b : grows (@random_uniform G a b).
Proof. apply grows_bind; [apply grows_random_random | intros; apply grows_ret]. Qed.

Lemma grows_new_Candidate chrom fit : grows (@new_Candidate G chrom fit).
Proof. intros w w' [= <-]. cbn [heap]. now apply prefix_app_r. Qed.
End Effects.

Lemma grows_make_neighbor candidate f : grows (make_neighbor candidate f).
Proof.
  intros w w' H. destruct (make_neighbor candidate f w) as [r w1|e w1|] eqn:E;
    cbn in H; try discriminate; injection H as ->.
  - apply make_neighbor_Ok in E as (c & _ & _ & _ & ->). cbn [heap].
    now apply prefix_app_r.
  - apply make_neighbor_Raise in E as ->. reflexivity.
Qed.

(** Structural proof of [grows] / [reads_only] for code built from the
    primitives. *)
Ltac effects :=
  repeat first
    [ apply reads_only_ret | apply reads_only_raise | apply reads_only_deref
    | apply grows_ret | apply grows_raise | apply grows_draw | apply grows_randint
    | apply grows_random_random | apply grows_random_uniform
    | apply grows_new_Candidate | apply grows_make_neighbor
    | apply reads_only_grows; apply reads_only_deref
    | apply reads_only_bind; [| intros ?] | apply grows_bind; [| intros ?]
    | match goal with
      | |- reads_only (if ?b then _ else _) => destruct b
      | |- grows (if ?b then _ else _) => destruct b
      | |- reads_only (match ?o with Some _ => _ | None => _ end) => destruct o
      | |- grows (match ?o with Some _ => _ | None => _ end) => destruct o
      end
    | assumption ].

(* ===================================================================== *)
(** ** Hill climbing *)
(* ===================================================================== *)

Lemma hill_step_eq f w candidate c :
  heap w !! candidate = Some c -> chromosome c <> [] ->
  hill_step f candidate w =
    Ok (if Qltb (fitness c) (fitness (neighbor_of f w c))
        then length (heap w) else candidate)
       (World (heap w ++ [neighbor_of f w c]) (draws w) (S (S (cursor w)))).
Proof.
  intros Hc Hne. unfold hill_step.
  rewrite (bind_of_Ok _ _ _ _ _ (make_neighbor_eq f _ _ _ Hc Hne)).
  erewrite bind_of_Ok.
  2:{ apply deref_of_lookup. cbn [heap]. apply list_lookup_middle. reflexivity. }
  erewrite bind_of_Ok.
  2:{ apply deref_of_lookup. cbn [heap]. apply lookup_app_l_Some. exact Hc. }
  now destruct (Qltb _ _).
Qed.

Lemma hill_step_Ok f w candidate r w' :
  hill_step f candidate w = Ok r w' ->
  exists c, heap w !! candidate = Some c /\ chromosome c <> [] /\
    r = (if Qltb (fitness c) (fitness (neighbor_of f w c))
         then length (heap w) else candidate) /\
    w' = World (heap w ++ [neighbor_of f w c]) (draws w) (S (S (cursor w))).
Proof.
  intros H. pose proof H as H0. unfold hill_step in H0.
  apply bind_Ok in H0 as (nb & w1 & Hn & _).
  apply make_neighbor_Ok in Hn as (c & Hc & Hne & _ & _).
  rewrite (hill_step_eq f _ _ _ Hc Hne) in H. injection H as <- <-. eauto.
Qed.

Lemma hill_step_final f w candidate w' :
  final_world (hill_step f candidate w) = Some w' ->
  heap w `prefix_of` heap w'.
Proof.
  destruct (heap w !! candidate) as [c|] eqn:Hc.
  - destruct (decide (chromosome c = [])) as [He|Hne].
    + unfold hill_step. rewrite (bind_of_Raise _ _ _ _ _ (make_neighbor_empty f _ _ _ Hc He)).
      intros [= <-]. reflexivity.
    + rewrite (hill_step_eq f _ _ _ Hc Hne). intros [= <-]. cbn [heap].
      now apply prefix_app_r.
  - unfold hill_step. rewrite (bind_of_Raise _ _ _ _ _ (make_neighbor_dangling f _ _ Hc)).
    intros [= <-]. reflexivity.
Qed.

(** What one step keeps: the current candidate is a live object with a
    chromosome of the same length, never a worse one. *)
Lemma hill_step_inv f w candidate r w' c :
  heap w !! candidate = Some c ->
  hill_step f candidate w = Ok r w' ->
  exists c', heap w' !! r = Some c' /\
    (fitness c <= fitness c')%Q /\
    length (chromosome c') = length (chromosome c) /\
    heap w `prefix_of` heap w'.
Proof.
  intros Hc H. apply hill_step_Ok in H as (c1 & Hc1 & Hne & -> & ->).
  assert (c1 = c) as -> by congruence. cbn [heap].
  destruct (Qltb _ _) eqn:Hlt.
  - exists (neighbor_of f w c). repeat split.
    + now apply list_lookup_middle.
    + apply Qlt_le_weak. now apply Qltb_lt.
    + apply neighbor_of_length.
    + now apply prefix_app_r.
  - exists c. repeat split.
    + now apply lookup_app_l_Some.
    + apply Qle_refl.
    + now apply prefix_app_r.
Qed.

Lemma hill_loop_inv f n : forall w candidate r w' c,
  heap w !! candidate = Some c ->
  hill_loop f n candidate w = Ok r w' ->
  exists c', heap w' !! r = Some c' /\
    (fitness c <= fitness c')%Q /\
    length (chromosome c') = length (chromosome c) /\
    heap w `prefix_of` heap w'.
Proof.
  induction n as [|n IH]; intros w candidate r w' c Hc H; cbn in H.
  - apply ret_Ok in H as [<- <-]. exists c. repeat split; auto. apply Qle_refl.
  - apply bind_Ok in H as (r1 & w1 & Hs & Hl).
    destruct (hill_step_inv _ _ _ _ _ _ Hc Hs) as (c1 & Hc1 & Hle1 & Hlen1 & Hp1).
    destruct (IH _ _ _ _ _ Hc1 Hl) as (c2 & Hc2 & Hle2 & Hlen2 & Hp2).
    exists c2. repeat split; auto.
    + eapply Qle_trans; eauto.
    + congruence.
    + etransitivity; eauto.
Qed.

Lemma hill_loop_total f n : forall w candidate c,
  heap w !! candidate = Some c -> chromosome c <> [] ->
  exists r w', hill_loop f n candidate w = Ok r w'.
Proof.
  induction n as [|n IH]; intros w candidate c Hc Hne; cbn.
  - unfold ret. eauto.
  - pose proof (hill_step_eq f _ _ _ Hc Hne) as Hs.
    rewrite (bind_of_Ok _ _ _ _ _ Hs).
    destruct (hill_step_inv _ _ _ _ _ _ Hc Hs) as (c1 & Hc1 & _ & Hlen & _).
    apply (IH _ _ c1 Hc1).
    intros E. apply Hne. apply length_zero_iff_nil. rewrite <- Hlen, E. reflexivity.
Qed.

Lemma hill_loop_final f n : forall w candidate w',
  final_world (hill_loop f n candidate w) = Some w' ->
  heap w `prefix_of` heap w'.
Proof.
  induction n as [|n IH]; intros w candidate w' H; cbn in H.
  - injection H as <-. reflexivity.
  - apply bind_final in H as [(e & He) | (r1 & w1 & Hs & Hl)].
    + apply hill_step_final with (f := f) (candidate := candidate).
      now rewrite He.
    + etransitivity; [| eapply IH; eauto].
      apply hill_step_final with (f := f) (candidate := candidate).
      now rewrite Hs.
Qed.

(** C2.  [hill_climb] never returns a candidate worse than the evaluated
    initial one, it does return for every draw sequence when the chromosome
    is not empty, and a step moves to the neighbour exactly when the
    neighbour is strictly fitter (a tie keeps the current candidate). *)
Theorem hill_climb_never_regresses (w : world Z) (candidate : ref)
    (f : list Z -> Q) (max_iterations : Z) :
  (forall r w', hill_climb candidate f max_iterations w = Ok r w' ->
     exists c0 c,
       heap w !! candidate = Some c0 /\
       heap w' !! candidate = Some (mkCandidate (chromosome c0) (f (chromosome c0))) /\
       heap w' !! r = Some c /\
       (f (chromosome c0) <= fitness c)%Q) /\
  (forall c0, heap w !! candidate = Some c0 -> chromosome c0 <> [] ->
     exists r w', hill_climb candidate f max_iterations w = Ok r w') /\
  (forall current w1 next w2, hill_step f current w1 = Ok next w2 ->
     exists c n,
       heap w1 !! current = Some c /\
       heap w2 !! length (heap w1) = Some n /\
       heap w2 !! current = Some c /\
       ((next = length (heap w1) /\ (fitness c < fitness n)%Q) \/
        (next = current /\ (fitness n <= fitness c)%Q))).
Proof.
  split; [| split].
  - intros r w' H. unfold hill_climb in H.
    apply bind_Ok in H as ([] & w1 & Hcalc & Hloop).
    destruct (heap w !! candidate) as [c0|] eqn:Hc0.
    2:{ rewrite (calculate_fitness_dangling _ _ _ Hc0) in Hcalc. discriminate. }
    rewrite (calculate_fitness_eq _ f _ _ Hc0) in Hcalc. injection Hcalc as <-.
    set (c1 := mkCandidate (chromosome c0) (f (chromosome c0))) in *.
    assert (Hc1 : heap (World (<[candidate := c1]> (heap w)) (draws w) (cursor w))
                    !! candidate = Some c1).
    { cbn [heap]. apply list_lookup_insert_eq. eapply lookup_lt_Some; eauto. }
    destruct (hill_loop_inv _ _ _ _ _ _ _ Hc1 Hloop) as (c & Hc & Hle & _ & Hp).
    exists c0, c. repeat split; auto.
    eapply prefix_lookup_Some; eauto.
  - intros c0 Hc0 Hne. unfold hill_climb.
    rewrite (bind_of_Ok _ _ _ _ _ (calculate_fitness_eq _ f _ _ Hc0)).
    eapply hill_loop_total with (c := mkCandidate (chromosome c0) (f (chromosome c0))).
    + cbn [heap]. apply list_lookup_insert_eq. eapply lookup_lt_Some; eauto.
    + exact Hne.
  - intros current w1 next w2 H.
    apply hill_step_Ok in H as (c & Hc & Hne & -> & ->). cbn [heap].
    exists c, (neighbor_of f w1 c). repeat split.
    + exact Hc.
    + now apply list_lookup_middle.
    + now apply lookup_app_l_Some.
    + destruct (Qltb _ _) eqn:Hlt.
      * left. split; [reflexivity | now apply Qltb_lt].
      * right. split; [reflexivity | now apply Qltb_ge].
Qed.

Lemma hill_climb_never_regresses_witness :
  exists r w',
    hill_climb 0%nat sum_fitness 3 (demo_world [1; 2; 3; 4; 5] [0; 7; 1; 0; 2; 50]%N) = Ok r w' /\
    exists c, heap w' !! r = Some c /\ (15 <= fitness c)%Q.
Proof.
  destruct (hill_climb_never_regresses
              (demo_world [1; 2; 3; 4; 5] [0; 7; 1; 0; 2; 50]%N) 0%nat sum_fitness 3)
    as (Hsafe & Htotal & _).
  destruct (Htotal (mkCandidate [1; 2; 3; 4; 5] 0%Q)) as (r & w' & Hrun);
    [reflexivity | discriminate |].
  exists r, w'. split; [exact Hrun |].
  destruct (Hsafe r w' Hrun) as (c0 & c & Hc0 & _ & Hc & Hle).
  injection Hc0 as <-. exists c. split; [exact Hc | exact Hle].
Defined.

(* ===================================================================== *)
(** ** Simulated annealing *)
(* ===================================================================== *)

Section AnnealingFacts.
Variable math_exp : Q -> option Q.
Variable f : list Z -> Q.
Variables cooling_rate min_temperature : Q.

Abbreviation step := (sa_step math_exp f cooling_rate).
Abbreviation loop := (sa_loop math_exp f cooling_rate min_temperature).
Abbreviation run := (sa_run math_exp f cooling_rate min_temperature).

Lemma sa_accept_final diff T w w' :
  final_world (sa_accept math_exp diff T w) = Some w' -> heap w' = heap w.
Proof.
  unfold sa_accept. destruct (Qltb 0 diff); [intros [= <-]; reflexivity |].
  unfold bind, random_random, bind, draw, ret, raise.
  destruct (Qeq_bool T 0); [intros [= <-]; reflexivity |].
  destruct (math_exp _); intros [= <-]; reflexivity.
Qed.

Lemma sa_accept_Ok diff T w a w' :
  sa_accept math_exp diff T w = Ok a w' -> heap w' = heap w.
Proof. intros H. apply sa_accept_final with (diff := diff) (T := T). now rewrite H. Qed.


Lemma sa_step_inv st w st1 w1 :
  sa_inv st w -> step st w = Ok st1 w1 ->
  heap w `prefix_of` heap w1 /\ sa_inv st1 w1 /\
  exists b b1, heap w !! sa_best st = Some b /\ heap w1 !! sa_best st1 = Some b1 /\
               (fitness b <= fitness b1)%Q.
Proof.
  intros (c & b & Hc & Hb & Hcb) H. unfold sa_step in H.
  apply bind_Ok in H as (nb & w2 & Hn & H).
  apply make_neighbor_Ok in Hn as (c' & Hc' & Hne & -> & ->).
  assert (c' = c) as -> by congruence.
  set (n := neighbor_of f w c) in *.
  set (w2 := World (heap w ++ [n]) (draws w) (S (S (cursor w)))) in *.
  assert (Hn2 : heap w2 !! length (heap w) = Some n) by now apply list_lookup_middle.
  assert (Hc2 : heap w2 !! sa_candidate st = Some c) by now apply lookup_app_l_Some.
  assert (Hb2 : heap w2 !! sa_best st = Some b) by now apply lookup_app_l_Some.
  rewrite (bind_of_Ok _ _ _ _ _ (deref_of_lookup _ _ _ Hn2)) in H.
  rewrite (bind_of_Ok _ _ _ _ _ (deref_of_lookup _ _ _ Hc2)) in H.
  apply bind_Ok in H as (acc & w3 & Hacc & H).
  apply sa_accept_Ok in Hacc. subst w2. cbn [heap] in *.
  assert (Hp : heap w `prefix_of` heap w3).
  { rewrite Hacc. now apply prefix_app_r. }
  destruct acc.
  - apply bind_Ok in H as (b' & w4 & Hd & H). apply deref_Ok in Hd as [Hb3 ->].
    rewrite Hacc, Hb2 in Hb3. injection Hb3 as <-.
    apply ret_Ok in H as [<- <-]. cbn [sa_candidate sa_best].
    split; [exact Hp |].
    unfold sa_inv.
    destruct (Qltb (fitness b) (fitness n)) eqn:Hlt; cbn [sa_candidate sa_best];
      rewrite Hacc.
    + split.
      * exists n, n. split_and!; auto. apply Qle_refl.
      * exists b, n. split_and!; auto. apply Qlt_le_weak. now apply Qltb_lt.
    + split.
      * exists n, b. split_and!; auto. now apply Qltb_ge.
      * exists b, b. split_and!; auto. apply Qle_refl.
  - apply ret_Ok in H as [<- <-]. cbn [sa_candidate sa_best].
    split; [exact Hp |]. unfold sa_inv. cbn [sa_candidate sa_best]. rewrite Hacc. split.
    + exists c, b. auto.
    + exists b, b. split_and!; auto. apply Qle_refl.
Qed.

Lemma sa_loop_run fuel : forall st w st' w',
  loop fuel st w = Ok st' w' -> exists tr, run st w tr st' w'.
Proof.
  induction fuel as [|fuel IH]; intros st w st' w' H; cbn in H;
    destruct (Qltb min_temperature (sa_temperature st)) eqn:Hg.
  - discriminate.
  - apply ret_Ok in H as [<- <-]. exists [st]. now constructor.
  - apply bind_Ok in H as (st1 & w1 & Hs & Hl).
    destruct (IH _ _ _ _ Hl) as (tr & Hr). exists (st :: tr).
    econstructor; eauto.
  - apply ret_Ok in H as [<- <-]. exists [st]. now constructor.
Qed.

Lemma sa_run_head st w tr st' w' : run st w tr st' w' -> head tr = Some st.
Proof. now destruct 1. Qed.



Lemma sa_run_inv st w tr st' w' :
  run st w tr st' w' -> sa_inv st w ->
  heap w `prefix_of` heap w' /\ sa_inv st' w' /\
  Forall (sa_dominated w' st') tr /\ sa_best_monotone w' tr.
Proof.
  induction 1 as [st w Hg | st w st1 w1 tr st' w' Hg Hs Hr IH]; intros Hinv.
  - split; [reflexivity |]. split; [exact Hinv |]. split.
    + constructor; [| constructor]. destruct Hinv as (c & b & Hc & Hb & Hcb).
      exists c, b, b. split_and!; auto. apply Qle_refl.
    + intros i s1 s2 _ H2. destruct i; discriminate.
  - destruct (sa_step_inv _ _ _ _ Hinv Hs) as (Hp1 & Hinv1 & b & b1 & Hb & Hb1 & Hbb1).
    destruct (IH Hinv1) as (Hp & Hinv' & Hall & Hmono).
    assert (Hst1 : sa_dominated w' st' st1).
    { apply sa_run_head in Hr. destruct tr as [|s tr]; [discriminate |].
      injection Hr as ->. now inversion Hall. }
    destruct Hst1 as (c1 & b1' & bf & Hc1 & Hb1' & Hbf & Hle1 & Hle2).
    assert (b1' = b1) as ->.
    { pose proof (prefix_lookup_Some _ _ _ _ Hb1 Hp). congruence. }
    split; [etransitivity; eauto |]. split; [exact Hinv' |]. split.
    + constructor; [| exact Hall].
      destruct Hinv as (c & b0 & Hc & Hb0 & Hcb). assert (b0 = b) as -> by congruence.
      exists c, b, bf. split_and!; auto.
      * eapply prefix_lookup_Some; [exact Hc | etransitivity; eauto].
      * eapply prefix_lookup_Some; [exact Hb | etransitivity; eauto].
      * eapply Qle_trans; eauto.
    + intros i s1 s2 H1 H2. destruct i as [|i].
      * injection H1 as <-. cbn in H2.
        apply sa_run_head in Hr. destruct tr as [|s tr]; [discriminate |].
        injection Hr as ->. injection H2 as <-.
        exists b, b1. split_and!; auto.
        eapply prefix_lookup_Some; [exact Hb | etransitivity; eauto].
      * cbn in H1, H2. eapply Hmono; eauto.
Qed.

(** C3.  A run of [simulated_annealing] that returns hands back the tracked
    best of the last state; seen from the final heap, every current
    candidate visited is no fitter than the best tracked with it, which is
    no fitter than the returned one, and the tracked best never gets worse
    from one iteration to the next. *)
Theorem simulated_annealing_best_dominates
    (fuel : nat) (candidate : ref) (initial_temperature : Q)
    (w : world Z) (r : ref) (w' : world Z) :
  simulated_annealing math_exp f cooling_rate min_temperature fuel candidate
    initial_temperature w = Ok r w' ->
  exists w1 tr st',
    calculate_fitness candidate f w = Ok tt w1 /\
    run (SAState candidate candidate initial_temperature) w1 tr st' w' /\
    r = sa_best st' /\
    Forall (sa_dominated w' st') tr /\
    sa_best_monotone w' tr.
Proof.
  intros H. unfold simulated_annealing in H.
  apply bind_Ok in H as ([] & w1 & Hcalc & H).
  apply bind_Ok in H as (st' & w2 & Hloop & H).
  apply ret_Ok in H as [<- <-].
  destruct (sa_loop_run _ _ _ _ _ Hloop) as (tr & Hrun).
  exists w1, tr, st'. split; [exact Hcalc |]. split; [exact Hrun |].
  split; [reflexivity |].
  assert (Hinv : sa_inv (SAState candidate candidate initial_temperature) w1).
  { destruct (heap w !! candidate) as [c0|] eqn:Hc0.
    2:{ rewrite (calculate_fitness_dangling _ _ _ Hc0) in Hcalc. discriminate. }
    rewrite (calculate_fitness_eq _ f _ _ Hc0) in Hcalc. injection Hcalc as <-.
    eexists _, _. cbn [sa_candidate sa_best heap]. split; [| split].
    - apply list_lookup_insert_eq. eapply lookup_lt_Some; eauto.
    - apply list_lookup_insert_eq. eapply lookup_lt_Some; eauto.
    - apply Qle_refl. }
  destruct (sa_run_inv _ _ _ _ _ Hrun Hinv) as (_ & _ & Hall & Hmono). auto.
Qed.
End AnnealingFacts.

(* ===================================================================== *)
(** ** Tabu search *)
(* ===================================================================== *)

(** *** The bounded queue *)

Lemma deque_append_below {A} (maxlen : nat) (q : list A) x :
  (length q < maxlen)%nat -> deque_append maxlen q x = q ++ [x].
Proof.
  intros H. unfold deque_append.
  destruct (Nat.ltb_spec maxlen (length (q ++ [x]))) as [H1|H1];
    rewrite length_app in H1; cbn [length] in H1; [lia | reflexivity].
Qed.

Lemma deque_append_full {A} (maxlen : nat) (q : list A) x :
  (maxlen <= length q)%nat -> deque_append maxlen q x = drop 1 (q ++ [x]).
Proof.
  intros H. unfold deque_append.
  destruct (Nat.ltb_spec maxlen (length (q ++ [x]))) as [H1|H1];
    rewrite length_app in H1; cbn [length] in H1; [reflexivity | lia].
Qed.

Lemma deque_append_length {A} (maxlen : nat) (q : list A) x :
  (length q <= maxlen)%nat -> (length (deque_append maxlen q x) <= maxlen)%nat.
Proof.
  intros H. unfold deque_append.
  destruct (Nat.ltb_spec maxlen (length (q ++ [x]))) as [Hlt|Hge]; [| exact Hge].
  rewrite length_drop, length_app. cbn. lia.
Qed.

Lemma deque_append_last {A} (maxlen : nat) (q : list A) x :
  (1 <= maxlen)%nat -> last (deque_append maxlen q x) = Some x.
Proof.
  intros H. unfold deque_append.
  destruct (Nat.ltb_spec maxlen (length (q ++ [x]))) as [Hlt|Hge].
  - rewrite length_app in Hlt. cbn in Hlt.
    destruct q as [|y q]; [cbn in Hlt; lia |]. cbn. rewrite drop_0. apply last_snoc.
  - apply last_snoc.
Qed.

Lemma deque_append_zero {A} (q : list A) x : q = [] -> deque_append 0 q x = [].
Proof. intros ->. reflexivity. Qed.

Section TabuFacts.
Variable f : list Z -> Q.

Lemma grows_gen_neighborhood n current : grows (gen_neighborhood f n current).
Proof. induction n; cbn; effects. Qed.

Lemma reads_only_scan tabu best nbh : forall bn,
  reads_only (scan_neighborhood tabu best nbh bn).
Proof. induction nbh as [|x nbh IH]; intros bn; cbn; effects; apply IH. Qed.

Lemma reads_only_tabu_move st bn : reads_only (tabu_move st bn).
Proof. unfold tabu_move. effects. Qed.

Lemma grows_tabu_step maxlen nsize st : grows (tabu_step f maxlen nsize st).
Proof.
  unfold tabu_step. effects.
  - apply grows_gen_neighborhood.
  - apply reads_only_grows, reads_only_scan.
  - apply reads_only_grows, reads_only_tabu_move.
Qed.

Lemma grows_tabu_loop maxlen nsize n : forall st, grows (tabu_loop f maxlen nsize n st).
Proof.
  induction n as [|n IH]; intros st; cbn; [apply grows_ret |].
  apply grows_bind; [apply grows_tabu_step | intros; apply IH].
Qed.


Lemma scan_neighborhood_admitted tabu best nbh : forall acc w r w',
  scan_neighborhood tabu best nbh acc w = Ok (Some r) w' ->
  (forall a, acc = Some a -> admitted w tabu best a) ->
  admitted w tabu best r.
Proof.
  induction nbh as [|x nbh IH]; intros acc w r w' H Hacc; cbn in H.
  - apply ret_Ok in H as [-> _]. now apply Hacc.
  - apply bind_Ok in H as (n & w1 & Hn & H). apply deref_Ok in Hn as [Hn ->].
    apply bind_Ok in H as (b & w1 & Hb & H). apply deref_Ok in Hb as [Hb ->].
    destruct (admissible tabu b n) eqn:Hadm.
    + assert (Hx : forall a, Some x = Some a -> admitted w tabu best a).
      { intros a [= <-]. exists n, b. auto. }
      destruct acc as [bn|].
      * apply bind_Ok in H as (bnc & w1 & Hbn & H). apply deref_Ok in Hbn as [_ ->].
        destruct (Qltb _ _); eapply IH; eauto.
      * eapply IH; eauto.
    + eapply IH; eauto.
Qed.

Lemma admissible_aspiration tabu (b n : Candidate Z) :
  admissible tabu b n = true -> chromosome n ∈ tabu -> (fitness b < fitness n)%Q.
Proof.
  unfold admissible. intros H Hin. apply orb_true_iff in H as [H|H].
  - apply negb_true_iff, bool_decide_eq_false in H. contradiction.
  - now apply Qltb_lt.
Qed.

Lemma tabu_step_Ok maxlen nsize st w st' w' :
  tabu_step f maxlen nsize st w = Ok st' w' ->
  exists c, heap w' !! current_candidate st' = Some c /\
            tabu_list st' = deque_append maxlen (tabu_list st) (chromosome c).
Proof.
  intros H. unfold tabu_step in H.
  apply bind_Ok in H as (nbh & w1 & _ & H).
  apply bind_Ok in H as (bn & w2 & _ & H).
  apply bind_Ok in H as (cb & w3 & _ & H).
  apply bind_Ok in H as (c & w4 & Hc & H). apply deref_Ok in Hc as [Hc ->].
  apply ret_Ok in H as [<- <-]. cbn. eauto.
Qed.


Lemma tabu_step_current_is_tabu maxlen nsize st w st' w' :
  (1 <= maxlen)%nat ->
  tabu_step f maxlen nsize st w = Ok st' w' ->
  current_is_tabu w' st'.
Proof.
  intros Hm H. apply tabu_step_Ok in H as (c & Hc & Ht).
  exists c. split; [exact Hc |].
  assert (last (tabu_list st') = Some (chromosome c))
    by (rewrite Ht; now apply deque_append_last).
  split; [assumption | now apply last_Some_elem_of].
Qed.

Lemma tabu_loop_run maxlen nsize n : forall st w st' w',
  tabu_loop f maxlen nsize n st w = Ok st' w' ->
  exists tr, tabu_run f maxlen nsize n st w tr st' w'.
Proof.
  induction n as [|n IH]; intros st w st' w' H; cbn in H.
  - apply ret_Ok in H as [<- <-]. exists []. constructor.
  - apply bind_Ok in H as (st1 & w1 & Hs & H).
    destruct (IH _ _ _ _ H) as (tr & Hr). exists (st1 :: tr). econstructor; eauto.
Qed.

Lemma tabu_step_bound maxlen nsize st w st' w' :
  (length (tabu_list st) <= maxlen)%nat ->
  tabu_step f maxlen nsize st w = Ok st' w' ->
  (length (tabu_list st') <= maxlen)%nat.
Proof.
  intros Hb H. apply tabu_step_Ok in H as (c & _ & ->).
  now apply deque_append_length.
Qed.

Lemma tabu_chain_prefix w w' maxlen : forall tr prev,
  heap w `prefix_of` heap w' -> tabu_chain w maxlen prev tr -> tabu_chain w' maxlen prev tr.
Proof.
  induction tr as [|s tr IH]; intros prev Hp; cbn; [auto |].
  intros [(c & Hc & Ht) Hrest]. split; [| now apply IH].
  exists c. split; [eapply prefix_lookup_Some; eauto | exact Ht].
Qed.

Lemma tabu_run_inv maxlen nsize n st w tr st' w' :
  (1 <= maxlen)%nat ->
  tabu_run f maxlen nsize n st w tr st' w' ->
  (length (tabu_list st) <= maxlen)%nat ->
  heap w `prefix_of` heap w' /\
  length tr = n /\
  Forall (current_is_tabu w') tr /\
  Forall (fun s => (length (tabu_list s) <= maxlen)%nat) tr /\
  tabu_chain w' maxlen st tr.
Proof.
  intros Hm. induction 1 as [st w | k st w st1 w1 tr st' w' Hs Hr IH]; intros Hb.
  - split; [reflexivity |]. split; [reflexivity |]. split; [constructor |].
    split; [constructor | exact I].
  - pose proof (tabu_step_bound _ _ _ _ _ _ Hb Hs) as Hb1.
    destruct (IH Hb1) as (Hp & Hlen & Hall & Hbound & Hchain).
    pose proof (grows_Ok _ _ _ _ (grows_tabu_step _ _ _) Hs) as Hp1.
    split; [etransitivity; eauto |]. split; [cbn; congruence |]. split; [| split].
    + constructor; [| exact Hall].
      destruct (tabu_step_current_is_tabu _ _ _ _ _ _ Hm Hs) as (c & Hc & Hl & Hin).
      exists c. split; [| auto]. eapply prefix_lookup_Some; eauto.
    + constructor; assumption.
    + cbn. split; [| exact Hchain].
      apply tabu_step_Ok in Hs as (c & Hc & Ht). exists c.
      split; [eapply prefix_lookup_Some; eauto | exact Ht].
Qed.

Lemma tabu_init_Ok initial size w st0 w0 :
  tabu_init f initial size w = Ok st0 w0 ->
  0 <= size /\
  exists c0, heap w !! initial = Some c0 /\
    heap w0 = <[initial := mkCandidate (chromosome c0) (f (chromosome c0))]> (heap w) /\
    st0 = TabuState initial initial
            (deque_append (Z.to_nat size) [] (chromosome c0)).
Proof.
  intros H. unfold tabu_init in H. apply bind_Ok in H as ([] & w1 & Hcalc & H).
  destruct (heap w !! initial) as [c0|] eqn:Hc0.
  2:{ rewrite (calculate_fitness_dangling _ _ _ Hc0) in Hcalc. discriminate. }
  rewrite (calculate_fitness_eq _ f _ _ Hc0) in Hcalc. injection Hcalc as <-.
  destruct (Z.ltb_spec size 0); [discriminate |]. split; [assumption |].
  apply bind_Ok in H as (c & w2 & Hc & H). apply deref_Ok in Hc as [Hc ->].
  apply ret_Ok in H as [<- <-]. cbn [heap] in *.
  rewrite list_lookup_insert_eq in Hc by (eapply lookup_lt_Some; eauto).
  injection Hc as <-. exists c0. auto.
Qed.

Lemma scan_neighborhood_member tabu best nbh : forall acc w r w',
  scan_neighborhood tabu best nbh acc w = Ok (Some r) w' ->
  r ∈ nbh \/ acc = Some r.
Proof.
  induction nbh as [|x nbh IH]; intros acc w r w' H; cbn in H.
  - apply ret_Ok in H as [-> _]. now right.
  - apply bind_Ok in H as (n & w1 & _ & H).
    apply bind_Ok in H as (b & w2 & _ & H).
    assert (Hx : forall w3, scan_neighborhood tabu best nbh (Some x) w3 = Ok (Some r) w' ->
                       r ∈ x :: nbh).
    { intros w3 H3. destruct (IH _ _ _ _ H3) as [Hin | [= ->]];
        [now apply list_elem_of_further | apply list_elem_of_here]. }
    assert (Hacc : forall w3, scan_neighborhood tabu best nbh acc w3 = Ok (Some r) w' ->
                       r ∈ x :: nbh \/ acc = Some r).
    { intros w3 H3. destruct (IH _ _ _ _ H3) as [Hin | ->];
        [left; now apply list_elem_of_further | now right]. }
    destruct (admissible tabu b n).
    + destruct acc as [bn|].
      * apply bind_Ok in H as (bnc & w3 & _ & H).
        destruct (Qltb _ _); [left |]; eauto.
      * left; eauto.
    + eauto.
Qed.
End TabuFacts.

(** C4 (amended).  With a tabu memory of at least one slot, the chromosome
    of the current candidate is the newest entry of the memory at loop entry
    and at the end of every iteration; the memory never holds more than
    [tabu_list_size] entries and is pushed once per iteration, dropping the
    oldest entry when full; and a tabu neighbour is picked as
    [best_neighbor] only if it is strictly fitter than the best candidate. *)
Theorem tabu_search_memory (f : list Z -> Q) (initial : ref)
    (tabu_list_size max_iterations neighborhood_size : Z)
    (w : world Z) (r : ref) (w' : world Z) :
  1 <= tabu_list_size ->
  tabu_search f initial tabu_list_size max_iterations neighborhood_size w = Ok r w' ->
  let maxlen := Z.to_nat tabu_list_size in
  (exists st0 w0 tr st',
     tabu_init f initial tabu_list_size w = Ok st0 w0 /\
     tabu_run f maxlen (Z.to_nat neighborhood_size) (Z.to_nat max_iterations)
       st0 w0 tr st' w' /\
     r = best_candidate st' /\
     Forall (current_is_tabu w') (st0 :: tr) /\
     Forall (fun s => (length (tabu_list s) <= maxlen)%nat) (st0 :: tr) /\
     tabu_chain w' maxlen st0 tr) /\
  (forall (q : list (list Z)) x,
     ((length q < maxlen)%nat -> deque_append maxlen q x = q ++ [x]) /\
     (length q = maxlen -> deque_append maxlen q x = drop 1 q ++ [x])) /\
  (forall tabu best nbh w1 bn w2,
     scan_neighborhood tabu best nbh None w1 = Ok (Some bn) w2 ->
     bn ∈ nbh /\
     exists n b, heap w1 !! bn = Some n /\ heap w1 !! best = Some b /\
                 (chromosome n ∈ tabu -> (fitness b < fitness n)%Q)).
Proof.
  intros Hsize H maxlen. split; [| split].
  - unfold tabu_search in H.
    apply bind_Ok in H as (st0 & w0 & Hinit & H).
    apply bind_Ok in H as (st' & w2 & Hloop & H).
    apply ret_Ok in H as [<- <-].
    destruct (tabu_loop_run _ _ _ _ _ _ _ _ Hloop) as (tr & Hrun).
    pose proof (tabu_init_Ok _ _ _ _ _ _ Hinit) as (_ & c0 & Hc0 & Hw0 & Hst0).
    assert (Hm : (1 <= maxlen)%nat) by (unfold maxlen; lia).
    assert (Hb0 : (length (tabu_list st0) <= maxlen)%nat).
    { rewrite Hst0. cbn [tabu_list]. now apply deque_append_length; cbn; lia. }
    destruct (tabu_run_inv _ _ _ _ _ _ _ _ _ Hm Hrun Hb0)
      as (Hp & _ & Hall & Hbound & Hchain).
    exists st0, w0, tr, st'. split_and!; auto.
    constructor; [| exact Hall].
    exists (mkCandidate (chromosome c0) (f (chromosome c0))).
    rewrite Hst0. cbn [current_candidate tabu_list chromosome]. split; [| split].
    + eapply prefix_lookup_Some; [| exact Hp]. rewrite Hw0.
      apply list_lookup_insert_eq. eapply lookup_lt_Some; eauto.
    + now apply deque_append_last.
    + apply last_Some_elem_of. now apply deque_append_last.
  - intros q x. split.
    + apply deque_append_below.
    + intros Hq. rewrite deque_append_full by lia.
      destruct q as [|y q]; [cbn in Hq; unfold maxlen in *; lia | reflexivity].
  - intros tabu best nbh w1 bn w2 Hscan. split.
    + destruct (scan_neighborhood_member _ _ _ _ _ _ _ Hscan) as [Hin | [=]]. exact Hin.
    + destruct (scan_neighborhood_admitted _ _ _ _ _ _ _ Hscan) as (n & b & Hn & Hb & Ha);
        [discriminate |].
      exists n, b. split_and!; auto. now apply admissible_aspiration.
Qed.

(** *** Concrete runs of the drivers *)

Lemma simulated_annealing_best_dominates_witness :
  exists r w',
    simulated_annealing exp_approx sum_fitness (1 # 2) (1 # 4) 10 0%nat 1
      (demo_world [1; 2; 3] [0; 9; 5; 1; 0; 3]%N) = Ok r w' /\
    exists w1 tr st',
      calculate_fitness 0%nat sum_fitness (demo_world [1; 2; 3] [0; 9; 5; 1; 0; 3]%N)
        = Ok tt w1 /\
      sa_run exp_approx sum_fitness (1 # 2) (1 # 4) (SAState 0%nat 0%nat 1) w1 tr st' w' /\
      r = sa_best st' /\
      Forall (sa_dominated w' st') tr /\
      sa_best_monotone w' tr.
Proof.
  destruct (simulated_annealing exp_approx sum_fitness (1 # 2) (1 # 4) 10 0%nat 1
              (demo_world [1; 2; 3] [0; 9; 5; 1; 0; 3]%N)) as [r w'| |] eqn:E.
  - exists r, w'. split; [reflexivity |].
    exact (simulated_annealing_best_dominates _ _ _ _ _ _ _ _ _ _ E).
  - vm_compute in E. discriminate.
  - vm_compute in E. discriminate.
Defined.

Lemma tabu_search_memory_witness :
  exists r w',
    tabu_search sum_fitness 0%nat 2 3 2
      (demo_world [1; 2; 3] [0; 9; 1; 1; 2; 7; 0; 0; 1; 8; 2; 2; 0; 5]%N) = Ok r w' /\
    exists st0 w0 tr st',
      tabu_init sum_fitness 0%nat 2
        (demo_world [1; 2; 3] [0; 9; 1; 1; 2; 7; 0; 0; 1; 8; 2; 2; 0; 5]%N) = Ok st0 w0 /\
      tabu_run sum_fitness 2 2 3 st0 w0 tr st' w' /\
      r = best_candidate st' /\
      Forall (current_is_tabu w') (st0 :: tr) /\
      Forall (fun s => (length (tabu_list s) <= 2)%nat) (st0 :: tr) /\
      tabu_chain w' 2 st0 tr.
Proof.
  destruct (tabu_search sum_fitness 0%nat 2 3 2
              (demo_world [1; 2; 3] [0; 9; 1; 1; 2; 7; 0; 0; 1; 8; 2; 2; 0; 5]%N))
    as [r w'| |] eqn:E.
  - exists r, w'. split; [reflexivity |].
    exact (proj1 (tabu_search_memory sum_fitness 0%nat 2 3 2 _ r w' ltac:(lia) E)).
  - vm_compute in E. discriminate.
  - vm_compute in E. discriminate.
Defined.

(** With [tabu_list_size = 0] the deque drops every entry it is given: after
    an iteration the tabu memory is empty, so the chromosome of the current
    candidate is not in it. *)
Lemma tabu_memory_empty_when_size_zero :
  exists st0 w0 st' w',
    tabu_init sum_fitness 0%nat 0 (demo_world [1; 2; 3] [0; 9]%N) = Ok st0 w0 /\
    tabu_step sum_fitness (Z.to_nat 0) 1 st0 w0 = Ok st' w' /\
    tabu_list st' = [] /\
    ~ current_is_tabu w' st'.
Proof.
  destruct (tabu_init sum_fitness 0%nat 0 (demo_world [1; 2; 3] [0; 9]%N))
    as [st0 w0| |] eqn:E0; [| vm_compute in E0; discriminate ..].
  destruct (tabu_step sum_fitness (Z.to_nat 0) 1 st0 w0)
    as [st' w'| |] eqn:E1.
  - exists st0, w0, st', w'. split; [reflexivity |]. split; [exact E1 |].
    apply tabu_step_Ok in E1 as (c & Hc & Ht).
    apply tabu_init_Ok in E0 as (_ & c0 & _ & _ & ->).
    cbn in Ht. split; [exact Ht |].
    intros (c1 & _ & Hl & _). rewrite Ht in Hl. discriminate.
  - exfalso. vm_compute in E0. injection E0 as <- <-. vm_compute in E1. discriminate.
  - exfalso. vm_compute in E0. injection E0 as <- <-. vm_compute in E1. discriminate.
Qed.

(* ===================================================================== *)
(** ** The drivers write one field of one object *)
(* ===================================================================== *)


Lemma evaluate_then_grow {A} (f : list Z -> Q) (candidate : ref) (rest : M Z A)
    (w w' : world Z) (c0 : Candidate Z) :
  heap w !! candidate = Some c0 ->
  grows rest ->
  final_world (bind (calculate_fitness candidate f) (fun _ => rest) w) = Some w' ->
  evaluates_input_only f candidate w w'.
Proof.
  intros Hc0 Hrest H.
  pose proof (calculate_fitness_eq _ f _ _ Hc0) as Hcalc.
  rewrite (bind_of_Ok _ _ _ _ _ Hcalc) in H. apply Hrest in H. cbn [heap] in H.
  eexists c0, _. split; [exact Hc0 |]. split; [exact Hcalc |]. cbn [heap].
  split; [reflexivity |]. split; [exact H |]. split.
  - eapply prefix_lookup_Some; [| exact H].
    apply list_lookup_insert_eq. eapply lookup_lt_Some; eauto.
  - intros r c Hr Hc. eapply prefix_lookup_Some; [| exact H].
    rewrite list_lookup_insert_ne by congruence. exact Hc.
Qed.

Lemma bind_assoc {G A B C} (m : M G A) (k : A -> M G B) (k' : B -> M G C) w :
  bind (bind m k) k' w = bind m (fun a => bind (k a) k') w.
Proof. unfold bind. now destruct (m w). Qed.

Lemma grows_hill_loop f n candidate : grows (hill_loop f n candidate).
Proof. intros w w'. apply hill_loop_final. Qed.

Lemma grows_sa_accept math_exp diff T : grows (sa_accept math_exp diff T).
Proof. intros w w' H. now rewrite (sa_accept_final _ _ _ _ _ H). Qed.

Lemma grows_sa_step math_exp f cooling_rate st : grows (sa_step math_exp f cooling_rate st).
Proof. unfold sa_step. effects. apply grows_sa_accept. Qed.

Lemma grows_sa_loop math_exp f cooling_rate min_temperature fuel : forall st,
  grows (sa_loop math_exp f cooling_rate min_temperature fuel st).
Proof.
  induction fuel as [|fuel IH]; intros st; cbn;
    destruct (Qltb min_temperature (sa_temperature st)); try apply grows_ret.
  - intros w w' [=].
  - apply grows_bind; [apply grows_sa_step | intros; apply IH].
Qed.

(** C9.  Whatever way [hill_climb], [simulated_annealing] and [tabu_search]
    come back (a value or an exception), they have overwritten the fitness
    field of the input object with the objective's value, before any
    searching, and nothing else the caller held: its chromosome and every
    other object are untouched. *)
Theorem drivers_evaluate_input_in_place (f : list Z -> Q) (candidate : ref)
    (c0 : Candidate Z) (w w' : world Z) :
  heap w !! candidate = Some c0 ->
  (forall max_iterations,
     final_world (hill_climb candidate f max_iterations w) = Some w' ->
     evaluates_input_only f candidate w w') /\
  (forall math_exp cooling_rate min_temperature fuel initial_temperature,
     final_world (simulated_annealing math_exp f cooling_rate min_temperature fuel
                    candidate initial_temperature w) = Some w' ->
     evaluates_input_only f candidate w w') /\
  (forall tabu_list_size max_iterations neighborhood_size,
     final_world (tabu_search f candidate tabu_list_size max_iterations
                    neighborhood_size w) = Some w' ->
     evaluates_input_only f candidate w w').
Proof.
  intros Hc0. split; [| split].
  - intros n H. unfold hill_climb in H.
    eapply evaluate_then_grow; [exact Hc0 | | exact H]. apply grows_hill_loop.
  - intros math_exp cr mt fuel T0 H. unfold simulated_annealing in H.
    eapply evaluate_then_grow; [exact Hc0 | | exact H].
    apply grows_bind; [apply grows_sa_loop | intros; apply grows_ret].
  - intros size iters nsize H. unfold tabu_search, tabu_init in H.
    rewrite bind_assoc in H.
    eapply evaluate_then_grow; [exact Hc0 | | exact H].
    apply grows_bind.
    + destruct (size <? 0); effects.
    + intros st. apply grows_bind; [apply grows_tabu_loop | intros; apply grows_ret].
Qed.

Lemma drivers_evaluate_input_in_place_witness :
  exists w',
    final_world (hill_climb 0%nat sum_fitness 3
                   (demo_world [1; 2; 3; 4; 5] [0; 7; 1; 0; 2; 50]%N)) = Some w' /\
    evaluates_input_only sum_fitness 0%nat
      (demo_world [1; 2; 3; 4; 5] [0; 7; 1; 0; 2; 50]%N) w'.
Proof.
  destruct (final_world (hill_climb 0%nat sum_fitness 3
              (demo_world [1; 2; 3; 4; 5] [0; 7; 1; 0; 2; 50]%N))) as [w'|] eqn:E.
  - exists w'. split; [reflexivity |].
    exact (proj1 (drivers_evaluate_input_in_place sum_fitness 0%nat
                    (mkCandidate [1; 2; 3; 4; 5] 0%Q)
                    (demo_world [1; 2; 3; 4; 5] [0; 7; 1; 0; 2; 50]%N) w' eq_refl) 3 E).
  - vm_compute in E. discriminate.
Defined.

(* ===================================================================== *)
(** ** Selection operators *)
(* ===================================================================== *)

(** *** Distinct parents *)

Lemma resample_distinct {G P} `{EqDecision P} (select_one : M G P) fuel :
  forall (parent1 parent2 p : P) w w',
    resample fuel select_one parent1 parent2 w = Ok p w' -> p <> parent1.
Proof.
  induction fuel as [|fuel IH]; intros parent1 parent2 p w w' H; cbn in H;
    destruct (bool_decide_reflect (parent2 = parent1)) as [He|Hne].
  - discriminate.
  - apply ret_Ok in H as [<- _]. exact Hne.
  - apply bind_Ok in H as (q & w1 & _ & H). eapply IH; eauto.
  - apply ret_Ok in H as [<- _]. exact Hne.
Qed.

(** C1 (amended).  Roulette-wheel and truncation selection, when they
    return, return two different objects: [parent2] is re-drawn until
    [parent2 == parent1] fails, and that comparison is identity, so two
    parents may still carry equal chromosomes.  Rank-based, tournament,
    stochastic universal sampling and elitism selection have no such loop
    and can return one candidate twice. *)
Theorem selection_distinct_parents :
  (forall G fuel generation (w : world G) parent1 parent2 w',
     roulette_wheel_selection fuel generation w = Ok (parent1, parent2) w' ->
     parent1 <> parent2) /\
  (forall G fuel generation truncation_percentage (w : world G) parent1 parent2 w',
     truncation_selection fuel generation truncation_percentage w
       = Ok (parent1, parent2) w' ->
     parent1 <> parent2) /\
  value_of (roulette_wheel_selection 5 [0; 1]%nat
              (population_world [mkCandidate [7] 1%Q; mkCandidate [7] 1%Q]
                 [0; 0; 2 ^ 52]%N))
    = Some (Some 0%nat, Some 1%nat) /\
  value_of (rank_based_selection [0; 1]%nat
              (population_world (with_fitness [1; 2]%Q) [0; 0]%N))
    = Some (Some 0%nat, Some 0%nat) /\
  value_of (tournament_selection [0; 1; 2]%nat 3
              (population_world (with_fitness [1; 2; 3]%Q) [0; 0]%N))
    = Some (2%nat, 2%nat) /\
  value_of (stochastic_universal_sampling [0; 1]%nat 2
              (population_world (with_fitness [10; 1]%Q) [0]%N))
    = Some (0%nat, 0%nat) /\
  value_of (elitism_selection [0; 1; 2]%nat (1 # 10)
              (population_world (with_fitness [1; 2; 3]%Q) [0; 0]%N))
    = Some (2%nat, 2%nat).
Proof.
  split.
  { intros G fuel generation w parent1 parent2 w' H.
    unfold roulette_wheel_selection in H.
    apply bind_Ok in H as (total & w1 & _ & H).
    apply bind_Ok in H as (p1 & w2 & _ & H).
    apply bind_Ok in H as (p2 & w3 & _ & H).
    apply bind_Ok in H as (p & w4 & Hr & H).
    apply ret_Ok in H as [[= <- <-] _].
    apply resample_distinct in Hr. congruence. }
  split.
  { intros G fuel generation pct w parent1 parent2 w' H.
    unfold truncation_selection in H.
    apply bind_Ok in H as (sorted & w1 & _ & H).
    apply bind_Ok in H as (p1 & w2 & _ & H).
    apply bind_Ok in H as (p2 & w3 & _ & H).
    apply bind_Ok in H as (p & w4 & Hr & H).
    apply ret_Ok in H as [[= <- <-] _].
    apply resample_distinct in Hr. congruence. }
  split_and!; vm_compute; reflexivity.
Qed.

Lemma selection_distinct_parents_witness :
  exists parent1 parent2 w',
    truncation_selection 5 [0; 1; 2; 3]%nat (1 # 2)
      (population_world (with_fitness [1; 2; 3; 4]%Q) [0; 0; 1]%N)
      = Ok (parent1, parent2) w' /\
    parent1 <> parent2.
Proof.
  destruct (truncation_selection 5 [0; 1; 2; 3]%nat (1 # 2)
              (population_world (with_fitness [1; 2; 3; 4]%Q) [0; 0; 1]%N))
    as [[parent1 parent2] w'| |] eqn:E.
  - exists parent1, parent2, w'. split; [reflexivity |].
    exact (proj1 (proj2 selection_distinct_parents) _ _ _ _ _ _ _ _ E).
  - vm_compute in E. discriminate.
  - vm_compute in E. discriminate.
Defined.

(** The claim as the spec words it fails: rank-based selection can return
    one candidate as both parents. *)
Lemma rank_based_selection_repeats_parent :
  exists parent w',
    rank_based_selection [0; 1]%nat
      (population_world (with_fitness [1; 2]%Q) [0; 0]%N)
      = Ok (Some parent, Some parent) w'.
Proof.
  destruct (rank_based_selection [0; 1]%nat
              (population_world (with_fitness [1; 2]%Q) [0; 0]%N))
    as [[p1 p2] w'| |] eqn:E; [| vm_compute in E; discriminate ..].
  exists 0%nat, w'. vm_compute in E. injection E as <- <- _. reflexivity.
Qed.

(** *** Facts about the library functions *)

Lemma random_unit_range d : (0 <= random_unit d)%Q /\ (random_unit d < 1)%Q.
Proof.
  unfold random_unit, Qle, Qlt. cbn [Qnum Qden].
  pose proof (Z.mod_pos_bound (Z.of_N d) (2 ^ 53) ltac:(lia)) as Hb.
  change (Z.pos (2 ^ 53)) with (2 ^ 53). lia.
Qed.

Section SelectionFacts.
Context {G : Type}.
Implicit Types (w : world G) (generation : list ref).

Lemma random_uniform_eq a b w :
  @random_uniform G a b w =
    Ok (a + (b - a) * random_unit (draws w (cursor w)))%Q (advance w).
Proof. reflexivity. Qed.

Lemma all_fitness_advance P w generation :
  all_fitness P w generation -> all_fitness P (advance w) generation.
Proof. exact id. Qed.

Lemma sum_fitness_from_eq (P : Q -> Prop) generation : forall acc w,
  all_fitness P w generation ->
  exists total, sum_fitness_from acc generation w = Ok total w.
Proof.
  induction generation as [|r generation IH]; intros acc w Hall; cbn.
  - eexists; reflexivity.
  - inversion Hall as [|? ? (c & Hc & _) Hrest]; subst.
    rewrite (bind_of_Ok _ _ _ _ _ (deref_of_lookup _ _ _ Hc)). now apply IH.
Qed.

Lemma sum_fitness_from_zero generation : forall acc w total w',
  all_fitness (fun q => q == 0)%Q w generation ->
  sum_fitness_from acc generation w = Ok total w' ->
  (total == acc)%Q /\ w' = w.
Proof.
  induction generation as [|r generation IH]; intros acc w total w' Hall H; cbn in H.
  - apply ret_Ok in H as [<- <-]. split; reflexivity.
  - inversion Hall as [|? ? (c & Hc & Hz) Hrest]; subst.
    rewrite (bind_of_Ok _ _ _ _ _ (deref_of_lookup _ _ _ Hc)) in H.
    destruct (IH _ _ _ _ Hrest H) as [Ht ->]. split; [| reflexivity].
    rewrite Ht, Hz. lra.
Qed.

(** *** Roulette wheel on an all-zero population *)

Lemma roulette_walk_zero generation : forall pick current w,
  all_fitness (fun q => q == 0)%Q w generation ->
  (current <= pick)%Q ->
  roulette_walk pick current generation w = Ok None w.
Proof.
  induction generation as [|r generation IH]; intros pick current w Hall Hle; cbn.
  - reflexivity.
  - inversion Hall as [|? ? (c & Hc & Hz) Hrest]; subst.
    rewrite (bind_of_Ok _ _ _ _ _ (deref_of_lookup _ _ _ Hc)).
    assert (Hle' : (current + fitness c <= pick)%Q) by (rewrite Hz; lra).
    rewrite (proj2 (Qltb_ge _ _) Hle'). now apply IH.
Qed.

Lemma roulette_select_one_zero total generation w :
  all_fitness (fun q => q == 0)%Q w generation ->
  (total == 0)%Q ->
  roulette_select_one total generation w = Ok None (advance w).
Proof.
  intros Hall Ht. unfold roulette_select_one.
  rewrite (bind_of_Ok _ _ _ _ _ (random_uniform_eq _ _ _)).
  apply roulette_walk_zero; [exact Hall |]. rewrite Ht. lra.
Qed.

Lemma resample_None_forever total generation fuel : forall w,
  all_fitness (fun q => q == 0)%Q w generation ->
  (total == 0)%Q ->
  resample fuel (roulette_select_one total generation) None None w = OutOfFuel.
Proof.
  induction fuel as [|fuel IH]; intros w Hall Ht; cbn [resample];
    rewrite bool_decide_eq_true_2 by reflexivity; [reflexivity |].
  rewrite (bind_of_Ok _ _ _ _ _ (roulette_select_one_zero _ _ _ Hall Ht)).
  now apply IH.
Qed.

Lemma roulette_zero_never_returns fuel generation w :
  all_fitness (fun q => q == 0)%Q w generation ->
  roulette_wheel_selection fuel generation w = OutOfFuel.
Proof.
  intros Hall. unfold roulette_wheel_selection.
  destruct (sum_fitness_from_eq _ generation 0%Q w Hall) as (total & Hsum).
  destruct (sum_fitness_from_zero _ _ _ _ _ Hall Hsum) as [Ht _].
  rewrite (bind_of_Ok _ _ _ _ _ Hsum). cbv beta zeta.
  erewrite bind_of_Ok by (apply roulette_select_one_zero; assumption).
  erewrite bind_of_Ok by (apply roulette_select_one_zero; assumption).
  unfold bind at 1. now rewrite resample_None_forever.
Qed.

(** *** Sorting by fitness *)

Lemma keyed_eq generation : forall w,
  all_fitness (fun _ => True) w generation ->
  exists ks, keyed generation w = Ok ks w /\ map snd ks = generation.
Proof.
  induction generation as [|r generation IH]; intros w Hall; cbn.
  - exists []. split; reflexivity.
  - inversion Hall as [|? ? (c & Hc & _) Hrest]; subst.
    rewrite (bind_of_Ok _ _ _ _ _ (deref_of_lookup _ _ _ Hc)).
    destruct (IH _ Hrest) as (ks & Hks & Hmap).
    rewrite (bind_of_Ok _ _ _ _ _ Hks). exists ((fitness c, r) :: ks).
    split; [reflexivity | cbn; now rewrite Hmap].
Qed.

Lemma insert_by_perm before (x : Q * ref) l : insert_by before x l ≡ₚ x :: l.
Proof.
  induction l as [|y l IH]; cbn; [reflexivity |].
  destruct (before (fst x) (fst y)); [reflexivity |].
  rewrite IH. apply Permutation_swap.
Qed.

Lemma sort_perm before (ks : list (Q * ref)) : foldr (insert_by before) [] ks ≡ₚ ks.
Proof.
  induction ks as [|k ks IH]; cbn; [reflexivity |].
  rewrite insert_by_perm. now rewrite IH.
Qed.

Lemma sorted_by_fitness_eq reverse generation w :
  all_fitness (fun _ => True) w generation ->
  exists sorted, sorted_by_fitness reverse generation w = Ok sorted w /\
                 sorted ≡ₚ generation.
Proof.
  intros Hall. unfold sorted_by_fitness.
  destruct (keyed_eq _ _ Hall) as (ks & Hks & Hmap).
  rewrite (bind_of_Ok _ _ _ _ _ Hks). eexists. split; [reflexivity |].
  rewrite <- Hmap. apply fmap_Permutation, sort_perm.
Qed.

(** *** Rank-based selection never looks at the fitness total *)

Lemma ranks_from_S i n : ranks_from i (S n) = Z.of_nat i + 1 + ranks_from (S i) n.
Proof. reflexivity. Qed.

Lemma ranks_from_pos i n : (0 < n)%nat -> 0 < ranks_from i n.
Proof.
  revert i. induction n as [|n IH]; intros i Hn; [lia |].
  rewrite ranks_from_S. destruct n as [|n]; [cbn; lia |].
  specialize (IH (S i) ltac:(lia)). lia.
Qed.

Lemma rank_walk_finds (ranked : list ref) : forall pick current i,
  ranked <> [] ->
  (pick < current + inject_Z (ranks_from i (length ranked)))%Q ->
  exists p, rank_walk pick current i ranked = Some p /\ p ∈ ranked.
Proof.
  induction ranked as [|r ranked IH]; intros pick current i Hne Hlt; [congruence |].
  cbn [rank_walk]. cbn [length] in Hlt. rewrite ranks_from_S, inject_Z_plus in Hlt.
  destruct (Qltb pick (current + inject_Z (Z.of_nat i + 1))) eqn:Hq.
  - exists r. split; [reflexivity | apply list_elem_of_here].
  - apply Qltb_ge in Hq.
    destruct ranked as [|r' ranked].
    + exfalso. cbn in Hlt. change (inject_Z 0) with 0%Q in Hlt. lra.
    + destruct (IH pick (current + inject_Z (Z.of_nat i + 1))%Q (S i)) as (p & Hp & Hin).
      * discriminate.
      * lra.
      * exists p. split; [exact Hp | now apply list_elem_of_further].
Qed.

Lemma uniform_below (T : Q) d : (0 < T)%Q -> (0 + (T - 0) * random_unit d < T)%Q.
Proof. intros HT. destruct (random_unit_range d) as [H0 H1]. nra. Qed.

Lemma rank_select_one_finds ranked w :
  ranked <> [] ->
  exists p, rank_select_one (sum_range_1 (length ranked)) ranked w = Ok (Some p) (advance w) /\
            p ∈ ranked.
Proof.
  intros Hne. unfold rank_select_one.
  rewrite (bind_of_Ok _ _ _ _ _ (random_uniform_eq _ _ _)).
  destruct (rank_walk_finds ranked
              (0 + (inject_Z (sum_range_1 (length ranked)) - 0)
                   * random_unit (draws w (cursor w)))%Q 0%Q 0%nat Hne) as (p & Hp & Hin).
  - change (sum_range_1 (length ranked)) with (ranks_from 0 (length ranked)).
    assert (0 < ranks_from 0 (length ranked)).
    { apply ranks_from_pos. destruct ranked; [congruence | cbn; lia]. }
    assert (0 < inject_Z (ranks_from 0 (length ranked)))%Q.
    { change 0%Q with (inject_Z 0). now rewrite <- Zlt_Qlt. }
    pose proof (uniform_below _ (draws w (cursor w)) H0). lra.
  - exists p. split; [| exact Hin]. unfold ret. now rewrite Hp.
Qed.

Lemma rank_based_selection_total generation w :
  generation <> [] ->
  all_fitness (fun _ => True) w generation ->
  exists parent1 parent2,
    rank_based_selection generation w
      = Ok (Some parent1, Some parent2) (advance (advance w)) /\
    parent1 ∈ generation /\ parent2 ∈ generation.
Proof.
  intros Hne Hall. unfold rank_based_selection.
  destruct (sorted_by_fitness_eq false _ _ Hall) as (ranked & Hs & Hperm).
  rewrite (bind_of_Ok _ _ _ _ _ Hs).
  assert (Hne' : ranked <> []).
  { intros ->. apply Permutation_nil_l in Hperm. congruence. }
  destruct (rank_select_one_finds ranked w Hne') as (p1 & H1 & Hin1).
  destruct (rank_select_one_finds ranked (advance w) Hne') as (p2 & H2 & Hin2).
  rewrite (bind_of_Ok _ _ _ _ _ H1), (bind_of_Ok _ _ _ _ _ H2).
  exists p1, p2. split; [reflexivity |]. now rewrite <- !Hperm.
Qed.

(** *** Stochastic universal sampling *)

Lemma sus_collect_length room candidate cumulative spacing : forall point parents,
  (length parents <= length (fst (sus_collect room candidate cumulative spacing point parents))
   <= length parents + room)%nat.
Proof.
  induction room as [|room IH]; intros point parents; cbn; [lia |].
  destruct (Qltb point cumulative); cbn; [| lia].
  specialize (IH (point + spacing)%Q (parents ++ [candidate])).
  rewrite length_app in IH. cbn in IH. lia.
Qed.

Lemma sus_collect_idle room candidate cumulative spacing point parents :
  (cumulative <= point)%Q ->
  sus_collect room candidate cumulative spacing point parents = (parents, point).
Proof.
  intros Hle. destruct room as [|room]; cbn; [reflexivity |].
  now rewrite (proj2 (Qltb_ge _ _) Hle).
Qed.

Lemma sus_walk_bound num_parents spacing generation : forall cumulative point parents w ps w',
  (Z.of_nat (length parents) <= Z.max 0 num_parents) ->
  sus_walk num_parents spacing generation cumulative point parents w = Ok ps w' ->
  (Z.of_nat (length ps) <= Z.max 0 num_parents) /\ w' = w.
Proof.
  induction generation as [|r generation IH];
    intros cumulative point parents w ps w' Hb H; cbn in H.
  - apply ret_Ok in H as [<- <-]. auto.
  - apply bind_Ok in H as (c & w1 & Hc & H). apply deref_Ok in Hc as [Hc ->].
    pose proof (sus_collect_length (Z.to_nat (num_parents - Z.of_nat (length parents)))
                  r (cumulative + fitness c)%Q spacing point parents) as Hlen.
    destruct (sus_collect _ _ _ _ _ _) as [parents' point']. cbn [fst] in Hlen.
    eapply IH; [| exact H]. lia.
Qed.

Lemma sus_walk_zero num_parents spacing generation : forall cumulative point parents w,
  all_fitness (fun q => q == 0)%Q w generation ->
  (cumulative <= point)%Q ->
  sus_walk num_parents spacing generation cumulative point parents w = Ok parents w.
Proof.
  induction generation as [|r generation IH]; intros cumulative point parents w Hall Hle; cbn.
  - reflexivity.
  - inversion Hall as [|? ? (c & Hc & Hz) Hrest]; subst.
    rewrite (bind_of_Ok _ _ _ _ _ (deref_of_lookup _ _ _ Hc)).
    assert (Hle' : (cumulative + fitness c <= point)%Q) by (rewrite Hz; lra).
    rewrite (sus_collect_idle _ _ _ _ _ _ Hle'). now apply IH.
Qed.

Lemma sus_zero_IndexError generation num_parents w :
  num_parents <> 0 ->
  all_fitness (fun q => q == 0)%Q w generation ->
  stochastic_universal_sampling generation num_parents w = Raise IndexError (advance w).
Proof.
  intros Hn Hall. unfold stochastic_universal_sampling, sus_parents.
  destruct (sum_fitness_from_eq _ generation 0%Q w Hall) as (total & Hsum).
  destruct (sum_fitness_from_zero _ _ _ _ _ Hall Hsum) as [Ht _].
  rewrite bind_assoc. rewrite (bind_of_Ok _ _ _ _ _ Hsum).
  destruct (Z.eqb_spec num_parents 0); [contradiction |].
  rewrite bind_assoc. rewrite (bind_of_Ok _ _ _ _ _ (random_uniform_eq _ _ _)).
  erewrite bind_of_Ok.
  2:{ apply sus_walk_zero; [exact Hall |]. rewrite Ht.
      assert (H0 : (0 / inject_Z num_parents == 0)%Q) by (unfold Qdiv; ring).
      rewrite H0. cbn [advance draws cursor].
      destruct (random_unit_range (draws w (cursor w))). nra. }
  reflexivity.
Qed.

Lemma sus_parents_bound generation num_parents w ps w' :
  sus_parents generation num_parents w = Ok ps w' ->
  Z.of_nat (length ps) <= Z.max 0 num_parents.
Proof.
  intros H. unfold sus_parents in H.
  apply bind_Ok in H as (total & w1 & _ & H).
  destruct (num_parents =? 0); [discriminate |].
  apply bind_Ok in H as (start & w2 & _ & H).
  apply sus_walk_bound in H as [H _]; [exact H | cbn; lia].
Qed.

Lemma sus_returns_first_two generation num_parents w p0 p1 w' :
  stochastic_universal_sampling generation num_parents w = Ok (p0, p1) w' <->
  exists rest, sus_parents generation num_parents w = Ok (p0 :: p1 :: rest) w'.
Proof.
  unfold stochastic_universal_sampling. split.
  - intros H. apply bind_Ok in H as (ps & w1 & Hps & H).
    destruct ps as [|q0 [|q1 rest]]; try discriminate.
    apply ret_Ok in H as [[= <- <-] <-]. eauto.
  - intros (rest & H). now rewrite (bind_of_Ok _ _ _ _ _ H).
Qed.

End SelectionFacts.

(** C5 (amended).  No selection operator checks the total fitness.
    Rank-based selection weighs by rank only and returns two parents of any
    non-empty population, whatever its fitness values; roulette-wheel
    selection on an all-zero population raises nothing and never returns
    ([select_one] yields [None] each time and the re-draw loop spins);
    stochastic universal sampling on an all-zero population raises
    [IndexError] from [parents[0]] on the empty list; and with a negative
    total both can hand back a result without any error. *)
Theorem degenerate_fitness_is_not_checked :
  (forall G (w : world G) generation,
     generation <> [] -> all_fitness (fun _ => True) w generation ->
     exists parent1 parent2 w',
       rank_based_selection generation w = Ok (Some parent1, Some parent2) w' /\
       parent1 ∈ generation /\ parent2 ∈ generation) /\
  (forall G (w : world G) generation fuel,
     all_fitness (fun q => q == 0)%Q w generation ->
     roulette_wheel_selection fuel generation w = OutOfFuel) /\
  (forall G (w : world G) generation num_parents,
     num_parents <> 0 -> all_fitness (fun q => q == 0)%Q w generation ->
     raised (stochastic_universal_sampling generation num_parents w) = Some IndexError) /\
  value_of (stochastic_universal_sampling [0; 1]%nat 2
              (population_world (with_fitness [1; -2]%Q) [0]%N))
    = Some (0%nat, 0%nat) /\
  value_of (roulette_wheel_selection 5 [0; 1]%nat
              (population_world (with_fitness [-1; -1]%Q) [2 ^ 53 - 1; 0]%N))
    = Some (Some 0%nat, None).
Proof.
  split.
  { intros G w generation Hne Hall.
    destruct (rank_based_selection_total generation w Hne Hall)
      as (p1 & p2 & H & Hin1 & Hin2). eauto 6. }
  split.
  { intros G w generation fuel Hall. now apply roulette_zero_never_returns. }
  split.
  { intros G w generation num_parents Hn Hall.
    now rewrite sus_zero_IndexError. }
  split; vm_compute; reflexivity.
Qed.

Lemma degenerate_fitness_is_not_checked_witness :
  exists parent1 parent2 w',
    rank_based_selection [0; 1]%nat
      (population_world (with_fitness [0; 0]%Q) [0; 2 ^ 52]%N)
      = Ok (Some parent1, Some parent2) w' /\
    parent1 ∈ [0; 1]%nat /\ parent2 ∈ [0; 1]%nat.
Proof.
  apply (proj1 degenerate_fitness_is_not_checked).
  - discriminate.
  - repeat constructor; eexists; (split; [reflexivity | exact I]).
Defined.

(** The claim as the spec words it fails: on a population whose total
    fitness is zero, rank-based selection raises nothing and returns. *)
Lemma rank_based_selection_accepts_zero_total :
  raised (rank_based_selection [0; 1]%nat
            (population_world (with_fitness [0; 0]%Q) [0; 2 ^ 52]%N)) = None /\
  value_of (rank_based_selection [0; 1]%nat
              (population_world (with_fitness [0; 0]%Q) [0; 2 ^ 52]%N))
    = Some (Some 0%nat, Some 1%nat).
Proof. split; vm_compute; reflexivity. Qed.

(** C6 (amended).  [stochastic_universal_sampling] collects at most
    [num_parents] candidates and returns the first two of them, whatever
    [num_parents] is; it returns exactly when at least two were collected,
    so it can return only for [num_parents >= 2]. *)
Theorem sus_returns_two_parents :
  (forall G (w : world G) generation num_parents ps w',
     sus_parents generation num_parents w = Ok ps w' ->
     Z.of_nat (length ps) <= Z.max 0 num_parents) /\
  (forall G (w : world G) generation num_parents p0 p1 w',
     stochastic_universal_sampling generation num_parents w = Ok (p0, p1) w' <->
     exists rest, sus_parents generation num_parents w = Ok (p0 :: p1 :: rest) w') /\
  (forall G (w : world G) generation num_parents p0 p1 w',
     stochastic_universal_sampling generation num_parents w = Ok (p0, p1) w' ->
     2 <= num_parents).
Proof.
  split_and!.
  - intros G w generation num_parents ps w'. apply sus_parents_bound.
  - intros G w generation num_parents p0 p1 w'. apply sus_returns_first_two.
  - intros G w generation num_parents p0 p1 w' H.
    apply sus_returns_first_two in H as (rest & H).
    apply sus_parents_bound in H. cbn [length] in H. lia.
Qed.

Lemma sus_returns_two_parents_witness :
  exists p0 p1,
    value_of (stochastic_universal_sampling [0; 1; 2; 3]%nat 3
                (population_world (with_fitness [1; 1; 1; 1]%Q) [0]%N))
      = Some (p0, p1) /\
    exists rest w',
      sus_parents [0; 1; 2; 3]%nat 3
        (population_world (with_fitness [1; 1; 1; 1]%Q) [0]%N)
        = Ok (p0 :: p1 :: rest) w' /\
      Z.of_nat (length (p0 :: p1 :: rest)) <= 3.
Proof.
  destruct (stochastic_universal_sampling [0; 1; 2; 3]%nat 3
              (population_world (with_fitness [1; 1; 1; 1]%Q) [0]%N))
    as [[p0 p1] w'| |] eqn:E; [| vm_compute in E; discriminate ..].
  destruct (proj1 (proj1 (proj2 sus_returns_two_parents) _ _ _ _ _ _ _) E)
    as (rest & Hps).
  exists p0, p1. split; [reflexivity |]. exists rest, w'. split; [exact Hps |].
  exact (proj1 sus_returns_two_parents _ _ _ _ _ _ Hps).
Defined.

(** The claim as the spec words it fails away from [num_parents = 2]: asked
    for three parents the function collects three and returns two, and
    asked for one it raises [IndexError]. *)
Lemma sus_does_not_return_num_parents :
  value_of (sus_parents [0; 1; 2; 3]%nat 3
              (population_world (with_fitness [1; 1; 1; 1]%Q) [0]%N))
    = Some [0; 1; 2]%nat /\
  value_of (stochastic_universal_sampling [0; 1; 2; 3]%nat 3
              (population_world (with_fitness [1; 1; 1; 1]%Q) [0]%N))
    = Some (0%nat, 1%nat) /\
  raised (stochastic_universal_sampling [0; 1; 2; 3]%nat 1
            (population_world (with_fitness [1; 1; 1; 1]%Q) [0]%N))
    = Some IndexError.
Proof. split_and!; vm_compute; reflexivity. Qed.

(* ===================================================================== *)
(** ** Facts about the library functions *)
(* ===================================================================== *)

Section KeepsHeap.
Context {G : Type}.

Lemma keeps_heap_ret {A} (a : A) : keeps_heap (@ret G A a).
Proof. intros w b w' [= _ <-]. reflexivity. Qed.

Lemma keeps_heap_raise {A} e : keeps_heap (@raise G A e).
Proof. intros w b w' [=]. Qed.

Lemma keeps_heap_bind {A B} (m : M G A) (k : A -> M G B) :
  keeps_heap m -> (forall a, keeps_heap (k a)) -> keeps_heap (bind m k).
Proof.
  intros Hm Hk w b w' H. apply bind_Ok in H as (a & w1 & Ha & Hb).
  rewrite (Hk _ _ _ _ Hb). now apply (Hm _ _ _ Ha).
Qed.

Lemma keeps_heap_deref r : keeps_heap (@deref G r).
Proof. intros w c w' H. apply deref_Ok in H as [_ ->]. reflexivity. Qed.

Lemma keeps_heap_draw : keeps_heap (@draw G).
Proof. intros w d w' [= _ <-]. reflexivity. Qed.

Lemma keeps_heap_randint a b : keeps_heap (@randint G a b).
Proof.
  unfold randint. destruct (b <? a); [apply keeps_heap_raise |].
  apply keeps_heap_bind; [apply keeps_heap_draw | intros; apply keeps_heap_ret].
Qed.

Lemma keeps_heap_random_random : keeps_heap (@random_random G).
Proof. apply keeps_heap_bind; [apply keeps_heap_draw | intros; apply keeps_heap_ret]. Qed.

Lemma keeps_heap_random_uniform a b : keeps_heap (@random_uniform G a b).
Proof.
  apply keeps_heap_bind; [apply keeps_heap_random_random | intros; apply keeps_heap_ret].
Qed.

Lemma keeps_heap_random_choice {A} (l : list A) : keeps_heap (@random_choice G A l).
Proof.
  destruct l; cbn; [apply keeps_heap_raise |].
  apply keeps_heap_bind; [apply keeps_heap_draw | intros; apply keeps_heap_ret].
Qed.

Lemma keeps_heap_sample_from {A} k : forall pool : list A,
  keeps_heap (@sample_from G A k pool).
Proof.
  induction k as [|k IH]; intros pool; cbn; [apply keeps_heap_ret |].
  apply keeps_heap_bind; [apply keeps_heap_draw | intros d].
  destruct (pool !! _); [| apply keeps_heap_raise].
  apply keeps_heap_bind; [apply IH | intros; apply keeps_heap_ret].
Qed.

Lemma keeps_heap_random_sample {A} (pool : list A) k :
  keeps_heap (@random_sample G A pool k).
Proof.
  unfold random_sample. destruct (_ || _); [apply keeps_heap_raise |].
  apply keeps_heap_sample_from.
Qed.

Lemma keeps_heap_shuffle_from {A} i : forall x : list A,
  keeps_heap (@shuffle_from G A i x).
Proof.
  induction i as [|i IH]; intros x; [apply keeps_heap_ret |].
  cbn [shuffle_from].
  apply keeps_heap_bind; [apply keeps_heap_draw | intros d].
  destruct (x !! S i); [| apply keeps_heap_raise].
  destruct (x !! _); [apply IH | apply keeps_heap_raise].
Qed.

Lemma keeps_heap_random_shuffle {A} (x : list A) : keeps_heap (@random_shuffle G A x).
Proof. apply keeps_heap_shuffle_from. Qed.

Lemma keeps_heap_random_segment n : keeps_heap (@random_segment G n).
Proof.
  unfold random_segment.
  apply keeps_heap_bind; [apply keeps_heap_random_sample | intros picked].
  destruct (sorted_nat picked) as [|a [|b [|c l]]];
    try apply keeps_heap_raise. apply keeps_heap_ret.
Qed.

Lemma keeps_heap_sum_fitness_from generation : forall acc,
  keeps_heap (@sum_fitness_from G acc generation).
Proof.
  induction generation as [|r generation IH]; intros acc; cbn; [apply keeps_heap_ret |].
  apply keeps_heap_bind; [apply keeps_heap_deref | intros; apply IH].
Qed.

(** An operator is its chromosome computation followed by the constructor:
    if the computation keeps the heap, the operator allocates one object. *)
Lemma construct_allocates (body : M G (list G)) w r w' :
  keeps_heap body ->
  bind body (fun chrom => new_Candidate chrom 0%Q) w = Ok r w' ->
  exists chrom w1, body w = Ok chrom w1 /\ allocated w r chrom w'.
Proof.
  intros Hk H. apply bind_Ok in H as (chrom & w1 & Hb & Hn).
  exists chrom, w1. split; [exact Hb |].
  unfold new_Candidate in Hn. injection Hn as <- <-. cbn [heap].
  rewrite (Hk _ _ _ Hb). split; reflexivity.
Qed.
End KeepsHeap.

(** *** Sampling and sorting indices *)

Section Sampling.
Context {G : Type}.

Lemma random_choice_eq {A} (y : A) (l : list A) (w : world G) :
  random_choice (y :: l) w =
    Ok (nth (N.to_nat (draws w (cursor w)) mod length (y :: l)) (y :: l) y) (advance w).
Proof. reflexivity. Qed.

Lemma random_choice_Ok {A} (l : list A) (w : world G) x w' :
  random_choice l w = Ok x w' -> x ∈ l /\ w' = advance w.
Proof.
  destruct l as [|y l]; [discriminate |]. rewrite random_choice_eq.
  pose proof (Nat.mod_upper_bound (N.to_nat (draws w (cursor w))) (length (y :: l))
                ltac:(discriminate)) as Hn.
  set (n := (N.to_nat (draws w (cursor w)) mod length (y :: l))%nat) in *.
  intros H.
  assert (x = nth n (y :: l) y /\ w' = advance w) as [-> ->] by (split; congruence).
  split; [| reflexivity]. apply list_elem_of_In. now apply nth_In.
Qed.

Lemma random_choice_empty {A} (w : world G) :
  @random_choice G A [] w = Raise IndexError w.
Proof. reflexivity. Qed.

Lemma sample_from_Ok {A} k : forall (pool : list A) (w : world G) l w',
  sample_from k pool w = Ok l w' ->
  length l = k /\ l ⊆+ pool.
Proof.
  induction k as [|k IH]; intros pool w l w' H; cbn [sample_from] in H.
  - apply ret_Ok in H as [<- _]. split; [reflexivity | apply submseteq_nil_l].
  - apply bind_Ok in H as (d & w1 & _ & H).
    destruct (pool !! _) as [x|] eqn:Hx; [| discriminate].
    apply bind_Ok in H as (rest & w2 & Hrest & H).
    apply ret_Ok in H as [<- _].
    destruct (IH _ _ _ _ Hrest) as [Hlen Hsub]. split; [cbn; congruence |].
    rewrite (delete_Permutation _ _ _ Hx). now apply submseteq_skip.
Qed.

Lemma random_sample_Ok {A} (pool : list A) k (w : world G) l w' :
  random_sample pool k w = Ok l w' ->
  0 <= k <= Z.of_nat (length pool) /\ length l = Z.to_nat k /\ l ⊆+ pool.
Proof.
  unfold random_sample. destruct (Z.ltb_spec k 0); [discriminate |].
  destruct (Z.ltb_spec (Z.of_nat (length pool)) k); [discriminate |]. cbn [orb].
  intros Hs. apply sample_from_Ok in Hs as [Hl Hs]. split; [lia | auto].
Qed.

Lemma random_sample_too_many {A} (pool : list A) k (w : world G) :
  k < 0 \/ Z.of_nat (length pool) < k ->
  random_sample pool k w = Raise ValueError w.
Proof.
  intros H. unfold random_sample.
  destruct (Z.ltb_spec k 0); [reflexivity |].
  destruct (Z.ltb_spec (Z.of_nat (length pool)) k); [reflexivity | lia].
Qed.

Lemma sample_from_total {A} k : forall (pool : list A) (w : world G),
  (k <= length pool)%nat -> exists l w', sample_from k pool w = Ok l w'.
Proof.
  induction k as [|k IH]; intros pool w Hk; cbn [sample_from].
  - unfold ret. eauto.
  - unfold bind at 1. unfold draw.
    destruct (lookup_lt_is_Some_2 pool
                (N.to_nat (draws w (cursor w)) mod length pool)%nat) as [x Hx].
    { apply Nat.mod_upper_bound. lia. }
    rewrite Hx.
    destruct (IH (delete (N.to_nat (draws w (cursor w)) mod length pool)%nat pool)
                (World (heap w) (draws w) (S (cursor w)))) as (l & w' & Hl).
    { rewrite length_delete by eauto. lia. }
    rewrite (bind_of_Ok _ _ _ _ _ Hl). unfold ret. eauto.
Qed.

Lemma random_sample_total {A} (pool : list A) k (w : world G) :
  0 <= k <= Z.of_nat (length pool) -> exists l w', random_sample pool k w = Ok l w'.
Proof.
  intros Hk. unfold random_sample.
  destruct (Z.ltb_spec k 0); [lia |].
  destruct (Z.ltb_spec (Z.of_nat (length pool)) k); [lia |]. cbn [orb].
  apply sample_from_total. lia.
Qed.
End Sampling.

Lemma insert_nat_perm x l : insert_nat x l ≡ₚ x :: l.
Proof.
  induction l as [|y l IH]; cbn; [reflexivity |].
  destruct (x <=? y)%nat; [reflexivity |]. rewrite IH. apply Permutation_swap.
Qed.

Lemma sorted_nat_perm l : sorted_nat l ≡ₚ l.
Proof.
  induction l as [|x l IH]; cbn; [reflexivity |].
  rewrite insert_nat_perm. now rewrite IH.
Qed.

Lemma ascending_weaken a b l : (a <= b)%nat -> ascending b l -> ascending a l.
Proof. destruct l; cbn; [auto | intros ? [? ?]; split; [lia | auto]]. Qed.

Lemma insert_nat_ascending x : forall l a,
  (a <= x)%nat -> ascending a l -> ascending a (insert_nat x l).
Proof.
  induction l as [|y l IH]; intros a Hax Hl; cbn.
  - auto.
  - destruct Hl as [Hay Hl]. destruct (Nat.leb_spec x y).
    + cbn. auto.
    + cbn. split; [exact Hay |]. apply IH; [lia | exact Hl].
Qed.

Lemma sorted_nat_ascending l : ascending 0 (sorted_nat l).
Proof.
  induction l as [|x l IH]; cbn; [exact I |].
  apply insert_nat_ascending; [lia | exact IH].
Qed.

Lemma submseteq_NoDup {A} (l k : list A) : l ⊆+ k -> NoDup k -> NoDup l.
Proof.
  intros Hsub Hk. apply submseteq_Permutation in Hsub as (k' & Hperm).
  rewrite Hperm in Hk. now apply NoDup_app in Hk as (Hl & _ & _).
Qed.

Lemma sorted_nat_two (picked : list nat) a b :
  sorted_nat picked = [a; b] -> NoDup picked ->
  (a < b)%nat /\ a ∈ picked /\ b ∈ picked.
Proof.
  intros Hs Hnd.
  pose proof (sorted_nat_ascending picked) as Hasc. rewrite Hs in Hasc.
  pose proof (sorted_nat_perm picked) as Hperm. rewrite Hs in Hperm.
  rewrite <- Hperm in Hnd. apply NoDup_cons in Hnd as [Hab _].
  destruct Hasc as (_ & Hle & _).
  assert (a <> b). { intros ->. apply Hab. apply list_elem_of_here. }
  split; [lia |]. rewrite <- Hperm. split; [apply list_elem_of_here |].
  apply list_elem_of_further, list_elem_of_here.
Qed.

Lemma random_segment_Ok {G} (n : nat) (w : world G) start stop w' :
  random_segment n w = Ok (start, stop) w' ->
  (start < stop)%nat /\ (stop < n)%nat.
Proof.
  intros H. unfold random_segment in H.
  apply bind_Ok in H as (picked & w1 & Hpick & H).
  apply random_sample_Ok in Hpick as (_ & _ & Hsub).
  destruct (sorted_nat picked) as [|a [|b [|c l]]] eqn:Hs; try discriminate.
  apply ret_Ok in H as [[= <- <-] _].
  pose proof (submseteq_NoDup _ _ Hsub (NoDup_seq 0 n)) as Hnd.
  destruct (sorted_nat_two _ _ _ Hs Hnd) as (Hlt & _ & Hb).
  split; [exact Hlt |].
  pose proof (elem_of_submseteq _ _ _ Hb Hsub) as Hin.
  apply elem_of_seq in Hin. lia.
Qed.

(** With fewer than two positions there is no segment to draw. *)
Lemma random_segment_short {G} (n : nat) (w : world G) :
  (n < 2)%nat -> random_segment n w = Raise ValueError w.
Proof.
  intros Hn. unfold random_segment.
  rewrite (bind_of_Raise _ _ _ _ _ (random_sample_too_many (seq 0 n) 2 w
             ltac:(right; rewrite length_seq; lia))).
  reflexivity.
Qed.

Lemma random_segment_total {G} (n : nat) (w : world G) :
  (2 <= n)%nat -> exists seg w', random_segment n w = Ok seg w'.
Proof.
  intros Hn. unfold random_segment.
  destruct (random_sample_total (seq 0 n) 2 w) as (picked & w' & Hp).
  { rewrite length_seq. lia. }
  rewrite (bind_of_Ok _ _ _ _ _ Hp).
  pose proof Hp as Hp'. apply random_sample_Ok in Hp' as (_ & Hlen & _).
  pose proof (sorted_nat_perm picked) as Hperm.
  apply Permutation_length in Hperm. rewrite Hlen in Hperm.
  destruct (sorted_nat picked) as [|a [|b [|c l]]]; try discriminate.
  unfold ret. eauto.
Qed.

Lemma filter_all {A} (P : A -> Prop) `{forall x, Decision (P x)} (l : list A) :
  Forall P l -> filter P l = l.
Proof.
  induction 1 as [|x l Hx Hl IH]; [reflexivity |].
  rewrite filter_cons_True by assumption. now rewrite IH.
Qed.

Lemma filter_none {A} (P : A -> Prop) `{forall x, Decision (P x)} (l : list A) :
  Forall (fun x => ~ P x) l -> filter P l = [].
Proof.
  induction 1 as [|x l Hx Hl IH]; [reflexivity |].
  now rewrite filter_cons_False by assumption.
Qed.

(** *** Writing into lists *)

Lemma insert_Permutation {A} (l : list A) j a :
  (j < length l)%nat -> <[j := a]> l ≡ₚ a :: delete j l.
Proof.
  intros Hj. rewrite insert_take_drop by exact Hj. rewrite delete_take_drop.
  symmetry. apply Permutation_middle.
Qed.

(** Exchanging two positions permutes the list. *)
Lemma swap_Permutation {A} (x : list A) i j xi xj :
  x !! i = Some xi -> x !! j = Some xj ->
  <[j := xi]> (<[i := xj]> x) ≡ₚ x.
Proof.
  intros Hi Hj. destruct (decide (i = j)) as [->|Hne].
  - assert (xi = xj) as -> by congruence.
    rewrite list_insert_insert_eq. now rewrite list_insert_id.
  - pose proof (lookup_lt_Some _ _ _ Hi) as Hli.
    pose proof (lookup_lt_Some _ _ _ Hj) as Hlj.
    set (l1 := <[i := xj]> x).
    assert (Hl1j : l1 !! j = Some xj).
    { unfold l1. now rewrite list_lookup_insert_ne. }
    assert (H1 : l1 ≡ₚ xj :: delete i x) by (apply insert_Permutation; exact Hli).
    assert (H2 : l1 ≡ₚ xj :: delete j l1) by (now apply delete_Permutation).
    assert (H3 : delete j l1 ≡ₚ delete i x).
    { apply (Permutation_cons_inv (a := xj)). now rewrite <- H1, <- H2. }
    rewrite insert_Permutation by (unfold l1; rewrite length_insert; exact Hlj).
    rewrite H3. symmetry. now apply delete_Permutation.
Qed.

Lemma shuffle_from_Permutation {G A} i : forall (x : list A) (w : world G) y w',
  shuffle_from i x w = Ok y w' -> y ≡ₚ x.
Proof.
  induction i as [|i IH]; intros x w y w' H.
  - apply ret_Ok in H as [<- _]. reflexivity.
  - cbn [shuffle_from] in H. apply bind_Ok in H as (d & w1 & _ & H).
    destruct (x !! S i) as [xi|] eqn:Hi; [| discriminate].
    destruct (x !! (N.to_nat d mod S (S i))%nat) as [xj|] eqn:Hj; [| discriminate].
    apply IH in H. rewrite H. now apply swap_Permutation.
Qed.

Lemma random_shuffle_Permutation {G A} (x : list A) (w : world G) y w' :
  random_shuffle x w = Ok y w' -> y ≡ₚ x.
Proof. apply shuffle_from_Permutation. Qed.

(** Shuffling never fails. *)
Lemma shuffle_from_total {G A} i : forall (x : list A) (w : world G),
  (i < length x \/ i = 0)%nat -> exists y w', shuffle_from i x w = Ok y w'.
Proof.
  induction i as [|i IH]; intros x w Hi.
  - cbn. unfold ret. eauto.
  - cbn [shuffle_from]. unfold bind at 1. unfold draw.
    assert (Hlt : (S i < length x)%nat) by lia.
    destruct (lookup_lt_is_Some_2 x (S i) Hlt) as [xi Hxi]. rewrite Hxi.
    pose proof (Nat.mod_upper_bound (N.to_nat (draws w (cursor w))) (S (S i))
                  ltac:(lia)) as Hj.
    destruct (lookup_lt_is_Some_2 x (N.to_nat (draws w (cursor w)) mod S (S i))%nat
                ltac:(lia)) as [xj Hxj].
    rewrite Hxj. apply IH. rewrite !length_insert. lia.
Qed.

Lemma slice_assign_length {A} (l new : list A) a b :
  (a <= b)%nat -> (b <= length l)%nat -> length new = (b - a)%nat ->
  length (slice_assign l a b new) = length l.
Proof.
  intros Hab Hb Hn. unfold slice_assign.
  rewrite !length_app, length_take, length_drop. lia.
Qed.

Lemma take_slice_drop {A} (l : list A) a b :
  (a <= b)%nat -> (b <= length l)%nat ->
  take a l ++ slice l a b ++ drop b l = l.
Proof.
  intros Hab Hb. unfold slice.
  rewrite <- (take_drop a l) at 4. f_equal.
  rewrite <- (take_drop (b - a) (drop a l)) at 2. f_equal.
  rewrite drop_drop. f_equal. lia.
Qed.

Lemma slice_assign_Permutation {A} (l new : list A) a b :
  (a <= b)%nat -> (b <= length l)%nat -> new ≡ₚ slice l a b ->
  slice_assign l a b new ≡ₚ l.
Proof.
  intros Hab Hb Hn. unfold slice_assign. rewrite Hn.
  now rewrite take_slice_drop.
Qed.

(* ===================================================================== *)
(** ** Crossover and mutation operators *)
(* ===================================================================== *)

(** Structural proof of [keeps_heap] for code built from the library. *)
Ltac keeps :=
  repeat first
    [ apply keeps_heap_ret | apply keeps_heap_raise | apply keeps_heap_deref
    | apply keeps_heap_draw | apply keeps_heap_randint
    | apply keeps_heap_random_random | apply keeps_heap_random_uniform
    | apply keeps_heap_random_choice | apply keeps_heap_random_sample
    | apply keeps_heap_random_shuffle | apply keeps_heap_random_segment
    | apply keeps_heap_sum_fitness_from
    | assumption
    | apply keeps_heap_bind; [| intros ?]
    | match goal with
      | |- keeps_heap (if ?b then _ else _) => destruct b
      | |- keeps_heap (match ?x with _ => _ end) => destruct x
      end ].

(** *** The chromosome computations leave the heap alone *)

Section OperatorsKeepHeap.
Context {G : Type}.

Lemma keeps_heap_uniform_genes (pairs : list (G * G)) : keeps_heap (uniform_genes pairs).
Proof.
  induction pairs as [|[g1 g2] pairs IH]; cbn [uniform_genes]; [apply keeps_heap_ret |].
  keeps.
Qed.

Lemma keeps_heap_n_point (parent1 parent2 : ref) n_points :
  keeps_heap (@n_point_chromosome G parent1 parent2 n_points).
Proof. unfold n_point_chromosome. keeps. Qed.

Lemma keeps_heap_uniform_crossover (parent1 parent2 : ref) :
  keeps_heap (@uniform_crossover_chromosome G parent1 parent2).
Proof. unfold uniform_crossover_chromosome. keeps. apply keeps_heap_uniform_genes. Qed.

Lemma keeps_heap_cut_and_splice (parent1 parent2 : ref) :
  keeps_heap (@cut_and_splice_chromosome G parent1 parent2).
Proof. unfold cut_and_splice_chromosome. keeps. Qed.

Lemma keeps_heap_order `{EqDecision G} (parent1 parent2 : ref) :
  keeps_heap (@order_chromosome G _ parent1 parent2).
Proof. unfold order_chromosome. keeps. Qed.

Lemma keeps_heap_boundary (candidate : ref) (lo hi : G) :
  keeps_heap (boundary_chromosome candidate lo hi).
Proof. unfold boundary_chromosome. keeps. Qed.

Lemma keeps_heap_swap (candidate : ref) : keeps_heap (@swap_chromosome G candidate).
Proof. unfold swap_chromosome. keeps. Qed.

Lemma keeps_heap_scramble (candidate : ref) : keeps_heap (@scramble_chromosome G candidate).
Proof. unfold scramble_chromosome. keeps. Qed.

Lemma keeps_heap_inversion (candidate : ref) : keeps_heap (@inversion_chromosome G candidate).
Proof. unfold inversion_chromosome. keeps. Qed.
End OperatorsKeepHeap.

Lemma keeps_heap_blend_genes alpha pairs : keeps_heap (blend_genes alpha pairs).
Proof.
  induction pairs as [|[g1 g2] pairs IH]; cbn [blend_genes]; [apply keeps_heap_ret |].
  keeps.
Qed.

Lemma keeps_heap_arithmetic parent1 parent2 alpha :
  keeps_heap (arithmetic_chromosome parent1 parent2 alpha).
Proof. unfold arithmetic_chromosome. keeps. Qed.

Lemma keeps_heap_blend parent1 parent2 alpha :
  keeps_heap (blend_chromosome parent1 parent2 alpha).
Proof. unfold blend_chromosome. keeps. apply keeps_heap_blend_genes. Qed.

Lemma keeps_heap_mutate_genes p genes : keeps_heap (mutate_genes p genes).
Proof.
  induction genes as [|g genes IH]; cbn [mutate_genes]; [apply keeps_heap_ret |].
  keeps.
Qed.

Lemma keeps_heap_uniform_mutation candidate p :
  keeps_heap (uniform_mutation_chromosome candidate p).
Proof. unfold uniform_mutation_chromosome. keeps. apply keeps_heap_mutate_genes. Qed.

Lemma keeps_heap_mutate_indices indices : forall chrom,
  keeps_heap (mutate_indices indices chrom).
Proof.
  induction indices as [|i indices IH]; intros chrom; cbn [mutate_indices];
    [apply keeps_heap_ret |].
  apply keeps_heap_bind; [apply keeps_heap_randint | intros; apply IH].
Qed.

Lemma keeps_heap_multi_point candidate num_points :
  keeps_heap (multi_point_chromosome candidate num_points).
Proof. unfold multi_point_chromosome. keeps. apply keeps_heap_mutate_indices. Qed.

Lemma keeps_heap_adaptive candidate population threshold p :
  keeps_heap (adaptive_chromosome candidate population threshold p).
Proof. unfold adaptive_chromosome. keeps; apply keeps_heap_mutate_genes. Qed.

Lemma keeps_heap_gaussian_genes gv mean stddev genes :
  keeps_heap (gaussian_genes gv mean stddev genes).
Proof.
  induction genes as [|g genes IH]; cbn [gaussian_genes]; [apply keeps_heap_ret |].
  unfold random_gauss. keeps.
Qed.

Lemma keeps_heap_gaussian gv candidate mean stddev :
  keeps_heap (gaussian_chromosome gv candidate mean stddev).
Proof. unfold gaussian_chromosome. keeps. apply keeps_heap_gaussian_genes. Qed.

Lemma keeps_heap_non_uniform_genes generation max_generations p genes :
  keeps_heap (non_uniform_genes generation max_generations p genes).
Proof.
  induction genes as [|g genes IH]; cbn [non_uniform_genes]; [apply keeps_heap_ret |].
  keeps.
Qed.

Lemma keeps_heap_non_uniform candidate generation max_generations p :
  keeps_heap (non_uniform_chromosome candidate generation max_generations p).
Proof. unfold non_uniform_chromosome. keeps. apply keeps_heap_non_uniform_genes. Qed.

(** *** Every operator returns a new, unevaluated candidate *)

Lemma constructs_new_of_keeps_heap {G} (body : M G (list G)) :
  keeps_heap body -> constructs_new (bind body (fun chrom => new_Candidate chrom 0%Q)).
Proof.
  intros Hk w r w' H.
  destruct (construct_allocates body w r w' Hk H) as (chrom & w1 & _ & Ha). eauto.
Qed.

(** C10.  Each crossover and each mutation operator, when it returns,
    returns the address of a new object whose fitness is the constructor's
    default [0.0], whatever the fitness of the parents; the parents and
    every other object of the heap are left as they were.  The default is
    an ordinary score: evaluating such an offspring with an objective that
    gives 0 on its chromosome changes nothing, so an evaluated 0 and "not
    evaluated yet" are the same state. *)
Theorem operators_construct_new_candidates :
  (forall G p1 p2 n, constructs_new (@n_point_crossover G p1 p2 n)) /\
  (forall G p1 p2, constructs_new (@uniform_crossover G p1 p2)) /\
  (forall p1 p2 alpha, constructs_new (arithmetic_crossover p1 p2 alpha)) /\
  (forall p1 p2 alpha, constructs_new (blend_crossover p1 p2 alpha)) /\
  (forall G p1 p2, constructs_new (@cut_and_splice_crossover G p1 p2)) /\
  (forall G (H : EqDecision G) p1 p2, constructs_new (@order_crossover G H p1 p2)) /\
  (forall c p, constructs_new (uniform_mutation c p)) /\
  (forall c n, constructs_new (multi_point_mutation c n)) /\
  (forall gv c mean stddev, constructs_new (gaussian_mutation gv c mean stddev)) /\
  (forall G c (lo hi : G), constructs_new (boundary_mutation c lo hi)) /\
  (forall G c, constructs_new (@swap_mutation G c)) /\
  (forall G c, constructs_new (@scramble_mutation G c)) /\
  (forall G c, constructs_new (@inversion_mutation G c)) /\
  (forall c g mg p, constructs_new (non_uniform_mutation c g mg p)) /\
  (forall c pop t p, constructs_new (adaptive_mutation c pop t p)) /\
  (forall G (w : world G) r chrom w' (f : list G -> Q),
     allocated w r chrom w' -> f chrom = 0%Q ->
     calculate_fitness r f w' = Ok tt w').
Proof.
  split_and!; [intros; apply constructs_new_of_keeps_heap .. |].
  16:{ intros G w r chrom w' f [-> Hheap] Hf.
       assert (Hr : heap w' !! length (heap w) = Some (mkCandidate chrom 0%Q)).
       { rewrite Hheap. now apply list_lookup_middle. }
       rewrite (calculate_fitness_eq _ f _ _ Hr). cbn [chromosome]. rewrite Hf.
       rewrite list_insert_id by exact Hr. now destruct w'. }
  - apply keeps_heap_n_point.
  - apply keeps_heap_uniform_crossover.
  - apply keeps_heap_arithmetic.
  - apply keeps_heap_blend.
  - apply keeps_heap_cut_and_splice.
  - apply keeps_heap_order.
  - apply keeps_heap_uniform_mutation.
  - apply keeps_heap_multi_point.
  - apply keeps_heap_gaussian.
  - apply keeps_heap_boundary.
  - apply keeps_heap_swap.
  - apply keeps_heap_scramble.
  - apply keeps_heap_inversion.
  - apply keeps_heap_non_uniform.
  - apply keeps_heap_adaptive.
Qed.

Lemma operators_construct_new_candidates_witness :
  exists r w' chrom,
    uniform_mutation 0%nat (1 # 2)
      (population_world [mkCandidate [1; 2; 3] (7 # 1)] [0; 42; 2 ^ 52; 2 ^ 52]%N)
      = Ok r w' /\
    allocated
      (population_world [mkCandidate [1; 2; 3] (7 # 1)] [0; 42; 2 ^ 52; 2 ^ 52]%N)
      r chrom w'.
Proof.
  destruct (uniform_mutation 0%nat (1 # 2)
      (population_world [mkCandidate [1; 2; 3] (7 # 1)] [0; 42; 2 ^ 52; 2 ^ 52]%N))
    as [r w'| |] eqn:E; [| vm_compute in E; discriminate ..].
  destruct (proj1 (proj2 (proj2 (proj2 (proj2 (proj2 (proj2
              operators_construct_new_candidates)))))) _ _ _ _ _ E) as (chrom & Ha).
  exists r, w', chrom. split; [reflexivity | exact Ha].
Defined.

(** *** Chromosome lengths: crossover *)

Lemma slice_length {A} (l : list A) a b :
  (a <= b)%nat -> (b <= length l)%nat -> length (slice l a b) = (b - a)%nat.
Proof. intros Hab Hb. unfold slice. rewrite length_take, length_drop. lia. Qed.

Lemma ascending_snoc L : forall l a,
  ascending a l -> Forall (fun p => (p <= L)%nat) l -> (a <= L)%nat ->
  ascending a (l ++ [L]).
Proof.
  induction l as [|x l IH]; intros a Hasc Hall Ha; cbn.
  - auto.
  - destruct Hasc as [Hax Hl]. inversion Hall; subst. split; [exact Hax | auto].
Qed.

Lemma last_default_irrelevant {A} (l : list A) d d' :
  l <> [] -> List.last l d = List.last l d'.
Proof.
  induction l as [|x l IH]; intros Hne; [congruence |].
  destruct l as [|y l]; [reflexivity |].
  change (List.last (y :: l) d = List.last (y :: l) d'). apply IH. discriminate.
Qed.

Lemma ascending_last : forall points p,
  ascending p points -> (p <= List.last points p)%nat.
Proof.
  induction points as [|q points IH]; intros p Hasc.
  - cbn. lia.
  - destruct Hasc as [Hpq Hasc]. specialize (IH q Hasc).
    destruct points as [|q' points]; [exact Hpq |].
    change (List.last (q :: q' :: points) p) with (List.last (q' :: points) p).
    rewrite (last_default_irrelevant (q' :: points) p q) by discriminate. lia.
Qed.

Lemma n_point_segments_length {A} (c1 c2 : list A) L :
  length c1 = L -> length c2 = L ->
  forall points swap prev off,
    ascending prev points -> Forall (fun p => (p <= L)%nat) points ->
    length (n_point_segments points swap prev c1 c2 off)
      = (length off + (List.last points prev - prev))%nat.
Proof.
  intros H1 H2. induction points as [|p points IH]; intros swap prev off Hasc Hall.
  - cbn. lia.
  - destruct Hasc as [Hpp Hasc]. inversion Hall as [|? ? HpL Hall']; subst.
    cbn [n_point_segments]. rewrite IH by assumption.
    rewrite length_app.
    assert (Hs : length (slice (if swap then c2 else c1) prev p) = (p - prev)%nat).
    { apply slice_length; [exact Hpp |]. destruct swap; [rewrite H2 |]; exact HpL. }
    rewrite Hs.
    pose proof (ascending_last _ _ Hasc) as Hlast.
    assert (List.last (p :: points) prev = List.last points p) as ->.
    { destruct points as [|q points]; [reflexivity |].
      change (List.last (p :: q :: points) prev) with (List.last (q :: points) prev).
      apply last_default_irrelevant. discriminate. }
    lia.
Qed.

Lemma sampled_points_bounded (L : nat) (picked : list nat) :
  picked ⊆+ seq 1 (L - 1) -> Forall (fun p => (p <= L)%nat) (sorted_nat picked).
Proof.
  intros Hsub. apply Forall_forall. intros p Hp.
  rewrite sorted_nat_perm in Hp.
  pose proof (elem_of_submseteq _ _ _ Hp Hsub) as Hin.
  apply elem_of_seq in Hin. lia.
Qed.

Lemma n_point_chromosome_length {G} (parent1 parent2 : ref) n_points (w : world G)
    chrom w' c1 c2 :
  heap w !! parent1 = Some c1 -> heap w !! parent2 = Some c2 ->
  length (chromosome c1) = length (chromosome c2) ->
  n_point_chromosome parent1 parent2 n_points w = Ok chrom w' ->
  length chrom = length (chromosome c1).
Proof.
  intros Hc1 Hc2 Hlen H. unfold n_point_chromosome in H.
  rewrite (bind_of_Ok _ _ _ _ _ (deref_of_lookup _ _ _ Hc1)) in H.
  apply bind_Ok in H as (picked & w1 & Hpick & H).
  pose proof (keeps_heap_random_sample _ _ _ _ _ Hpick) as Hh1.
  apply random_sample_Ok in Hpick as (_ & _ & Hsub).
  pose proof (sampled_points_bounded _ _ Hsub) as Hbound.
  pose proof (sorted_nat_ascending picked) as Hasc.
  apply bind_Ok in H as (chromosome2 & w2 & H2 & H).
  apply ret_Ok in H as [<- _].
  destruct (sorted_nat picked) as [|p points] eqn:Hs.
  - cbn. unfold slice. rewrite drop_0, Nat.sub_0_r, firstn_all. reflexivity.
  - apply bind_Ok in H2 as (c2' & w3 & Hd & H2). apply deref_Ok in Hd as [Hd ->].
    rewrite Hh1, Hc2 in Hd. injection Hd as <-. apply ret_Ok in H2 as [<- _].
    rewrite (n_point_segments_length _ _ (length (chromosome c1)) eq_refl (eq_sym Hlen)).
    + cbn [length]. rewrite List.last_last. lia.
    + apply ascending_snoc; [exact Hasc | exact Hbound | lia].
    + apply Forall_app. split; [exact Hbound |]. constructor; [lia | constructor].
Qed.

Lemma uniform_genes_length {G} (pairs : list (G * G)) : forall (w : world G) gs w',
  uniform_genes pairs w = Ok gs w' -> length gs = length pairs.
Proof.
  induction pairs as [|[g1 g2] pairs IH]; intros w gs w' H; cbn [uniform_genes] in H.
  - apply ret_Ok in H as [<- _]. reflexivity.
  - apply bind_Ok in H as (g & w1 & _ & H). apply bind_Ok in H as (gs' & w2 & Hgs & H).
    apply ret_Ok in H as [<- _]. cbn. f_equal. eauto.
Qed.

Lemma uniform_crossover_chromosome_length {G} (parent1 parent2 : ref) (w : world G)
    chrom w' c1 c2 :
  heap w !! parent1 = Some c1 -> heap w !! parent2 = Some c2 ->
  length (chromosome c1) = length (chromosome c2) ->
  uniform_crossover_chromosome parent1 parent2 w = Ok chrom w' ->
  length chrom = length (chromosome c1).
Proof.
  intros Hc1 Hc2 Hlen H. unfold uniform_crossover_chromosome in H.
  rewrite (bind_of_Ok _ _ _ _ _ (deref_of_lookup _ _ _ Hc1)) in H.
  rewrite (bind_of_Ok _ _ _ _ _ (deref_of_lookup _ _ _ Hc2)) in H.
  apply uniform_genes_length in H. rewrite H, length_zip. lia.
Qed.

Lemma arithmetic_chromosome_length (parent1 parent2 : ref) alpha (w : world Q)
    chrom w' c1 c2 :
  heap w !! parent1 = Some c1 -> heap w !! parent2 = Some c2 ->
  length (chromosome c1) = length (chromosome c2) ->
  arithmetic_chromosome parent1 parent2 alpha w = Ok chrom w' ->
  length chrom = length (chromosome c1).
Proof.
  intros Hc1 Hc2 Hlen H. unfold arithmetic_chromosome in H.
  rewrite (bind_of_Ok _ _ _ _ _ (deref_of_lookup _ _ _ Hc1)) in H.
  rewrite (bind_of_Ok _ _ _ _ _ (deref_of_lookup _ _ _ Hc2)) in H.
  apply ret_Ok in H as [<- _]. rewrite length_map, length_zip. lia.
Qed.

Lemma blend_genes_length alpha pairs : forall (w : world Q) gs w',
  blend_genes alpha pairs w = Ok gs w' -> length gs = length pairs.
Proof.
  induction pairs as [|[g1 g2] pairs IH]; intros w gs w' H; cbn [blend_genes] in H.
  - apply ret_Ok in H as [<- _]. reflexivity.
  - apply bind_Ok in H as (g & w1 & _ & H). apply bind_Ok in H as (gs' & w2 & Hgs & H).
    apply ret_Ok in H as [<- _]. cbn. f_equal. eauto.
Qed.

Lemma blend_chromosome_length (parent1 parent2 : ref) alpha (w : world Q)
    chrom w' c1 c2 :
  heap w !! parent1 = Some c1 -> heap w !! parent2 = Some c2 ->
  length (chromosome c1) = length (chromosome c2) ->
  blend_chromosome parent1 parent2 alpha w = Ok chrom w' ->
  length chrom = length (chromosome c1).
Proof.
  intros Hc1 Hc2 Hlen H. unfold blend_chromosome in H.
  rewrite (bind_of_Ok _ _ _ _ _ (deref_of_lookup _ _ _ Hc1)) in H.
  rewrite (bind_of_Ok _ _ _ _ _ (deref_of_lookup _ _ _ Hc2)) in H.
  apply blend_genes_length in H. rewrite H, length_zip. lia.
Qed.

(** *** Order crossover *)

Section OrderCrossover.
Context {G : Type} `{EqDecision G}.
Implicit Types (genes seg : list G) (slots : list (option G)).

Lemma order_fill_length slots genes : forall idx l,
  order_fill slots genes idx = Some l -> length l = length slots.
Proof.
  induction slots as [|[g|] slots IH]; intros idx l H; cbn [order_fill] in H.
  - injection H as <-. reflexivity.
  - destruct (order_fill slots genes idx) as [l'|] eqn:E; [| discriminate].
    injection H as <-. cbn. f_equal. eauto.
  - destruct (genes !! idx) as [g|]; [| discriminate].
    destruct (order_fill slots genes (S idx)) as [l'|] eqn:E; [| discriminate].
    injection H as <-. cbn. f_equal. eauto.
Qed.

Lemma order_fill_kept seg slots genes idx :
  order_fill ((Some <$> seg) ++ slots) genes idx
    = app seg <$> order_fill slots genes idx.
Proof.
  induction seg as [|g seg IH]; cbn [fmap list_fmap app order_fill].
  - now destruct (order_fill slots genes idx).
  - change (order_fill ((Some <$> seg) ++ slots) genes idx)
      with (order_fill ((Some <$> seg) ++ slots) genes idx).
    rewrite IH. now destruct (order_fill slots genes idx).
Qed.

Lemma order_fill_holes a : forall slots genes idx,
  (idx + a <= length genes)%nat ->
  order_fill (replicate a None ++ slots) genes idx
    = app (take a (drop idx genes)) <$> order_fill slots genes (idx + a).
Proof.
  induction a as [|a IH]; intros slots genes idx Hlen.
  - cbn [replicate app]. rewrite Nat.add_0_r, take_0.
    now destruct (order_fill slots genes idx).
  - cbn [replicate app order_fill].
    destruct (lookup_lt_is_Some_2 genes idx ltac:(lia)) as [g Hg]. rewrite Hg.
    rewrite IH by lia. replace (S idx + a)%nat with (idx + S a)%nat by lia.
    rewrite (drop_S _ _ _ Hg). cbn [take].
    now destruct (order_fill slots genes (idx + S a)).
Qed.

Lemma order_slots_eq (c1 : list G) start stop :
  (start <= stop)%nat -> (stop <= length c1)%nat ->
  slice_assign (replicate (length c1) None) start stop (Some <$> slice c1 start stop)
    = replicate start (@None G) ++ (Some <$> slice c1 start stop)
        ++ replicate (length c1 - stop) None.
Proof.
  intros Hab Hb. unfold slice_assign.
  rewrite take_replicate, drop_replicate. now rewrite Nat.min_l by lia.
Qed.

Lemma not_in_order_slots (c1 : list G) start stop g :
  Some g ∈ replicate start (@None G) ++ (Some <$> slice c1 start stop)
            ++ replicate (length c1 - stop) None
  <-> g ∈ slice c1 start stop.
Proof.
  rewrite !elem_of_app, !elem_of_replicate. rewrite (list_elem_of_fmap_inj Some).
  split; [intros [[? _] | [? | [? _]]]; [discriminate | assumption | discriminate] | auto].
Qed.

Lemma order_offspring_length (c1 c2 : list G) start stop chrom :
  (start <= stop)%nat -> (stop <= length c1)%nat ->
  order_offspring c1 c2 start stop = Some chrom -> length chrom = length c1.
Proof.
  intros Hab Hb H. unfold order_offspring in H.
  apply order_fill_length in H. rewrite H, order_slots_eq by assumption.
  rewrite !length_app, !length_replicate, length_fmap, slice_length by assumption. lia.
Qed.

Lemma split_at_segment (c1 : list G) start stop :
  (start <= stop)%nat -> (stop <= length c1)%nat ->
  c1 = take start c1 ++ slice c1 start stop ++ drop stop c1.
Proof.
  intros Hab Hb. unfold slice.
  rewrite <- (take_drop start c1) at 1. f_equal.
  rewrite <- (take_drop (stop - start) (drop start c1)) at 1. f_equal.
  rewrite drop_drop. f_equal. lia.
Qed.

(** The genes of [c2] that are not in the segment are, as a multiset, the
    genes of [c1] outside the segment. *)
Lemma parent2_genes_perm (c1 c2 : list G) start stop :
  (start <= stop)%nat -> (stop <= length c1)%nat ->
  NoDup c1 -> c1 ≡ₚ c2 ->
  filter (fun g => g ∉ slice c1 start stop) c2 ≡ₚ take start c1 ++ drop stop c1.
Proof.
  intros Hab Hb Hnd Hperm. rewrite <- Hperm.
  pose proof (split_at_segment c1 start stop Hab Hb) as Hsplit.
  assert (Hf : filter (fun g => g ∉ slice c1 start stop) c1
               = filter (fun g => g ∉ slice c1 start stop)
                   (take start c1 ++ slice c1 start stop ++ drop stop c1))
    by now rewrite <- Hsplit.
  rewrite Hf. clear Hf.
  rewrite Hsplit in Hnd.
  apply NoDup_app in Hnd as (_ & Ha & Hnd).
  apply NoDup_app in Hnd as (_ & Hsb & _).
  rewrite !filter_app.
  assert (E1 : filter (fun g => g ∉ slice c1 start stop) (take start c1) = take start c1).
  { apply filter_all. apply Forall_forall. intros x Hx Hin.
    apply (Ha x Hx). apply elem_of_app. now left. }
  assert (E2 : filter (fun g => g ∉ slice c1 start stop) (slice c1 start stop) = []).
  { apply filter_none. apply Forall_forall. intros x Hx Hn. contradiction. }
  assert (E3 : filter (fun g => g ∉ slice c1 start stop) (drop stop c1) = drop stop c1).
  { apply filter_all. apply Forall_forall. intros x Hx Hin. exact (Hsb x Hin Hx). }
  now rewrite E1, E2, E3.
Qed.

Lemma order_offspring_permutation (c1 c2 : list G) start stop :
  (start <= stop)%nat -> (stop <= length c1)%nat ->
  NoDup c1 -> c1 ≡ₚ c2 ->
  exists chrom, order_offspring c1 c2 start stop = Some chrom /\ chrom ≡ₚ c1.
Proof.
  intros Hab Hb Hnd Hperm. unfold order_offspring.
  rewrite order_slots_eq by assumption.
  set (seg := slice c1 start stop).
  set (b := (length c1 - stop)%nat).
  assert (Hg : filter (fun gene => Some gene ∉ replicate start None ++ (Some <$> seg)
                                      ++ replicate b None) c2
               = filter (fun g => g ∉ seg) c2).
  { apply list_filter_iff. intros g. unfold seg, b. now rewrite not_in_order_slots. }
  rewrite Hg. clear Hg.
  pose proof (parent2_genes_perm c1 c2 start stop Hab Hb Hnd Hperm) as Hgenes.
  fold seg in Hgenes. set (genes := filter (fun g => g ∉ seg) c2) in *.
  assert (Hlen : length genes = (start + b)%nat).
  { rewrite Hgenes, length_app, length_take, length_drop. unfold b. lia. }
  rewrite order_fill_holes by (rewrite Hlen; lia).
  rewrite order_fill_kept.
  rewrite <- (app_nil_r (replicate b None)).
  rewrite order_fill_holes by (rewrite Hlen; lia).
  cbn [order_fill fmap option_fmap option_map Nat.add].
  rewrite drop_0, app_nil_r.
  rewrite (take_ge (drop start genes)) by (rewrite length_drop; lia).
  eexists. split; [reflexivity |].
  rewrite (split_at_segment c1 start stop Hab Hb). fold seg.
  rewrite (Permutation_app_comm (take start c1)), <- app_assoc.
  rewrite (Permutation_app_comm (take start genes)), <- app_assoc.
  apply Permutation_app_head.
  rewrite (Permutation_app_comm (drop start genes)), take_drop.
  rewrite Hgenes. apply Permutation_app_comm.
Qed.
End OrderCrossover.

Lemma order_chromosome_Ok {G} `{EqDecision G} (parent1 parent2 : ref) (w : world G)
    chrom w' c1 c2 :
  heap w !! parent1 = Some c1 -> heap w !! parent2 = Some c2 ->
  order_chromosome parent1 parent2 w = Ok chrom w' ->
  exists start stop,
    (start < stop)%nat /\ (stop < length (chromosome c1))%nat /\
    order_offspring (chromosome c1) (chromosome c2) start stop = Some chrom.
Proof.
  intros Hc1 Hc2 H. unfold order_chromosome in H.
  rewrite (bind_of_Ok _ _ _ _ _ (deref_of_lookup _ _ _ Hc1)) in H.
  apply bind_Ok in H as ([start stop] & w1 & Hseg & H).
  pose proof (keeps_heap_random_segment _ _ _ _ Hseg) as Hh.
  apply random_segment_Ok in Hseg as (Hlt & Hstop).
  apply bind_Ok in H as (c2' & w2 & Hd & H). apply deref_Ok in Hd as [Hd ->].
  rewrite Hh, Hc2 in Hd. injection Hd as <-. cbn [fst snd] in H.
  destruct (order_offspring _ _ _ _) as [chrom'|] eqn:E; [| discriminate].
  apply ret_Ok in H as [<- _]. eauto.
Qed.

(** C7.  Order crossover on two parents that are permutations of the same
    distinct values: the call returns whenever the chromosome has at least
    two genes (with fewer, [random.sample] raises [ValueError]), and the
    offspring is a permutation of the same values, whichever segment is
    drawn. *)
Theorem order_crossover_permutation {G} `{EqDecision G} (parent1 parent2 : ref)
    (w : world G) (c1 c2 : Candidate G) :
  heap w !! parent1 = Some c1 -> heap w !! parent2 = Some c2 ->
  NoDup (chromosome c1) -> chromosome c1 ≡ₚ chromosome c2 ->
  ((2 <= length (chromosome c1))%nat ->
     exists r w', order_crossover parent1 parent2 w = Ok r w') /\
  ((length (chromosome c1) < 2)%nat ->
     order_crossover parent1 parent2 w = Raise ValueError w) /\
  (forall r w', order_crossover parent1 parent2 w = Ok r w' ->
     exists chrom, allocated w r chrom w' /\ chrom ≡ₚ chromosome c1).
Proof.
  intros Hc1 Hc2 Hnd Hperm. split; [| split].
  - intros Hlen. unfold order_crossover, order_chromosome.
    rewrite bind_assoc, (bind_of_Ok _ _ _ _ _ (deref_of_lookup _ _ _ Hc1)).
    destruct (random_segment_total (length (chromosome c1)) w Hlen)
      as ([start stop] & w1 & Hseg).
    rewrite bind_assoc, (bind_of_Ok _ _ _ _ _ Hseg).
    pose proof (keeps_heap_random_segment _ _ _ _ Hseg) as Hh.
    apply random_segment_Ok in Hseg as (Hlt & Hstop).
    assert (Hc2' : heap w1 !! parent2 = Some c2) by now rewrite Hh.
    rewrite bind_assoc, (bind_of_Ok _ _ _ _ _ (deref_of_lookup _ _ _ Hc2')).
    cbn [fst snd].
    destruct (order_offspring_permutation (chromosome c1) (chromosome c2) start stop)
      as (chrom & Hoff & _); [lia | lia | assumption | assumption |].
    rewrite Hoff. unfold bind, ret, new_Candidate. eauto.
  - intros Hlen. unfold order_crossover, order_chromosome.
    rewrite bind_assoc, (bind_of_Ok _ _ _ _ _ (deref_of_lookup _ _ _ Hc1)).
    rewrite bind_assoc.
    now rewrite (bind_of_Raise _ _ _ _ _ (random_segment_short _ w Hlen)).
  - intros r w' H.
    destruct (construct_allocates _ _ _ _ (keeps_heap_order parent1 parent2) H)
      as (chrom & w1 & Hbody & Halloc).
    exists chrom. split; [exact Halloc |].
    destruct (order_chromosome_Ok _ _ _ _ _ _ _ Hc1 Hc2 Hbody)
      as (start & stop & Hlt & Hstop & Hoff).
    destruct (order_offspring_permutation (chromosome c1) (chromosome c2) start stop)
      as (chrom' & Hoff' & Hp); [lia | lia | assumption | assumption |].
    congruence.
Qed.

Lemma order_crossover_permutation_witness :
  exists r w' chrom,
    order_crossover 0%nat 1%nat
      (population_world [mkCandidate [1; 2; 3; 4; 5] 0%Q; mkCandidate [5; 3; 1; 2; 4] 0%Q]
         [1; 2]%N) = Ok r w' /\
    heap w' !! r = Some (mkCandidate chrom 0%Q) /\ chrom ≡ₚ [1; 2; 3; 4; 5].
Proof.
  pose proof (order_crossover_permutation 0%nat 1%nat
    (population_world [mkCandidate [1; 2; 3; 4; 5] 0%Q; mkCandidate [5; 3; 1; 2; 4] 0%Q]
       [1; 2]%N) (mkCandidate [1; 2; 3; 4; 5] 0%Q) (mkCandidate [5; 3; 1; 2; 4] 0%Q)
    eq_refl eq_refl) as Hthm.
  destruct Hthm as (Htotal & _ & Hperm).
  - cbn [chromosome]. apply (bool_decide_unpack (NoDup [1; 2; 3; 4; 5])). vm_compute. exact I.
  - cbn [chromosome].
    change [5; 3; 1; 2; 4] with ([5] ++ [3] ++ [1; 2] ++ [4]).
    change [1; 2; 3; 4; 5] with ([1; 2] ++ [3] ++ [4] ++ [5]).
    rewrite (Permutation_app_comm [5]). rewrite <- !app_assoc.
    rewrite (Permutation_app_swap_app [3] [1; 2]). reflexivity.
  - destruct (Htotal ltac:(cbn; lia)) as (r & w' & Hrun).
    destruct (Hperm r w' Hrun) as (chrom & [Hr Hheap] & Hp).
    exists r, w', chrom. split; [exact Hrun |]. split; [| exact Hp].
    rewrite Hheap, Hr. apply list_lookup_middle. reflexivity.
Defined.

(** A property of the offspring chromosome carries over to the object the
    operator returns. *)
Lemma operator_offspring {G} (body : M G (list G)) (P : list G -> Prop) w r w' :
  keeps_heap body ->
  (forall chrom w1, body w = Ok chrom w1 -> P chrom) ->
  bind body (fun chrom => new_Candidate chrom 0%Q) w = Ok r w' ->
  exists chrom, allocated w r chrom w' /\ P chrom.
Proof.
  intros Hk HP H.
  destruct (construct_allocates body w r w' Hk H) as (chrom & w1 & Hb & Ha).
  exists chrom. split; [exact Ha | eauto].
Qed.

Lemma order_chromosome_length {G} `{EqDecision G} (parent1 parent2 : ref) (w : world G)
    chrom w' c1 c2 :
  heap w !! parent1 = Some c1 -> heap w !! parent2 = Some c2 ->
  order_chromosome parent1 parent2 w = Ok chrom w' ->
  length chrom = length (chromosome c1).
Proof.
  intros Hc1 Hc2 H.
  destruct (order_chromosome_Ok _ _ _ _ _ _ _ Hc1 Hc2 H) as (start & stop & Hlt & Hs & Ho).
  apply order_offspring_length in Ho; [exact Ho | lia | lia].
Qed.

(** For parents with chromosomes of equal length, n-point, uniform,
    arithmetic and blend crossover return an offspring of that length;
    order crossover returns an offspring as long as the first parent. *)
Theorem crossover_keeps_length :
  (forall G p1 p2 n (w : world G) c1 c2 r w',
     heap w !! p1 = Some c1 -> heap w !! p2 = Some c2 ->
     length (chromosome c1) = length (chromosome c2) ->
     n_point_crossover p1 p2 n w = Ok r w' ->
     exists chrom, allocated w r chrom w' /\ length chrom = length (chromosome c1)) /\
  (forall G p1 p2 (w : world G) c1 c2 r w',
     heap w !! p1 = Some c1 -> heap w !! p2 = Some c2 ->
     length (chromosome c1) = length (chromosome c2) ->
     uniform_crossover p1 p2 w = Ok r w' ->
     exists chrom, allocated w r chrom w' /\ length chrom = length (chromosome c1)) /\
  (forall p1 p2 alpha (w : world Q) c1 c2 r w',
     heap w !! p1 = Some c1 -> heap w !! p2 = Some c2 ->
     length (chromosome c1) = length (chromosome c2) ->
     arithmetic_crossover p1 p2 alpha w = Ok r w' ->
     exists chrom, allocated w r chrom w' /\ length chrom = length (chromosome c1)) /\
  (forall p1 p2 alpha (w : world Q) c1 c2 r w',
     heap w !! p1 = Some c1 -> heap w !! p2 = Some c2 ->
     length (chromosome c1) = length (chromosome c2) ->
     blend_crossover p1 p2 alpha w = Ok r w' ->
     exists chrom, allocated w r chrom w' /\ length chrom = length (chromosome c1)) /\
  (forall G (H : EqDecision G) p1 p2 (w : world G) c1 c2 r w',
     heap w !! p1 = Some c1 -> heap w !! p2 = Some c2 ->
     order_crossover p1 p2 w = Ok r w' ->
     exists chrom, allocated w r chrom w' /\ length chrom = length (chromosome c1)).
Proof.
  split_and!.
  - intros G p1 p2 n w c1 c2 r w' Hc1 Hc2 Hlen H.
    eapply operator_offspring; [apply keeps_heap_n_point | | exact H].
    intros chrom w1. now apply n_point_chromosome_length with (c2 := c2).
  - intros G p1 p2 w c1 c2 r w' Hc1 Hc2 Hlen H.
    eapply operator_offspring; [apply keeps_heap_uniform_crossover | | exact H].
    intros chrom w1. now apply uniform_crossover_chromosome_length with (c2 := c2).
  - intros p1 p2 alpha w c1 c2 r w' Hc1 Hc2 Hlen H.
    eapply operator_offspring; [apply keeps_heap_arithmetic | | exact H].
    intros chrom w1. now apply arithmetic_chromosome_length with (c2 := c2).
  - intros p1 p2 alpha w c1 c2 r w' Hc1 Hc2 Hlen H.
    eapply operator_offspring; [apply keeps_heap_blend | | exact H].
    intros chrom w1. now apply blend_chromosome_length with (c2 := c2).
  - intros G HG p1 p2 w c1 c2 r w' Hc1 Hc2 H.
    eapply operator_offspring; [apply keeps_heap_order | | exact H].
    intros chrom w1. now apply order_chromosome_length with (c2 := c2).
Qed.

Lemma crossover_keeps_length_witness :
  exists r w' chrom,
    n_point_crossover 0%nat 1%nat 1
      (population_world [mkCandidate [1; 1; 1; 1] 0%Q; mkCandidate [9; 9; 9; 9] 0%Q]
         [1]%N) = Ok r w' /\
    allocated
      (population_world [mkCandidate [1; 1; 1; 1] 0%Q; mkCandidate [9; 9; 9; 9] 0%Q]
         [1]%N) r chrom w' /\
    length chrom = 4%nat.
Proof.
  destruct (n_point_crossover 0%nat 1%nat 1
      (population_world [mkCandidate [1; 1; 1; 1] 0%Q; mkCandidate [9; 9; 9; 9] 0%Q]
         [1]%N)) as [r w'| |] eqn:E; [| vm_compute in E; discriminate ..].
  destruct (proj1 crossover_keeps_length Z 0%nat 1%nat 1
              (population_world
                 [mkCandidate [1; 1; 1; 1] 0%Q; mkCandidate [9; 9; 9; 9] 0%Q] [1]%N)
              (mkCandidate [1; 1; 1; 1] 0%Q) (mkCandidate [9; 9; 9; 9] 0%Q) r w'
              eq_refl eq_refl eq_refl E) as (chrom & Ha & Hl).
  exists r, w', chrom. split; [reflexivity |]. split; [exact Ha | exact Hl].
Defined.

(** *** Cut and splice *)

(** The offspring of cut-and-splice is a proper prefix of the first parent
    followed by a non-empty suffix of the second: its length is
    [cut1 + (len2 - cut2)], anything from 1 to [len1 + len2 - 1]. *)
Theorem cut_and_splice_length {G} (p1 p2 : ref) (w : world G) c1 c2 r w' :
  heap w !! p1 = Some c1 -> heap w !! p2 = Some c2 ->
  cut_and_splice_crossover p1 p2 w = Ok r w' ->
  exists chrom cut1 cut2,
    allocated w r chrom w' /\
    (cut1 < length (chromosome c1))%nat /\ (cut2 < length (chromosome c2))%nat /\
    chrom = take cut1 (chromosome c1) ++ drop cut2 (chromosome c2) /\
    length chrom = (cut1 + (length (chromosome c2) - cut2))%nat /\
    (1 <= length chrom <= length (chromosome c1) + length (chromosome c2) - 1)%nat.
Proof.
  intros Hc1 Hc2 H.
  destruct (construct_allocates _ _ _ _ (keeps_heap_cut_and_splice p1 p2) H)
    as (chrom & w1 & Hbody & Halloc).
  unfold cut_and_splice_chromosome in Hbody.
  rewrite (bind_of_Ok _ _ _ _ _ (deref_of_lookup _ _ _ Hc1)) in Hbody.
  apply bind_Ok in Hbody as (cut1 & w2 & Hcut1 & Hbody).
  pose proof (keeps_heap_randint _ _ _ _ _ Hcut1) as Hh2.
  apply randint_range in Hcut1.
  apply bind_Ok in Hbody as (c2' & w3 & Hd & Hbody). apply deref_Ok in Hd as [Hd ->].
  rewrite Hh2, Hc2 in Hd. injection Hd as <-.
  apply bind_Ok in Hbody as (cut2 & w4 & Hcut2 & Hbody).
  apply randint_range in Hcut2. apply ret_Ok in Hbody as [<- _].
  exists (slice_to (chromosome c1) cut1 ++ slice_from (chromosome c2) (Z.to_nat cut2)),
    (Z.to_nat cut1), (Z.to_nat cut2).
  split; [exact Halloc |].
  unfold slice_to, slice_from. destruct (Z.ltb_spec cut1 0); [lia |]. split; [lia |]. split; [lia |]. split; [reflexivity |].
  rewrite length_app, length_take, length_drop. lia.
Qed.

Lemma cut_and_splice_length_witness :
  exists r w' chrom,
    cut_and_splice_crossover 0%nat 1%nat
      (population_world [mkCandidate [1; 2; 3] 0%Q; mkCandidate [7; 8; 9] 0%Q]
         [2; 0]%N) = Ok r w' /\
    heap w' !! r = Some (mkCandidate chrom 0%Q) /\ length chrom = 5%nat.
Proof.
  destruct (cut_and_splice_crossover 0%nat 1%nat
      (population_world [mkCandidate [1; 2; 3] 0%Q; mkCandidate [7; 8; 9] 0%Q]
         [2; 0]%N)) as [r w'| |] eqn:E; [| vm_compute in E; discriminate ..].
  destruct (cut_and_splice_length 0%nat 1%nat
              (population_world
                 [mkCandidate [1; 2; 3] 0%Q; mkCandidate [7; 8; 9] 0%Q] [2; 0]%N)
              (mkCandidate [1; 2; 3] 0%Q)
              (mkCandidate [7; 8; 9] 0%Q) r w' eq_refl eq_refl E)
    as (chrom & cut1 & cut2 & [Hr Hheap] & _ & _ & Hchrom & _ & _).
  exists r, w', chrom. split; [reflexivity |]. split.
  - rewrite Hheap, Hr. now apply list_lookup_middle.
  - vm_compute in E. injection E as _ E.
    rewrite <- E in Hheap. cbn in Hheap. injection Hheap as <-. reflexivity.
Defined.

(* ===================================================================== *)
(** ** Mutation operators *)
(* ===================================================================== *)

Section MutationFacts.
Context {G : Type}.
Implicit Types (w : world G) (c : Candidate G).

Lemma boundary_chromosome_Ok candidate (lo hi : G) w chrom w' c :
  heap w !! candidate = Some c ->
  boundary_chromosome candidate lo hi w = Ok chrom w' ->
  exists i b, (i < length (chromosome c))%nat /\ (b = lo \/ b = hi) /\
              chrom = <[i := b]> (chromosome c).
Proof.
  intros Hc H. unfold boundary_chromosome in H.
  rewrite (bind_of_Ok _ _ _ _ _ (deref_of_lookup _ _ _ Hc)) in H.
  apply bind_Ok in H as (i & w1 & Hi & H). apply randint_range in Hi.
  apply bind_Ok in H as (u & w2 & _ & H).
  exists (Z.to_nat i).
  destruct (Qltb u (1 # 2)); apply ret_Ok in H as [<- _];
    [exists lo | exists hi]; (split; [lia | auto]).
Qed.

Lemma boundary_chromosome_empty candidate (lo hi : G) w c :
  heap w !! candidate = Some c -> chromosome c = [] ->
  boundary_chromosome candidate lo hi w = Raise ValueError w.
Proof.
  intros Hc He. unfold boundary_chromosome.
  rewrite (bind_of_Ok _ _ _ _ _ (deref_of_lookup _ _ _ Hc)). now rewrite He.
Qed.

Lemma swap_chromosome_Ok candidate w chrom w' c :
  heap w !! candidate = Some c ->
  swap_chromosome candidate w = Ok chrom w' ->
  exists idx1 idx2 x1 x2,
    idx1 <> idx2 /\
    chromosome c !! idx1 = Some x1 /\ chromosome c !! idx2 = Some x2 /\
    chrom = <[idx2 := x1]> (<[idx1 := x2]> (chromosome c)).
Proof.
  intros Hc H. unfold swap_chromosome in H.
  rewrite (bind_of_Ok _ _ _ _ _ (deref_of_lookup _ _ _ Hc)) in H.
  apply bind_Ok in H as (picked & w1 & Hp & H).
  apply random_sample_Ok in Hp as (_ & _ & Hsub).
  pose proof (submseteq_NoDup _ _ Hsub (NoDup_seq 0 _)) as Hnd.
  destruct picked as [|idx1 [|idx2 [|idx3 picked]]]; try discriminate.
  destruct (chromosome c !! idx2) as [x2|] eqn:H2; [| discriminate].
  destruct (chromosome c !! idx1) as [x1|] eqn:H1; [| discriminate].
  apply ret_Ok in H as [<- _]. exists idx1, idx2, x1, x2.
  split; [| auto]. apply NoDup_cons in Hnd as [Hn _].
  intros ->. apply Hn. apply list_elem_of_here.
Qed.

Lemma two_positions_or_ValueError {A} (n : nat) (k : list nat -> M G A) w :
  (n < 2)%nat ->
  bind (random_sample (seq 0 n) 2) k w = Raise ValueError w.
Proof.
  intros Hn. apply bind_of_Raise, random_sample_too_many.
  right. rewrite length_seq. lia.
Qed.

Lemma swap_chromosome_short candidate w c :
  heap w !! candidate = Some c -> (length (chromosome c) < 2)%nat ->
  swap_chromosome candidate w = Raise ValueError w.
Proof.
  intros Hc Hlen. unfold swap_chromosome.
  rewrite (bind_of_Ok _ _ _ _ _ (deref_of_lookup _ _ _ Hc)).
  now apply two_positions_or_ValueError.
Qed.

Lemma scramble_chromosome_Ok candidate w chrom w' c :
  heap w !! candidate = Some c ->
  scramble_chromosome candidate w = Ok chrom w' ->
  exists start stop part,
    (start < stop)%nat /\ (stop < length (chromosome c))%nat /\
    part ≡ₚ slice (chromosome c) start stop /\
    chrom = slice_assign (chromosome c) start stop part.
Proof.
  intros Hc H. unfold scramble_chromosome in H.
  rewrite (bind_of_Ok _ _ _ _ _ (deref_of_lookup _ _ _ Hc)) in H.
  apply bind_Ok in H as ([start stop] & w1 & Hseg & H).
  apply random_segment_Ok in Hseg as (Hlt & Hstop).
  apply bind_Ok in H as (part & w2 & Hsh & H).
  apply random_shuffle_Permutation in Hsh. apply ret_Ok in H as [<- _].
  exists start, stop, part. auto.
Qed.

Lemma scramble_chromosome_short candidate w c :
  heap w !! candidate = Some c -> (length (chromosome c) < 2)%nat ->
  scramble_chromosome candidate w = Raise ValueError w.
Proof.
  intros Hc Hlen. unfold scramble_chromosome.
  rewrite (bind_of_Ok _ _ _ _ _ (deref_of_lookup _ _ _ Hc)).
  now rewrite (bind_of_Raise _ _ _ _ _ (random_segment_short _ w Hlen)).
Qed.

Lemma inversion_chromosome_Ok candidate w chrom w' c :
  heap w !! candidate = Some c ->
  inversion_chromosome candidate w = Ok chrom w' ->
  exists start stop,
    (start < stop)%nat /\ (stop < length (chromosome c))%nat /\
    chrom = take start (chromosome c)
              ++ reverse (slice (chromosome c) start stop)
              ++ drop stop (chromosome c).
Proof.
  intros Hc H. unfold inversion_chromosome in H.
  rewrite (bind_of_Ok _ _ _ _ _ (deref_of_lookup _ _ _ Hc)) in H.
  apply bind_Ok in H as ([start stop] & w1 & Hseg & H).
  apply random_segment_Ok in Hseg as (Hlt & Hstop).
  apply ret_Ok in H as [<- _]. exists start, stop. auto.
Qed.

Lemma inversion_chromosome_short candidate w c :
  heap w !! candidate = Some c -> (length (chromosome c) < 2)%nat ->
  inversion_chromosome candidate w = Raise ValueError w.
Proof.
  intros Hc Hlen. unfold inversion_chromosome.
  rewrite (bind_of_Ok _ _ _ _ _ (deref_of_lookup _ _ _ Hc)).
  now rewrite (bind_of_Raise _ _ _ _ _ (random_segment_short _ w Hlen)).
Qed.
End MutationFacts.

(** *** Integer genes *)

Lemma mutate_genes_Ok p genes : forall (w : world Z) gs w',
  mutate_genes p genes w = Ok gs w' ->
  Forall2 (fun old new => new = old \/ 0 <= new <= 100) genes gs.
Proof.
  induction genes as [|g genes IH]; intros w gs w' H; cbn [mutate_genes] in H.
  - apply ret_Ok in H as [<- _]. constructor.
  - apply bind_Ok in H as (u & w1 & _ & H).
    apply bind_Ok in H as (new & w2 & Hnew & H).
    apply bind_Ok in H as (gs' & w3 & Hgs & H).
    apply ret_Ok in H as [<- _]. constructor; [| eauto].
    destruct (Qltb u p).
    + right. now apply randint_range in Hnew.
    + left. now apply ret_Ok in Hnew as [<- _].
Qed.

(** With a probability that is not positive no gene is ever redrawn. *)
Lemma mutate_genes_never p genes : forall (w : world Z) gs w',
  (p <= 0)%Q -> mutate_genes p genes w = Ok gs w' -> gs = genes.
Proof.
  induction genes as [|g genes IH]; intros w gs w' Hp H; cbn [mutate_genes] in H.
  - now apply ret_Ok in H as [<- _].
  - apply bind_Ok in H as (u & w1 & Hu & H).
    unfold random_random in Hu. apply bind_Ok in Hu as (d & w0 & _ & Hu).
    apply ret_Ok in Hu as [<- _].
    destruct (random_unit_range d) as [Hd _].
    assert (Hq : Qltb (random_unit d) p = false) by (apply Qltb_ge; lra).
    rewrite Hq in H.
    apply bind_Ok in H as (new & w2 & Hnew & H). apply ret_Ok in Hnew as [<- _].
    apply bind_Ok in H as (gs' & w3 & Hgs & H).
    apply ret_Ok in H as [<- _]. f_equal. eauto.
Qed.

(** With a probability above one every gene is redrawn. *)
Lemma mutate_genes_always p genes : forall (w : world Z) gs w',
  (1 <= p)%Q -> mutate_genes p genes w = Ok gs w' ->
  length gs = length genes /\ Forall (fun g => 0 <= g <= 100) gs.
Proof.
  induction genes as [|g genes IH]; intros w gs w' Hp H; cbn [mutate_genes] in H.
  - apply ret_Ok in H as [<- _]. split; [reflexivity | constructor].
  - apply bind_Ok in H as (u & w1 & Hu & H).
    unfold random_random in Hu. apply bind_Ok in Hu as (d & w0 & _ & Hu).
    apply ret_Ok in Hu as [<- _].
    destruct (random_unit_range d) as [_ Hd].
    assert (Hq : Qltb (random_unit d) p = true) by (apply Qltb_lt; lra).
    rewrite Hq in H.
    apply bind_Ok in H as (new & w2 & Hnew & H). apply randint_range in Hnew.
    apply bind_Ok in H as (gs' & w3 & Hgs & H).
    apply ret_Ok in H as [<- _].
    destruct (IH _ _ _ Hp Hgs) as [Hl Hall].
    split; [cbn; congruence | constructor; assumption].
Qed.

Lemma mutate_indices_Ok indices : forall chrom (w : world Z) gs w',
  mutate_indices indices chrom w = Ok gs w' ->
  length gs = length chrom /\
  (forall i, i ∉ indices -> gs !! i = chrom !! i) /\
  (forall i g, i ∈ indices -> gs !! i = Some g -> 0 <= g <= 100).
Proof.
  induction indices as [|index indices IH]; intros chrom w gs w' H;
    cbn [mutate_indices] in H.
  - apply ret_Ok in H as [<- _]. split; [reflexivity |]. split; [auto |].
    intros i g Hi. now apply elem_of_nil in Hi.
  - apply bind_Ok in H as (v & w1 & Hv & H). apply randint_range in Hv.
    destruct (IH _ _ _ _ H) as (Hlen & Hout & Hin).
    rewrite length_insert in Hlen. split; [exact Hlen |]. split.
    + intros i Hi. apply not_elem_of_cons in Hi as [Hne Hi].
      rewrite (Hout i Hi). now apply list_lookup_insert_ne.
    + intros i g Hi Hg. destruct (decide (i ∈ indices)) as [Hi'|Hi'].
      * eauto.
      * apply elem_of_cons in Hi as [-> | Hi]; [| contradiction].
        rewrite (Hout _ Hi') in Hg.
        destruct (decide (index < length chrom)%nat) as [Hlt|Hge].
        -- rewrite list_lookup_insert_eq in Hg by exact Hlt. now injection Hg as <-.
        -- apply lookup_lt_Some in Hg. rewrite length_insert in Hg. lia.
Qed.

Lemma gaussian_genes_length gv mean stddev genes : forall (w : world Q) gs w',
  gaussian_genes gv mean stddev genes w = Ok gs w' -> length gs = length genes.
Proof.
  induction genes as [|g genes IH]; intros w gs w' H; cbn [gaussian_genes] in H.
  - now apply ret_Ok in H as [<- _].
  - apply bind_Ok in H as (noise & w1 & _ & H).
    apply bind_Ok in H as (gs' & w2 & Hgs & H).
    apply ret_Ok in H as [<- _]. cbn. f_equal. eauto.
Qed.

Lemma non_uniform_genes_length generation max_generations p genes :
  forall (w : world Q) gs w',
    non_uniform_genes generation max_generations p genes w = Ok gs w' ->
    length gs = length genes.
Proof.
  induction genes as [|g genes IH]; intros w gs w' H; cbn [non_uniform_genes] in H.
  - now apply ret_Ok in H as [<- _].
  - apply bind_Ok in H as (u & w1 & _ & H).
    apply bind_Ok in H as (new & w2 & _ & H).
    apply bind_Ok in H as (gs' & w3 & Hgs & H).
    apply ret_Ok in H as [<- _]. cbn. f_equal. eauto.
Qed.

(** *** What the mutation operators return *)

(** Swap, scramble and inversion mutation rearrange the genes: the mutated
    chromosome is a permutation of the input chromosome (so it has the same
    length), and on a chromosome with fewer than two genes each of them
    raises [ValueError] from [random.sample]. *)
Theorem rearranging_mutations_permute {G} (candidate : ref) (w : world G)
    (c : Candidate G) :
  heap w !! candidate = Some c ->
  (forall r w', swap_mutation candidate w = Ok r w' ->
     exists chrom, allocated w r chrom w' /\ chrom ≡ₚ chromosome c) /\
  (forall r w', scramble_mutation candidate w = Ok r w' ->
     exists chrom, allocated w r chrom w' /\ chrom ≡ₚ chromosome c) /\
  (forall r w', inversion_mutation candidate w = Ok r w' ->
     exists chrom, allocated w r chrom w' /\ chrom ≡ₚ chromosome c) /\
  ((length (chromosome c) < 2)%nat ->
     swap_mutation candidate w = Raise ValueError w /\
     scramble_mutation candidate w = Raise ValueError w /\
     inversion_mutation candidate w = Raise ValueError w).
Proof.
  intros Hc. split_and!.
  - intros r w' H.
    eapply operator_offspring; [apply keeps_heap_swap | | exact H].
    intros chrom w1 Hb.
    destruct (swap_chromosome_Ok _ _ _ _ _ Hc Hb)
      as (i1 & i2 & x1 & x2 & _ & H1 & H2 & ->).
    now apply swap_Permutation.
  - intros r w' H.
    eapply operator_offspring; [apply keeps_heap_scramble | | exact H].
    intros chrom w1 Hb.
    destruct (scramble_chromosome_Ok _ _ _ _ _ Hc Hb)
      as (start & stop & part & Hlt & Hstop & Hp & ->).
    apply slice_assign_Permutation; [lia | lia | exact Hp].
  - intros r w' H.
    eapply operator_offspring; [apply keeps_heap_inversion | | exact H].
    intros chrom w1 Hb.
    destruct (inversion_chromosome_Ok _ _ _ _ _ Hc Hb) as (start & stop & Hlt & Hstop & ->).
    rewrite reverse_Permutation. rewrite take_slice_drop by lia. reflexivity.
  - intros Hlen. split_and!.
    + unfold swap_mutation.
      now rewrite (bind_of_Raise _ _ _ _ _ (swap_chromosome_short _ _ _ Hc Hlen)).
    + unfold scramble_mutation.
      now rewrite (bind_of_Raise _ _ _ _ _ (scramble_chromosome_short _ _ _ Hc Hlen)).
    + unfold inversion_mutation.
      now rewrite (bind_of_Raise _ _ _ _ _ (inversion_chromosome_short _ _ _ Hc Hlen)).
Qed.

Lemma rearranging_mutations_permute_witness :
  exists r w' chrom,
    inversion_mutation 0%nat (population_world [mkCandidate [1; 2; 3; 4] 0%Q] [0; 2]%N)
      = Ok r w' /\
    allocated (population_world [mkCandidate [1; 2; 3; 4] 0%Q] [0; 2]%N) r chrom w' /\
    chrom ≡ₚ [1; 2; 3; 4].
Proof.
  destruct (inversion_mutation 0%nat
              (population_world [mkCandidate [1; 2; 3; 4] 0%Q] [0; 2]%N))
    as [r w'| |] eqn:E; [| vm_compute in E; discriminate ..].
  destruct (rearranging_mutations_permute 0%nat
              (population_world [mkCandidate [1; 2; 3; 4] 0%Q] [0; 2]%N)
              (mkCandidate [1; 2; 3; 4] 0%Q) eq_refl) as (_ & _ & Hinv & _).
  destruct (Hinv r w' E) as (chrom & Ha & Hp).
  exists r, w', chrom. split; [reflexivity |]. split; [exact Ha | exact Hp].
Defined.

(** Inversion mutation reverses one segment [start:stop] with
    [start < stop < len] and keeps the genes before and after it in place. *)
Theorem inversion_mutation_reverses_segment {G} (candidate : ref) (w : world G)
    (c : Candidate G) (r : ref) (w' : world G) :
  heap w !! candidate = Some c ->
  inversion_mutation candidate w = Ok r w' ->
  exists start stop,
    (start < stop)%nat /\ (stop < length (chromosome c))%nat /\
    allocated w r
      (take start (chromosome c) ++ reverse (slice (chromosome c) start stop)
         ++ drop stop (chromosome c)) w'.
Proof.
  intros Hc H.
  destruct (construct_allocates _ _ _ _ (keeps_heap_inversion candidate) H)
    as (chrom & w1 & Hb & Ha).
  destruct (inversion_chromosome_Ok _ _ _ _ _ Hc Hb) as (start & stop & Hlt & Hstop & ->).
  eauto.
Qed.

Lemma inversion_mutation_reverses_segment_witness :
  exists r w',
    inversion_mutation 0%nat (population_world [mkCandidate [1; 2; 3; 4] 0%Q] [0; 2]%N)
      = Ok r w' /\
    heap w' !! r = Some (mkCandidate [3; 2; 1; 4] 0%Q).
Proof.
  destruct (inversion_mutation 0%nat
              (population_world [mkCandidate [1; 2; 3; 4] 0%Q] [0; 2]%N))
    as [r w'| |] eqn:E; [| vm_compute in E; discriminate ..].
  destruct (inversion_mutation_reverses_segment 0%nat
              (population_world [mkCandidate [1; 2; 3; 4] 0%Q] [0; 2]%N)
              (mkCandidate [1; 2; 3; 4] 0%Q) r w' eq_refl E)
    as (start & stop & _ & _ & Hr & Hh).
  exists r, w'. split; [reflexivity |].
  vm_compute in E. injection E as <- <-. reflexivity.
Defined.

(** Boundary mutation overwrites exactly one position, an index of the
    chromosome, with [lower_bound] or [upper_bound]; every other gene is
    copied.  On an empty chromosome it raises [ValueError]. *)
Theorem boundary_mutation_one_gene {G} (candidate : ref) (lo hi : G) (w : world G)
    (c : Candidate G) :
  heap w !! candidate = Some c ->
  (forall r w', boundary_mutation candidate lo hi w = Ok r w' ->
     exists i b, (i < length (chromosome c))%nat /\ (b = lo \/ b = hi) /\
                 allocated w r (<[i := b]> (chromosome c)) w') /\
  (chromosome c = [] -> boundary_mutation candidate lo hi w = Raise ValueError w).
Proof.
  intros Hc. split.
  - intros r w' H.
    destruct (construct_allocates _ _ _ _ (keeps_heap_boundary candidate lo hi) H)
      as (chrom & w1 & Hb & Ha).
    destruct (boundary_chromosome_Ok _ _ _ _ _ _ _ Hc Hb) as (i & b & Hi & Hbv & ->).
    eauto.
  - intros He. unfold boundary_mutation.
    now rewrite (bind_of_Raise _ _ _ _ _ (boundary_chromosome_empty _ _ _ _ _ Hc He)).
Qed.

Lemma boundary_mutation_one_gene_witness :
  exists r w' i b,
    boundary_mutation 0%nat (-5) 5
      (population_world [mkCandidate [1; 2; 3] 0%Q] [1; 0]%N) = Ok r w' /\
    (i < 3)%nat /\ (b = -5 \/ b = 5) /\
    allocated (population_world [mkCandidate [1; 2; 3] 0%Q] [1; 0]%N) r
      (<[i := b]> [1; 2; 3]) w'.
Proof.
  destruct (boundary_mutation 0%nat (-5) 5
              (population_world [mkCandidate [1; 2; 3] 0%Q] [1; 0]%N))
    as [r w'| |] eqn:E; [| vm_compute in E; discriminate ..].
  destruct (proj1 (boundary_mutation_one_gene 0%nat (-5) 5
              (population_world [mkCandidate [1; 2; 3] 0%Q] [1; 0]%N)
              (mkCandidate [1; 2; 3] 0%Q) eq_refl) r w' E) as (i & b & Hi & Hb & Ha).
  exists r, w', i, b. auto.
Defined.

(** *** Chromosome lengths: mutation *)

Lemma uniform_mutation_chromosome_Ok candidate p (w : world Z) chrom w' c :
  heap w !! candidate = Some c ->
  uniform_mutation_chromosome candidate p w = Ok chrom w' ->
  mutate_genes p (chromosome c) w = Ok chrom w'.
Proof.
  intros Hc H. unfold uniform_mutation_chromosome in H.
  now rewrite (bind_of_Ok _ _ _ _ _ (deref_of_lookup _ _ _ Hc)) in H.
Qed.

Lemma multi_point_chromosome_Ok candidate num_points (w : world Z) chrom w' c :
  heap w !! candidate = Some c ->
  multi_point_chromosome candidate num_points w = Ok chrom w' ->
  exists indices w1,
    length indices = Z.to_nat num_points /\ NoDup indices /\
    Forall (fun i => (i < length (chromosome c))%nat) indices /\
    mutate_indices indices (chromosome c) w1 = Ok chrom w'.
Proof.
  intros Hc H. unfold multi_point_chromosome in H.
  rewrite (bind_of_Ok _ _ _ _ _ (deref_of_lookup _ _ _ Hc)) in H.
  apply bind_Ok in H as (indices & w1 & Hs & H).
  apply random_sample_Ok in Hs as (_ & Hlen & Hsub).
  exists indices, w1. split; [exact Hlen |]. split.
  - exact (submseteq_NoDup _ _ Hsub (NoDup_seq 0 _)).
  - split; [| exact H]. apply Forall_forall. intros i Hi.
    pose proof (elem_of_submseteq _ _ _ Hi Hsub) as Hin.
    apply elem_of_seq in Hin. lia.
Qed.

Lemma adaptive_chromosome_Ok candidate population threshold p (w : world Z)
    chrom w' c :
  heap w !! candidate = Some c ->
  adaptive_chromosome candidate population threshold p w = Ok chrom w' ->
  population <> [] /\
  exists p' w1, (p' = p \/ p' = (p * 2)%Q) /\
                mutate_genes p' (chromosome c) w1 = Ok chrom w'.
Proof.
  intros Hc H. unfold adaptive_chromosome in H.
  apply bind_Ok in H as (total & w1 & Hsum & H).
  pose proof (keeps_heap_sum_fitness_from _ _ _ _ _ Hsum) as Hh.
  destruct population as [|x population]; [discriminate |]. split; [discriminate |].
  cbn [length Nat.eqb] in H.
  apply bind_Ok in H as (c' & w2 & Hd & H). apply deref_Ok in Hd as [Hd ->].
  apply bind_Ok in H as (c'' & w2 & Hd' & H). apply deref_Ok in Hd' as [Hd' ->].
  rewrite Hh, Hc in Hd'. injection Hd' as <-.
  destruct (Qltb _ _); eauto.
Qed.

Lemma uniform_mutation_chromosome_length candidate p (w : world Z) chrom w' c :
  heap w !! candidate = Some c ->
  uniform_mutation_chromosome candidate p w = Ok chrom w' ->
  length chrom = length (chromosome c).
Proof.
  intros Hc Hb. apply (uniform_mutation_chromosome_Ok _ _ _ _ _ _ Hc) in Hb.
  apply mutate_genes_Ok in Hb. symmetry. exact (Forall2_length _ _ _ Hb).
Qed.

Lemma multi_point_chromosome_length candidate num_points (w : world Z) chrom w' c :
  heap w !! candidate = Some c ->
  multi_point_chromosome candidate num_points w = Ok chrom w' ->
  length chrom = length (chromosome c).
Proof.
  intros Hc Hb.
  destruct (multi_point_chromosome_Ok _ _ _ _ _ _ Hc Hb) as (ix & w2 & _ & _ & _ & Hm).
  now apply mutate_indices_Ok in Hm as (Hl & _).
Qed.

Lemma gaussian_chromosome_length gv candidate mean stddev (w : world Q) chrom w' c :
  heap w !! candidate = Some c ->
  gaussian_chromosome gv candidate mean stddev w = Ok chrom w' ->
  length chrom = length (chromosome c).
Proof.
  intros Hc Hb. unfold gaussian_chromosome in Hb.
  rewrite (bind_of_Ok _ _ _ _ _ (deref_of_lookup _ _ _ Hc)) in Hb.
  now apply gaussian_genes_length in Hb.
Qed.

Lemma boundary_chromosome_length {G} candidate (lo hi : G) (w : world G) chrom w' c :
  heap w !! candidate = Some c ->
  boundary_chromosome candidate lo hi w = Ok chrom w' ->
  length chrom = length (chromosome c).
Proof.
  intros Hc Hb.
  destruct (boundary_chromosome_Ok _ _ _ _ _ _ _ Hc Hb) as (i & b & _ & _ & ->).
  apply length_insert.
Qed.

Lemma swap_chromosome_length {G} candidate (w : world G) chrom w' c :
  heap w !! candidate = Some c ->
  swap_chromosome candidate w = Ok chrom w' ->
  length chrom = length (chromosome c).
Proof.
  intros Hc Hb.
  destruct (swap_chromosome_Ok _ _ _ _ _ Hc Hb) as (i1 & i2 & x1 & x2 & _ & _ & _ & ->).
  now rewrite !length_insert.
Qed.

Lemma scramble_chromosome_length {G} candidate (w : world G) chrom w' c :
  heap w !! candidate = Some c ->
  scramble_chromosome candidate w = Ok chrom w' ->
  length chrom = length (chromosome c).
Proof.
  intros Hc Hb.
  destruct (scramble_chromosome_Ok _ _ _ _ _ Hc Hb)
    as (start & stop & part & Hlt & Hstop & Hp & ->).
  apply Permutation_length, slice_assign_Permutation; [lia | lia | exact Hp].
Qed.

Lemma inversion_chromosome_length {G} candidate (w : world G) chrom w' c :
  heap w !! candidate = Some c ->
  inversion_chromosome candidate w = Ok chrom w' ->
  length chrom = length (chromosome c).
Proof.
  intros Hc Hb.
  destruct (inversion_chromosome_Ok _ _ _ _ _ Hc Hb) as (start & stop & Hlt & Hstop & ->).
  apply Permutation_length.
  rewrite reverse_Permutation. rewrite take_slice_drop by lia. reflexivity.
Qed.

Lemma non_uniform_chromosome_length candidate generation max_generations p (w : world Q)
    chrom w' c :
  heap w !! candidate = Some c ->
  non_uniform_chromosome candidate generation max_generations p w = Ok chrom w' ->
  length chrom = length (chromosome c).
Proof.
  intros Hc Hb. unfold non_uniform_chromosome in Hb.
  rewrite (bind_of_Ok _ _ _ _ _ (deref_of_lookup _ _ _ Hc)) in Hb.
  now apply non_uniform_genes_length in Hb.
Qed.

Lemma adaptive_chromosome_length candidate population threshold p (w : world Z)
    chrom w' c :
  heap w !! candidate = Some c ->
  adaptive_chromosome candidate population threshold p w = Ok chrom w' ->
  length chrom = length (chromosome c).
Proof.
  intros Hc Hb.
  destruct (adaptive_chromosome_Ok _ _ _ _ _ _ _ _ Hc Hb) as (_ & p' & w2 & _ & Hm).
  apply mutate_genes_Ok in Hm. symmetry. exact (Forall2_length _ _ _ Hm).
Qed.

(** Every mutation operator returns a chromosome as long as its input. *)
Theorem mutation_keeps_length :
  (forall c p (w : world Z) x r w',
     heap w !! c = Some x -> uniform_mutation c p w = Ok r w' ->
     exists chrom, allocated w r chrom w' /\ length chrom = length (chromosome x)) /\
  (forall c n (w : world Z) x r w',
     heap w !! c = Some x -> multi_point_mutation c n w = Ok r w' ->
     exists chrom, allocated w r chrom w' /\ length chrom = length (chromosome x)) /\
  (forall gv c mean stddev (w : world Q) x r w',
     heap w !! c = Some x -> gaussian_mutation gv c mean stddev w = Ok r w' ->
     exists chrom, allocated w r chrom w' /\ length chrom = length (chromosome x)) /\
  (forall G c (lo hi : G) (w : world G) x r w',
     heap w !! c = Some x -> boundary_mutation c lo hi w = Ok r w' ->
     exists chrom, allocated w r chrom w' /\ length chrom = length (chromosome x)) /\
  (forall G c (w : world G) x r w',
     heap w !! c = Some x -> swap_mutation c w = Ok r w' ->
     exists chrom, allocated w r chrom w' /\ length chrom = length (chromosome x)) /\
  (forall G c (w : world G) x r w',
     heap w !! c = Some x -> scramble_mutation c w = Ok r w' ->
     exists chrom, allocated w r chrom w' /\ length chrom = length (chromosome x)) /\
  (forall G c (w : world G) x r w',
     heap w !! c = Some x -> inversion_mutation c w = Ok r w' ->
     exists chrom, allocated w r chrom w' /\ length chrom = length (chromosome x)) /\
  (forall c g mg p (w : world Q) x r w',
     heap w !! c = Some x -> non_uniform_mutation c g mg p w = Ok r w' ->
     exists chrom, allocated w r chrom w' /\ length chrom = length (chromosome x)) /\
  (forall c pop t p (w : world Z) x r w',
     heap w !! c = Some x -> adaptive_mutation c pop t p w = Ok r w' ->
     exists chrom, allocated w r chrom w' /\ length chrom = length (chromosome x)).
Proof.
  split_and!.
  - intros c p w x r w' Hc H.
    eapply operator_offspring; [apply keeps_heap_uniform_mutation | | exact H].
    intros chrom w1. now apply uniform_mutation_chromosome_length.
  - intros c n w x r w' Hc H.
    eapply operator_offspring; [apply keeps_heap_multi_point | | exact H].
    intros chrom w1. now apply multi_point_chromosome_length.
  - intros gv c mean stddev w x r w' Hc H.
    eapply operator_offspring; [apply keeps_heap_gaussian | | exact H].
    intros chrom w1. now apply gaussian_chromosome_length.
  - intros G c lo hi w x r w' Hc H.
    eapply operator_offspring; [apply keeps_heap_boundary | | exact H].
    intros chrom w1. now apply boundary_chromosome_length.
  - intros G c w x r w' Hc H.
    eapply operator_offspring; [apply keeps_heap_swap | | exact H].
    intros chrom w1. now apply swap_chromosome_length.
  - intros G c w x r w' Hc H.
    eapply operator_offspring; [apply keeps_heap_scramble | | exact H].
    intros chrom w1. now apply scramble_chromosome_length.
  - intros G c w x r w' Hc H.
    eapply operator_offspring; [apply keeps_heap_inversion | | exact H].
    intros chrom w1. now apply inversion_chromosome_length.
  - intros c g mg p w x r w' Hc H.
    eapply operator_offspring; [apply keeps_heap_non_uniform | | exact H].
    intros chrom w1. now apply non_uniform_chromosome_length.
  - intros c pop t p w x r w' Hc H.
    eapply operator_offspring; [apply keeps_heap_adaptive | | exact H].
    intros chrom w1. now apply adaptive_chromosome_length.
Qed.

Lemma mutation_keeps_length_witness :
  exists r w' chrom,
    swap_mutation 0%nat (population_world [mkCandidate [1; 2; 3] 0%Q] [0; 1]%N)
      = Ok r w' /\
    allocated (population_world [mkCandidate [1; 2; 3] 0%Q] [0; 1]%N) r chrom w' /\
    length chrom = 3%nat.
Proof.
  destruct (swap_mutation 0%nat (population_world [mkCandidate [1; 2; 3] 0%Q] [0; 1]%N))
    as [r w'| |] eqn:E; [| vm_compute in E; discriminate ..].
  destruct (proj1 (proj2 (proj2 (proj2 (proj2 mutation_keeps_length)))) Z 0%nat
              (population_world [mkCandidate [1; 2; 3] 0%Q] [0; 1]%N)
              (mkCandidate [1; 2; 3] 0%Q) r w' eq_refl E) as (chrom & Ha & Hl).
  exists r, w', chrom. auto.
Defined.

(** *** Which genes change *)

Lemma mutate_genes_total p genes : forall (w : world Z),
  exists gs w', mutate_genes p genes w = Ok gs w'.
Proof.
  induction genes as [|g genes IH]; intros w; cbn [mutate_genes].
  - unfold ret. eauto.
  - unfold bind at 1. unfold random_random at 1. unfold bind at 1. unfold draw, ret.
    destruct (Qltb _ p).
    + erewrite bind_of_Ok by (apply randint_eq; lia).
      destruct (IH (World (heap w) (draws w) (S (S (cursor w))))) as (gs & w' & Hgs).
      cbn [heap draws cursor].
      rewrite (bind_of_Ok _ _ _ _ _ Hgs). eauto.
    + unfold bind at 1.
      destruct (IH (World (heap w) (draws w) (S (cursor w)))) as (gs & w' & Hgs).
      rewrite (bind_of_Ok _ _ _ _ _ Hgs). eauto.
Qed.

(** Uniform mutation always returns; each gene of the result is the input
    gene or a value of [0..100]; with a mutation probability that is not
    positive the chromosome is copied unchanged, and with one of at least 1
    every gene is redrawn from [0..100]. *)
Theorem uniform_mutation_genes (candidate : ref) (p : Q) (w : world Z)
    (c : Candidate Z) :
  heap w !! candidate = Some c ->
  (exists r w', uniform_mutation candidate p w = Ok r w') /\
  (forall r w', uniform_mutation candidate p w = Ok r w' ->
     exists chrom,
       allocated w r chrom w' /\
       Forall2 (fun old new => new = old \/ 0 <= new <= 100) (chromosome c) chrom /\
       ((p <= 0)%Q -> chrom = chromosome c) /\
       ((1 <= p)%Q -> Forall (fun g => 0 <= g <= 100) chrom)).
Proof.
  intros Hc. split.
  - unfold uniform_mutation, uniform_mutation_chromosome.
    rewrite bind_assoc, (bind_of_Ok _ _ _ _ _ (deref_of_lookup _ _ _ Hc)).
    destruct (mutate_genes_total p (chromosome c) w) as (gs & w1 & Hgs).
    rewrite (bind_of_Ok _ _ _ _ _ Hgs). unfold new_Candidate. eauto.
  - intros r w' H.
    eapply operator_offspring; [apply keeps_heap_uniform_mutation | | exact H].
    intros chrom w1 Hb. apply (uniform_mutation_chromosome_Ok _ _ _ _ _ _ Hc) in Hb.
    split; [now apply mutate_genes_Ok in Hb |]. split.
    + intros Hp. now apply mutate_genes_never in Hb.
    + intros Hp. now apply mutate_genes_always in Hb as [_ Hall].
Qed.

Lemma uniform_mutation_genes_witness :
  exists r w' chrom,
    uniform_mutation 0%nat 0
      (population_world [mkCandidate [1; 2; 3] (7 # 1)] [5; 6; 7]%N) = Ok r w' /\
    allocated (population_world [mkCandidate [1; 2; 3] (7 # 1)] [5; 6; 7]%N) r chrom w' /\
    chrom = [1; 2; 3].
Proof.
  destruct (uniform_mutation_genes 0%nat 0
              (population_world [mkCandidate [1; 2; 3] (7 # 1)] [5; 6; 7]%N)
              (mkCandidate [1; 2; 3] (7 # 1)) eq_refl) as [(r & w' & Hrun) Hgenes].
  destruct (Hgenes r w' Hrun) as (chrom & Ha & _ & Hcopy & _).
  exists r, w', chrom. split; [exact Hrun |]. split; [exact Ha |].
  apply Hcopy. apply Qle_refl.
Defined.

(** Multi-point mutation redraws exactly the [num_points] distinct
    positions it sampled: genes elsewhere are copied, genes there are in
    [0..100].  Asking for more points than there are genes, or for a
    negative number, raises [ValueError]. *)
Theorem multi_point_mutation_positions (candidate : ref) (num_points : Z)
    (w : world Z) (c : Candidate Z) :
  heap w !! candidate = Some c ->
  (num_points < 0 \/ Z.of_nat (length (chromosome c)) < num_points ->
     multi_point_mutation candidate num_points w = Raise ValueError w) /\
  (forall r w', multi_point_mutation candidate num_points w = Ok r w' ->
     exists chrom indices,
       allocated w r chrom w' /\
       length indices = Z.to_nat num_points /\ NoDup indices /\
       Forall (fun i => (i < length (chromosome c))%nat) indices /\
       (forall i, i ∉ indices -> chrom !! i = chromosome c !! i) /\
       (forall i g, i ∈ indices -> chrom !! i = Some g -> 0 <= g <= 100)).
Proof.
  intros Hc. split.
  - intros Hn. unfold multi_point_mutation, multi_point_chromosome.
    rewrite bind_assoc, (bind_of_Ok _ _ _ _ _ (deref_of_lookup _ _ _ Hc)).
    rewrite bind_assoc.
    rewrite (bind_of_Raise _ _ _ _ _ (random_sample_too_many _ _ w
               ltac:(rewrite length_seq; exact Hn))).
    reflexivity.
  - intros r w' H.
    destruct (construct_allocates _ _ _ _ (keeps_heap_multi_point candidate num_points) H)
      as (chrom & w1 & Hb & Ha).
    destruct (multi_point_chromosome_Ok _ _ _ _ _ _ Hc Hb)
      as (ix & w2 & Hlen & Hnd & Hrange & Hm).
    apply mutate_indices_Ok in Hm as (_ & Hout & Hin).
    exists chrom, ix. split_and!; auto.
Qed.

Lemma multi_point_mutation_positions_witness :
  multi_point_mutation 0%nat 4
    (population_world [mkCandidate [1; 2; 3] 0%Q] []%N)
  = Raise ValueError (population_world [mkCandidate [1; 2; 3] 0%Q] []%N).
Proof.
  apply (proj1 (multi_point_mutation_positions 0%nat 4
                  (population_world [mkCandidate [1; 2; 3] 0%Q] []%N)
                  (mkCandidate [1; 2; 3] 0%Q) eq_refl)).
  right. cbn. lia.
Defined.

(** Adaptive mutation on an empty population raises [ZeroDivisionError]
    before it draws anything; otherwise each gene of the result is the
    input gene or a value of [0..100]. *)
Theorem adaptive_mutation_population (candidate : ref) (population : list ref)
    (threshold p : Q) (w : world Z) (c : Candidate Z) :
  heap w !! candidate = Some c ->
  (population = [] ->
     adaptive_mutation candidate population threshold p w = Raise ZeroDivisionError w) /\
  (forall r w', adaptive_mutation candidate population threshold p w = Ok r w' ->
     population <> [] /\
     exists chrom,
       allocated w r chrom w' /\
       Forall2 (fun old new => new = old \/ 0 <= new <= 100) (chromosome c) chrom).
Proof.
  intros Hc. split.
  - intros ->. reflexivity.
  - intros r w' H.
    destruct (construct_allocates _ _ _ _
                (keeps_heap_adaptive candidate population threshold p) H)
      as (chrom & w1 & Hb & Ha).
    destruct (adaptive_chromosome_Ok _ _ _ _ _ _ _ _ Hc Hb) as (Hne & p' & w2 & _ & Hm).
    split; [exact Hne |]. exists chrom. split; [exact Ha |].
    now apply mutate_genes_Ok in Hm.
Qed.

Lemma adaptive_mutation_population_witness :
  adaptive_mutation 0%nat [] (1 # 10) (1 # 10)
    (population_world [mkCandidate [1; 2; 3] 0%Q] []%N)
  = Raise ZeroDivisionError (population_world [mkCandidate [1; 2; 3] 0%Q] []%N).
Proof.
  apply (proj1 (adaptive_mutation_population 0%nat [] (1 # 10) (1 # 10)
                  (population_world [mkCandidate [1; 2; 3] 0%Q] []%N)
                  (mkCandidate [1; 2; 3] 0%Q) eq_refl)).
  reflexivity.
Defined.

(** *** Non-uniform mutation *)






(** With [max_generations = 0] the first gene that is picked for mutation
    raises [ZeroDivisionError]: certainly so when the mutation probability
    is at least 1 and there is a gene. *)
Theorem non_uniform_mutation_zero_generations (candidate : ref) (generation : Z)
    (p : Q) (w : world Q) (c : Candidate Q) :
  heap w !! candidate = Some c -> chromosome c <> [] -> (1 <= p)%Q ->
  raised (non_uniform_mutation candidate generation 0 p w) = Some ZeroDivisionError.
Proof.
  intros Hc Hne Hp. unfold non_uniform_mutation, non_uniform_chromosome.
  rewrite bind_assoc, (bind_of_Ok _ _ _ _ _ (deref_of_lookup _ _ _ Hc)).
  destruct (chromosome c) as [|g genes]; [congruence |].
  cbn [non_uniform_genes]. unfold bind at 1. unfold bind at 1.
  unfold random_random at 1. unfold bind at 1. unfold draw, ret.
  destruct (random_unit_range (draws w (cursor w))) as [_ Hu].
  assert (Hq : Qltb (random_unit (draws w (cursor w))) p = true)
    by (apply Qltb_lt; lra).
  rewrite Hq. reflexivity.
Qed.

Lemma non_uniform_mutation_zero_generations_witness :
  raised (non_uniform_mutation 0%nat 3 0 1
            (population_world [mkCandidate [1; 2]%Q 0%Q] []%N))
  = Some ZeroDivisionError.
Proof.
  apply (non_uniform_mutation_zero_generations 0%nat 3 1
           (population_world [mkCandidate [1; 2]%Q 0%Q] []%N)
           (mkCandidate [1; 2]%Q 0%Q) eq_refl).
  - discriminate.
  - apply Qle_refl.
Defined.

(* ===================================================================== *)
(** ** Where the genes of an offspring come from *)
(* ===================================================================== *)

Section CrossoverGenes.
Context {G : Type}.
Implicit Types (w : world G) (c : Candidate G).

Lemma uniform_genes_Ok (pairs : list (G * G)) : forall w gs w',
  uniform_genes pairs w = Ok gs w' ->
  Forall2 (fun pair g => g = fst pair \/ g = snd pair) pairs gs.
Proof.
  induction pairs as [|[g1 g2] pairs IH]; intros w gs w' H; cbn [uniform_genes] in H.
  - apply ret_Ok in H as [<- _]. constructor.
  - apply bind_Ok in H as (g & w1 & Hg & H).
    apply bind_Ok in H as (gs' & w2 & Hgs & H). apply ret_Ok in H as [<- _].
    constructor; [| eauto].
    apply random_choice_Ok in Hg as [Hg _].
    apply elem_of_cons in Hg as [-> | Hg]; [now left |].
    apply list_elem_of_singleton in Hg as ->. now right.
Qed.

Lemma uniform_genes_total (pairs : list (G * G)) : forall w,
  exists gs w', uniform_genes pairs w = Ok gs w'.
Proof.
  induction pairs as [|[g1 g2] pairs IH]; intros w; cbn [uniform_genes].
  - unfold ret. eauto.
  - rewrite (bind_of_Ok _ _ _ _ _ (random_choice_eq g1 [g2] w)).
    destruct (IH (advance w)) as (gs & w' & Hgs).
    rewrite (bind_of_Ok _ _ _ _ _ Hgs). unfold ret. eauto.
Qed.

Lemma zip_positional (c1 c2 : list G) gs :
  Forall2 (fun pair g => g = fst pair \/ g = snd pair) (zip c1 c2) gs ->
  positional c1 c2 gs.
Proof.
  intros HF i g Hg.
  destruct (Forall2_lookup_r _ _ _ _ _ HF Hg) as ([g1 g2] & Hz & Hor).
  apply lookup_zip_with_Some in Hz as (x & y & [= <- <-] & Hx & Hy).
  destruct Hor as [-> | ->]; auto.
Qed.

(** Uniform crossover always returns on live parents; the offspring is as
    long as the shorter parent and takes each gene from one of the parents
    at the same position. *)
Theorem uniform_crossover_genes (parent1 parent2 : ref) w c1 c2 :
  heap w !! parent1 = Some c1 -> heap w !! parent2 = Some c2 ->
  (exists r w', uniform_crossover parent1 parent2 w = Ok r w') /\
  (forall r w', uniform_crossover parent1 parent2 w = Ok r w' ->
     exists chrom,
       allocated w r chrom w' /\
       length chrom = Nat.min (length (chromosome c1)) (length (chromosome c2)) /\
       positional (chromosome c1) (chromosome c2) chrom).
Proof.
  intros Hc1 Hc2. split.
  - unfold uniform_crossover, uniform_crossover_chromosome.
    rewrite bind_assoc, (bind_of_Ok _ _ _ _ _ (deref_of_lookup _ _ _ Hc1)).
    rewrite bind_assoc, (bind_of_Ok _ _ _ _ _ (deref_of_lookup _ _ _ Hc2)).
    destruct (uniform_genes_total (zip (chromosome c1) (chromosome c2)) w)
      as (gs & w1 & Hgs).
    rewrite (bind_of_Ok _ _ _ _ _ Hgs). unfold new_Candidate. eauto.
  - intros r w' H.
    eapply operator_offspring; [apply keeps_heap_uniform_crossover | | exact H].
    intros chrom w1 Hb. unfold uniform_crossover_chromosome in Hb.
    rewrite (bind_of_Ok _ _ _ _ _ (deref_of_lookup _ _ _ Hc1)) in Hb.
    rewrite (bind_of_Ok _ _ _ _ _ (deref_of_lookup _ _ _ Hc2)) in Hb.
    split.
    + apply uniform_genes_length in Hb. now rewrite Hb, length_zip.
    + apply zip_positional. now apply uniform_genes_Ok in Hb.
Qed.

(** *** n-point crossover *)

Lemma slice_lookup (l : list G) a b j :
  (j < b - a)%nat -> slice l a b !! j = l !! (a + j)%nat.
Proof. intros Hj. unfold slice. rewrite lookup_take_lt by lia. apply lookup_drop. Qed.

Lemma n_point_segments_positional (c1 c2 : list G) L :
  length c1 = L -> length c2 = L ->
  forall points swap prev off,
    ascending prev points -> Forall (fun p => (p <= L)%nat) points ->
    length off = prev -> positional c1 c2 off ->
    positional c1 c2 (n_point_segments points swap prev c1 c2 off).
Proof.
  intros H1 H2. induction points as [|p points IH];
    intros swap prev off Hasc Hall Hlen Hpos; [exact Hpos |].
  destruct Hasc as [Hpp Hasc]. inversion Hall as [|? ? HpL Hall']; subst.
  cbn [n_point_segments]. apply IH; [exact Hasc | exact Hall' | |].
  - rewrite length_app, slice_length; [lia | exact Hpp |].
    destruct swap; [rewrite H2 |]; exact HpL.
  - intros i g Hg. apply lookup_app_Some in Hg as [Hg | [Hi Hg]]; [now apply Hpos |].
    assert (Hj : (i - length off < p - length off)%nat).
    { apply lookup_lt_Some in Hg. rewrite slice_length in Hg; [exact Hg | exact Hpp |].
      destruct swap; [rewrite H2 |]; exact HpL. }
    rewrite slice_lookup in Hg by exact Hj.
    replace (length off + (i - length off))%nat with i in Hg by lia.
    destruct swap; auto.
Qed.

(** n-point crossover on parents of equal length: the offspring has that
    length and takes each gene from one of the parents at the same
    position; with no crossover point it is a copy of the first parent;
    asking for more points than there are cut positions ([len - 1]), or for
    a negative number, raises [ValueError]. *)
Theorem n_point_crossover_genes (parent1 parent2 : ref) (n_points : Z) w c1 c2 :
  heap w !! parent1 = Some c1 -> heap w !! parent2 = Some c2 ->
  length (chromosome c1) = length (chromosome c2) ->
  (n_points < 0 \/ Z.of_nat (length (chromosome c1) - 1) < n_points ->
     n_point_crossover parent1 parent2 n_points w = Raise ValueError w) /\
  (forall r w', n_point_crossover parent1 parent2 n_points w = Ok r w' ->
     exists chrom,
       allocated w r chrom w' /\
       length chrom = length (chromosome c1) /\
       positional (chromosome c1) (chromosome c2) chrom /\
       (n_points = 0 -> chrom = chromosome c1)).
Proof.
  intros Hc1 Hc2 Hlen. split.
  - intros Hn. unfold n_point_crossover, n_point_chromosome.
    rewrite bind_assoc, (bind_of_Ok _ _ _ _ _ (deref_of_lookup _ _ _ Hc1)).
    rewrite bind_assoc.
    rewrite (bind_of_Raise _ _ _ _ _ (random_sample_too_many _ _ w
               ltac:(rewrite length_seq; exact Hn))).
    reflexivity.
  - intros r w' H.
    eapply operator_offspring; [apply keeps_heap_n_point | | exact H].
    intros chrom w1 Hb.
    split; [now apply n_point_chromosome_length with (c2 := c2) (1 := Hc1) (2 := Hc2)
                  in Hb |].
    unfold n_point_chromosome in Hb.
    rewrite (bind_of_Ok _ _ _ _ _ (deref_of_lookup _ _ _ Hc1)) in Hb.
    apply bind_Ok in Hb as (picked & w2 & Hpick & Hb).
    pose proof (keeps_heap_random_sample _ _ _ _ _ Hpick) as Hh1.
    apply random_sample_Ok in Hpick as (_ & Hplen & Hsub).
    pose proof (sampled_points_bounded _ _ Hsub) as Hbound.
    pose proof (sorted_nat_ascending picked) as Hasc.
    apply bind_Ok in Hb as (chromosome2 & w3 & H2 & Hb).
    apply ret_Ok in Hb as [<- _].
    assert (Hcopy : n_point_segments [length (chromosome c1)] false 0
                      (chromosome c1) chromosome2 [] = chromosome c1).
    { cbn. unfold slice. now rewrite drop_0, Nat.sub_0_r, firstn_all. }
    split.
    + destruct (sorted_nat picked) as [|p points] eqn:Hs.
      * cbn [app]. rewrite Hcopy. intros i g Hg. now left.
      * apply bind_Ok in H2 as (c2' & w4 & Hd & H2). apply deref_Ok in Hd as [Hd ->].
        rewrite Hh1, Hc2 in Hd. injection Hd as <-. apply ret_Ok in H2 as [<- _].
        apply (n_point_segments_positional _ _ (length (chromosome c1)) eq_refl
                 (eq_sym Hlen)).
        -- apply ascending_snoc; [exact Hasc | exact Hbound | lia].
        -- apply Forall_app. split; [exact Hbound |]. constructor; [lia | constructor].
        -- reflexivity.
        -- intros i g Hg. discriminate.
    + intros ->. destruct picked; [| discriminate]. cbn [sorted_nat foldr app].
      exact Hcopy.
Qed.
End CrossoverGenes.

Lemma n_point_crossover_genes_witness :
  exists r w',
    n_point_crossover 0%nat 1%nat 1
      (population_world [mkCandidate [1; 1; 1; 1] 0%Q; mkCandidate [9; 9; 9; 9] 0%Q]
         [1]%N) = Ok r w' /\
    heap w' !! r = Some (mkCandidate [1; 1; 9; 9] 0%Q).
Proof.
  destruct (n_point_crossover 0%nat 1%nat 1
      (population_world [mkCandidate [1; 1; 1; 1] 0%Q; mkCandidate [9; 9; 9; 9] 0%Q]
         [1]%N)) as [r w'| |] eqn:E; [| vm_compute in E; discriminate ..].
  destruct (proj2 (n_point_crossover_genes 0%nat 1%nat 1
      (population_world [mkCandidate [1; 1; 1; 1] 0%Q; mkCandidate [9; 9; 9; 9] 0%Q]
         [1]%N) (mkCandidate [1; 1; 1; 1] 0%Q) (mkCandidate [9; 9; 9; 9] 0%Q)
      eq_refl eq_refl eq_refl) r w' E) as (chrom & _ & _ & _ & _).
  exists r, w'. split; [reflexivity |].
  vm_compute in E. injection E as <- <-. reflexivity.
Defined.

Lemma uniform_crossover_genes_witness :
  exists r w' chrom,
    uniform_crossover 0%nat 1%nat
      (population_world [mkCandidate [1; 2; 3] 0%Q; mkCandidate [7; 8] 0%Q] [1; 0]%N)
      = Ok r w' /\
    allocated
      (population_world [mkCandidate [1; 2; 3] 0%Q; mkCandidate [7; 8] 0%Q] [1; 0]%N)
      r chrom w' /\
    length chrom = 2%nat.
Proof.
  destruct (uniform_crossover_genes 0%nat 1%nat
      (population_world [mkCandidate [1; 2; 3] 0%Q; mkCandidate [7; 8] 0%Q] [1; 0]%N)
      (mkCandidate [1; 2; 3] 0%Q) (mkCandidate [7; 8] 0%Q) eq_refl eq_refl)
    as [(r & w' & Hrun) Hgenes].
  destruct (Hgenes r w' Hrun) as (chrom & Ha & Hl & _).
  exists r, w', chrom. auto.
Defined.

(** *** Real-valued crossover *)









(* ===================================================================== *)
(** ** Chromosome lengths across the operators *)
(* ===================================================================== *)

Lemma offspring_length_of {G} (body : M G (list G)) (w : world G) (n : nat) :
  keeps_heap body ->
  (forall chrom w1, body w = Ok chrom w1 -> length chrom = n) ->
  offspring_length (bind body (fun chrom => new_Candidate chrom 0%Q)) w n.
Proof.
  intros Hk Hlen r w' H. eapply operator_offspring; [exact Hk | exact Hlen | exact H].
Qed.

(** C8.  For parents with chromosomes of equal length, n-point, uniform,
    arithmetic and blend crossover (and order crossover) return an
    offspring of that length; each of the nine mutation operators returns
    a chromosome as long as its input.  Cut-and-splice crossover is the
    exception: its offspring has between 1 and [len1 + len2 - 1] genes,
    and two parents of three genes can give an offspring of five. *)
Theorem operators_keep_length :
  (forall G (w : world G) p1 p2 c1 c2,
     heap w !! p1 = Some c1 -> heap w !! p2 = Some c2 ->
     length (chromosome c1) = length (chromosome c2) ->
     (forall n, offspring_length (n_point_crossover p1 p2 n) w (length (chromosome c1))) /\
     offspring_length (uniform_crossover p1 p2) w (length (chromosome c1)) /\
     (forall H : EqDecision G,
        offspring_length (order_crossover p1 p2) w (length (chromosome c1)))) /\
  (forall (w : world Q) p1 p2 c1 c2 alpha,
     heap w !! p1 = Some c1 -> heap w !! p2 = Some c2 ->
     length (chromosome c1) = length (chromosome c2) ->
     offspring_length (arithmetic_crossover p1 p2 alpha) w (length (chromosome c1)) /\
     offspring_length (blend_crossover p1 p2 alpha) w (length (chromosome c1))) /\
  (forall G (w : world G) c x (lo hi : G),
     heap w !! c = Some x ->
     offspring_length (swap_mutation c) w (length (chromosome x)) /\
     offspring_length (scramble_mutation c) w (length (chromosome x)) /\
     offspring_length (inversion_mutation c) w (length (chromosome x)) /\
     offspring_length (boundary_mutation c lo hi) w (length (chromosome x))) /\
  (forall (w : world Z) c x p n pop t,
     heap w !! c = Some x ->
     offspring_length (uniform_mutation c p) w (length (chromosome x)) /\
     offspring_length (multi_point_mutation c n) w (length (chromosome x)) /\
     offspring_length (adaptive_mutation c pop t p) w (length (chromosome x))) /\
  (forall (w : world Q) c x gv mean stddev g mg p,
     heap w !! c = Some x ->
     offspring_length (gaussian_mutation gv c mean stddev) w (length (chromosome x)) /\
     offspring_length (non_uniform_mutation c g mg p) w (length (chromosome x))) /\
  (forall G (w : world G) p1 p2 c1 c2 r w',
     heap w !! p1 = Some c1 -> heap w !! p2 = Some c2 ->
     cut_and_splice_crossover p1 p2 w = Ok r w' ->
     exists chrom,
       allocated w r chrom w' /\
       (1 <= length chrom <= length (chromosome c1) + length (chromosome c2) - 1)%nat) /\
  (exists r w' chrom,
     cut_and_splice_crossover 0%nat 1%nat
       (population_world [mkCandidate [1; 2; 3] 0%Q; mkCandidate [7; 8; 9] 0%Q] [2; 0]%N)
       = Ok r w' /\
     allocated
       (population_world [mkCandidate [1; 2; 3] 0%Q; mkCandidate [7; 8; 9] 0%Q] [2; 0]%N)
       r chrom w' /\
     length chrom = 5%nat).
Proof.
  split_and!.
  - intros G w p1 p2 c1 c2 Hc1 Hc2 Hlen. split_and!.
    + intros n. apply offspring_length_of; [apply keeps_heap_n_point |].
      intros chrom w1. now apply n_point_chromosome_length with (c2 := c2).
    + apply offspring_length_of; [apply keeps_heap_uniform_crossover |].
      intros chrom w1. now apply uniform_crossover_chromosome_length with (c2 := c2).
    + intros H. apply offspring_length_of; [apply keeps_heap_order |].
      intros chrom w1. now apply order_chromosome_length with (c2 := c2).
  - intros w p1 p2 c1 c2 alpha Hc1 Hc2 Hlen. split.
    + apply offspring_length_of; [apply keeps_heap_arithmetic |].
      intros chrom w1. now apply arithmetic_chromosome_length with (c2 := c2).
    + apply offspring_length_of; [apply keeps_heap_blend |].
      intros chrom w1. now apply blend_chromosome_length with (c2 := c2).
  - intros G w c x lo hi Hc. split_and!.
    + apply offspring_length_of; [apply keeps_heap_swap |].
      intros chrom w1. now apply swap_chromosome_length.
    + apply offspring_length_of; [apply keeps_heap_scramble |].
      intros chrom w1. now apply scramble_chromosome_length.
    + apply offspring_length_of; [apply keeps_heap_inversion |].
      intros chrom w1. now apply inversion_chromosome_length.
    + apply offspring_length_of; [apply keeps_heap_boundary |].
      intros chrom w1. now apply boundary_chromosome_length.
  - intros w c x p n pop t Hc. split_and!.
    + apply offspring_length_of; [apply keeps_heap_uniform_mutation |].
      intros chrom w1. now apply uniform_mutation_chromosome_length.
    + apply offspring_length_of; [apply keeps_heap_multi_point |].
      intros chrom w1. now apply multi_point_chromosome_length.
    + apply offspring_length_of; [apply keeps_heap_adaptive |].
      intros chrom w1. now apply adaptive_chromosome_length.
  - intros w c x gv mean stddev g mg p Hc. split.
    + apply offspring_length_of; [apply keeps_heap_gaussian |].
      intros chrom w1. now apply gaussian_chromosome_length.
    + apply offspring_length_of; [apply keeps_heap_non_uniform |].
      intros chrom w1. now apply non_uniform_chromosome_length.
  - intros G w p1 p2 c1 c2 r w' Hc1 Hc2 H.
    destruct (construct_allocates _ _ _ _ (keeps_heap_cut_and_splice p1 p2) H)
      as (chrom & w1 & Hbody & Halloc).
    exists chrom. split; [exact Halloc |].
    unfold cut_and_splice_chromosome in Hbody.
    rewrite (bind_of_Ok _ _ _ _ _ (deref_of_lookup _ _ _ Hc1)) in Hbody.
    apply bind_Ok in Hbody as (cut1 & w2 & Hcut1 & Hbody).
    pose proof (keeps_heap_randint _ _ _ _ _ Hcut1) as Hh2.
    apply randint_range in Hcut1.
    apply bind_Ok in Hbody as (c2' & w3 & Hd & Hbody). apply deref_Ok in Hd as [Hd ->].
    rewrite Hh2, Hc2 in Hd. injection Hd as <-.
    apply bind_Ok in Hbody as (cut2 & w4 & Hcut2 & Hbody).
    apply randint_range in Hcut2. apply ret_Ok in Hbody as [<- _].
    unfold slice_to, slice_from. destruct (Z.ltb_spec cut1 0); [lia |].
    rewrite length_app, length_take, length_drop. lia.
  - eexists _, _, _. split; [vm_compute; reflexivity |].
    split; [split; reflexivity | reflexivity].
Qed.

Lemma operators_keep_length_witness :
  exists r w' chrom,
    n_point_crossover 0%nat 1%nat 1
      (population_world [mkCandidate [1; 1; 1; 1] 0%Q; mkCandidate [9; 9; 9; 9] 0%Q]
         [1]%N) = Ok r w' /\
    allocated
      (population_world [mkCandidate [1; 1; 1; 1] 0%Q; mkCandidate [9; 9; 9; 9] 0%Q]
         [1]%N) r chrom w' /\
    length chrom = 4%nat.
Proof.
  destruct (n_point_crossover 0%nat 1%nat 1
      (population_world [mkCandidate [1; 1; 1; 1] 0%Q; mkCandidate [9; 9; 9; 9] 0%Q]
         [1]%N)) as [r w'| |] eqn:E; [| vm_compute in E; discriminate ..].
  destruct (proj1 (proj1 operators_keep_length Z
                     (population_world
                        [mkCandidate [1; 1; 1; 1] 0%Q; mkCandidate [9; 9; 9; 9] 0%Q] [1]%N)
                     0%nat 1%nat
                     (mkCandidate [1; 1; 1; 1] 0%Q) (mkCandidate [9; 9; 9; 9] 0%Q)
                     eq_refl eq_refl eq_refl) 1 r w' E) as (chrom & Ha & Hl).
  exists r, w', chrom. split; [reflexivity |]. split; [exact Ha | exact Hl].
Defined.

(* ===================================================================== *)
(** ** More about the drivers *)
(* ===================================================================== *)

(** *** Tabu search keeps current and best together *)

Section TabuCurrentBest.
Variable f : list Z -> Q.

Lemma gen_neighborhood_Ok n current : forall w l w',
  gen_neighborhood f n current w = Ok l w' -> heap w `prefix_of` heap w'.
Proof. intros w l w' H. eapply grows_Ok; [apply grows_gen_neighborhood | exact H]. Qed.

Lemma tabu_move_together st bn w cb w' c :
  current_candidate st = best_candidate st ->
  heap w !! current_candidate st = Some c ->
  tabu_move st bn w = Ok cb w' ->
  fst cb = snd cb /\ w' = w /\
  exists c', heap w !! fst cb = Some c' /\ (fitness c <= fitness c')%Q /\
             (fst cb <> current_candidate st -> (fitness c < fitness c')%Q).
Proof.
  intros Heq Hc H. unfold tabu_move in H. destruct bn as [bn|].
  - apply bind_Ok in H as (bnc & w1 & Hb & H). apply deref_Ok in Hb as [Hb ->].
    rewrite (bind_of_Ok _ _ _ _ _ (deref_of_lookup _ _ _ Hc)) in H.
    destruct (Qltb (fitness c) (fitness bnc)) eqn:Hlt.
    + rewrite <- Heq in H.
      rewrite (bind_of_Ok _ _ _ _ _ (deref_of_lookup _ _ _ Hc)) in H.
      rewrite Hlt in H. apply ret_Ok in H as [<- <-]. cbn [fst snd].
      apply Qltb_lt in Hlt. split; [reflexivity |]. split; [reflexivity |].
      exists bnc. split; [exact Hb |]. split; [now apply Qlt_le_weak | auto].
    + apply ret_Ok in H as [<- <-]. cbn [fst snd].
      split; [exact Heq |]. split; [reflexivity |].
      exists c. split; [exact Hc |]. split; [apply Qle_refl | congruence].
  - apply ret_Ok in H as [<- <-]. cbn [fst snd].
    split; [exact Heq |]. split; [reflexivity |].
    exists c. split; [exact Hc |]. split; [apply Qle_refl | congruence].
Qed.

Lemma tabu_step_together maxlen nsize st w st' w' c :
  current_candidate st = best_candidate st ->
  heap w !! current_candidate st = Some c ->
  tabu_step f maxlen nsize st w = Ok st' w' ->
  current_candidate st' = best_candidate st' /\
  heap w `prefix_of` heap w' /\
  exists c', heap w' !! current_candidate st' = Some c' /\
             (fitness c <= fitness c')%Q.
Proof.
  intros Heq Hc H. unfold tabu_step in H.
  apply bind_Ok in H as (nbh & w1 & Hgen & H).
  apply gen_neighborhood_Ok in Hgen.
  apply bind_Ok in H as (bn & w2 & Hscan & H).
  apply (reads_only_Ok _ _ _ _ (reads_only_scan _ _ _ _)) in Hscan as ->.
  apply bind_Ok in H as (cb & w3 & Hmove & H).
  pose proof (prefix_lookup_Some _ _ _ _ Hc Hgen) as Hc1.
  destruct (tabu_move_together _ _ _ _ _ _ Heq Hc1 Hmove)
    as (Hcb & -> & c' & Hc' & Hle & _).
  apply bind_Ok in H as (c'' & w4 & Hd & H). apply deref_Ok in Hd as [Hd ->].
  apply ret_Ok in H as [<- <-]. cbn [current_candidate best_candidate].
  split; [exact Hcb |]. split; [exact Hgen |]. exists c'. auto.
Qed.

Lemma tabu_run_together maxlen nsize n st w tr st' w' :
  tabu_run f maxlen nsize n st w tr st' w' ->
  forall c, current_candidate st = best_candidate st ->
  heap w !! current_candidate st = Some c ->
  current_candidate st' = best_candidate st' /\
  Forall (fun s => current_candidate s = best_candidate s) tr /\
  exists c', heap w' !! current_candidate st' = Some c' /\
             (fitness c <= fitness c')%Q.
Proof.
  induction 1 as [st w | k st w st1 w1 tr st' w' Hs Hr IH]; intros c Heq Hc.
  - split; [exact Heq |]. split; [constructor |]. exists c. split; [exact Hc | apply Qle_refl].
  - destruct (tabu_step_together _ _ _ _ _ _ _ Heq Hc Hs) as (Heq1 & _ & c1 & Hc1 & Hle1).
    destruct (IH c1 Heq1 Hc1) as (Heq' & Hall & c' & Hc' & Hle').
    split; [exact Heq' |]. split; [now constructor |].
    exists c'. split; [exact Hc' | eapply Qle_trans; eauto].
Qed.
End TabuCurrentBest.

(** In [tabu_search] the best candidate and the current candidate are the
    same object at every iteration: a move is made only to a strictly
    fitter neighbour, which then also beats the best.  So the search
    returns its final current candidate, never one less fit than the
    evaluated initial candidate, and the aspiration test compares tabu
    neighbours with the current candidate. *)
Theorem tabu_search_returns_current (f : list Z -> Q) (initial : ref)
    (tabu_list_size max_iterations neighborhood_size : Z)
    (w : world Z) (r : ref) (w' : world Z) :
  tabu_search f initial tabu_list_size max_iterations neighborhood_size w = Ok r w' ->
  exists st0 w0 tr st' c0 c,
    tabu_init f initial tabu_list_size w = Ok st0 w0 /\
    tabu_run f (Z.to_nat tabu_list_size) (Z.to_nat neighborhood_size)
      (Z.to_nat max_iterations) st0 w0 tr st' w' /\
    Forall (fun s => current_candidate s = best_candidate s) (st0 :: tr) /\
    r = current_candidate st' /\
    heap w !! initial = Some c0 /\ heap w' !! r = Some c /\
    (f (chromosome c0) <= fitness c)%Q.
Proof.
  intros H. unfold tabu_search in H.
  apply bind_Ok in H as (st0 & w0 & Hinit & H).
  apply bind_Ok in H as (st' & w2 & Hloop & H).
  apply ret_Ok in H as [<- <-].
  destruct (tabu_loop_run _ _ _ _ _ _ _ _ Hloop) as (tr & Hrun).
  pose proof (tabu_init_Ok _ _ _ _ _ _ Hinit) as (_ & c0 & Hc0 & Hw0 & Hst0).
  assert (Heq0 : current_candidate st0 = best_candidate st0) by now rewrite Hst0.
  assert (Hcur0 : heap w0 !! current_candidate st0
                  = Some (mkCandidate (chromosome c0) (f (chromosome c0)))).
  { rewrite Hst0, Hw0. cbn [current_candidate].
    apply list_lookup_insert_eq. eapply lookup_lt_Some; eauto. }
  destruct (tabu_run_together _ _ _ _ _ _ _ _ _ Hrun _ Heq0 Hcur0)
    as (Heq' & Hall & c & Hc & Hle).
  exists st0, w0, tr, st', c0, c. split_and!; auto.
  - now rewrite <- Heq'.
Qed.

Lemma tabu_search_returns_current_witness :
  exists r w' c,
    tabu_search sum_fitness 0%nat 2 3 2
      (demo_world [1; 2; 3] [0; 9; 1; 1; 2; 7; 0; 0; 1; 8; 2; 2; 0; 5]%N) = Ok r w' /\
    heap w' !! r = Some c /\ (6 <= fitness c)%Q.
Proof.
  destruct (tabu_search sum_fitness 0%nat 2 3 2
              (demo_world [1; 2; 3] [0; 9; 1; 1; 2; 7; 0; 0; 1; 8; 2; 2; 0; 5]%N))
    as [r w'| |] eqn:E; [| vm_compute in E; discriminate ..].
  destruct (tabu_search_returns_current _ _ _ _ _ _ _ _ E)
    as (st0 & w0 & tr & st' & c0 & c & _ & _ & _ & _ & Hc0 & Hc & Hle).
  exists r, w', c. split; [reflexivity |]. split; [exact Hc |].
  injection Hc0 as <-. exact Hle.
Defined.

(** *** Simulated annealing that never cools down *)

Section AnnealingForever.
Variable math_exp : Q -> option Q.
Variable f : list Z -> Q.
Variables cooling_rate min_temperature : Q.


End AnnealingForever.



(** If the start temperature is not above the threshold the loop body never
    runs: the input candidate itself is returned, evaluated, and nothing is
    drawn. *)
Theorem simulated_annealing_cold_start (math_exp : Q -> option Q) (f : list Z -> Q)
    (cooling_rate min_temperature initial_temperature : Q)
    (fuel : nat) (candidate : ref) (w : world Z) (c0 : Candidate Z) :
  heap w !! candidate = Some c0 ->
  (initial_temperature <= min_temperature)%Q ->
  simulated_annealing math_exp f cooling_rate min_temperature fuel candidate
    initial_temperature w
  = Ok candidate
       (World (<[candidate := mkCandidate (chromosome c0) (f (chromosome c0))]> (heap w))
              (draws w) (cursor w)).
Proof.
  intros Hc0 Hcold. unfold simulated_annealing.
  rewrite (bind_of_Ok _ _ _ _ _ (calculate_fitness_eq _ f _ _ Hc0)).
  apply Qltb_ge in Hcold.
  destruct fuel; cbn [sa_loop sa_temperature]; rewrite Hcold; reflexivity.
Qed.

Lemma simulated_annealing_cold_start_witness :
  simulated_annealing exp_approx sum_fitness (3 # 1000) 1 1%nat 0%nat 1
    (demo_world [1; 2; 3] []%N)
  = Ok 0%nat (World [mkCandidate [1; 2; 3] (sum_fitness [1; 2; 3])] (replay []) 0%nat).
Proof.
  apply (simulated_annealing_cold_start exp_approx sum_fitness (3 # 1000) 1 1 1%nat 0%nat
           (demo_world [1; 2; 3] []%N) (mkCandidate [1; 2; 3] 0%Q) eq_refl).
  apply Qle_refl.
Defined.

(** *** Neighbours and hill climbing *)

(** The neighbour every driver builds differs from the current candidate in
    at most one gene, which is an integer of [0..100]; it is a new object,
    already evaluated, and building it costs two draws. *)
Theorem make_neighbor_one_gene (f : list Z -> Q) (candidate : ref)
    (w : world Z) (r : ref) (w' : world Z) :
  make_neighbor candidate f w = Ok r w' ->
  exists c i v,
    heap w !! candidate = Some c /\
    (i < length (chromosome c))%nat /\ 0 <= v <= 100 /\
    r = length (heap w) /\
    heap w' = heap w ++ [mkCandidate (<[i := v]> (chromosome c))
                           (f (<[i := v]> (chromosome c)))] /\
    cursor w' = S (S (cursor w)) /\ draws w' = draws w.
Proof.
  intros H. apply make_neighbor_Ok in H as (c & Hc & Hne & -> & ->).
  assert (Hlen : (0 < length (chromosome c))%nat).
  { destruct (chromosome c); [congruence | cbn; lia]. }
  pose proof (Z.mod_pos_bound (Z.of_N (draws w (cursor w)))
                (Z.of_nat (length (chromosome c)) - 1 - 0 + 1) ltac:(lia)) as Hi.
  pose proof (Z.mod_pos_bound (Z.of_N (draws w (S (cursor w)))) (100 - 0 + 1)
                ltac:(lia)) as Hv.
  exists c, (Z.to_nat (0 + Z.of_N (draws w (cursor w))
                         mod (Z.of_nat (length (chromosome c)) - 1 - 0 + 1))),
    (0 + Z.of_N (draws w (S (cursor w))) mod (100 - 0 + 1)).
  split; [exact Hc |]. split; [lia |]. split; [lia |]. split; [reflexivity |].
  split; [reflexivity |]. split; reflexivity.
Qed.

Lemma make_neighbor_one_gene_witness :
  exists r w' c i v,
    make_neighbor 0%nat sum_fitness (demo_world [1; 2; 3] [4; 250]%N) = Ok r w' /\
    heap (demo_world [1; 2; 3] [4; 250]%N) !! 0%nat = Some c /\
    (i < length (chromosome c))%nat /\ 0 <= v <= 100 /\
    heap w' = heap (demo_world [1; 2; 3] [4; 250]%N)
                ++ [mkCandidate (<[i := v]> (chromosome c))
                      (sum_fitness (<[i := v]> (chromosome c)))].
Proof.
  destruct (make_neighbor 0%nat sum_fitness (demo_world [1; 2; 3] [4; 250]%N))
    as [r w'| |] eqn:E; [| vm_compute in E; discriminate ..].
  destruct (make_neighbor_one_gene _ _ _ _ _ E)
    as (c & i & v & Hc & Hi & Hv & _ & Hh & _ & _).
  exists r, w', c, i, v. auto.
Defined.

Lemma neighbor_of_evaluated f w c :
  fitness (neighbor_of f w c) = f (chromosome (neighbor_of f w c)).
Proof. reflexivity. Qed.

Lemma hill_loop_result f n : forall w candidate r w' c,
  heap w !! candidate = Some c -> fitness c = f (chromosome c) ->
  hill_loop f n candidate w = Ok r w' ->
  exists c', heap w' !! r = Some c' /\ fitness c' = f (chromosome c') /\
    cursor w' = (cursor w + 2 * n)%nat /\
    length (heap w') = (length (heap w) + n)%nat /\
    draws w' = draws w.
Proof.
  induction n as [|n IH]; intros w candidate r w' c Hc Hev H; cbn [hill_loop] in H.
  - apply ret_Ok in H as [<- <-]. exists c. split_and!; auto; lia.
  - apply bind_Ok in H as (r1 & w1 & Hs & Hl).
    apply hill_step_Ok in Hs as (c1 & Hc1 & Hne & -> & ->).
    assert (c1 = c) as -> by congruence.
    assert (Hnext : exists c2,
              heap (World (heap w ++ [neighbor_of f w c]) (draws w) (S (S (cursor w))))
                !! (if Qltb (fitness c) (fitness (neighbor_of f w c))
                    then length (heap w) else candidate) = Some c2 /\
              fitness c2 = f (chromosome c2)).
    { cbn [heap]. destruct (Qltb _ _).
      - exists (neighbor_of f w c). split; [now apply list_lookup_middle | reflexivity].
      - exists c. split; [now apply lookup_app_l_Some | exact Hev]. }
    destruct Hnext as (c2 & Hc2 & Hev2).
    destruct (IH _ _ _ _ _ Hc2 Hev2 Hl) as (c' & Hc' & Hev' & Hcur & Hlen & Hdr).
    exists c'. cbn [heap cursor draws] in *. rewrite length_app in Hlen. cbn in Hlen.
    split_and!; auto; lia.
Qed.

(** A run of [hill_climb] that returns has made exactly [max_iterations]
    steps: it drew twice and allocated one neighbour per step, and the
    candidate it returns carries the objective's value of its own
    chromosome, which is as long as the initial one. *)
Theorem hill_climb_accounting (f : list Z -> Q) (candidate : ref) (max_iterations : Z)
    (w : world Z) (c0 : Candidate Z) (r : ref) (w' : world Z) :
  heap w !! candidate = Some c0 ->
  hill_climb candidate f max_iterations w = Ok r w' ->
  exists c,
    heap w' !! r = Some c /\
    fitness c = f (chromosome c) /\
    length (chromosome c) = length (chromosome c0) /\
    cursor w' = (cursor w + 2 * Z.to_nat max_iterations)%nat /\
    length (heap w') = (length (heap w) + Z.to_nat max_iterations)%nat /\
    draws w' = draws w.
Proof.
  intros Hc0 H. unfold hill_climb in H.
  rewrite (bind_of_Ok _ _ _ _ _ (calculate_fitness_eq _ f _ _ Hc0)) in H.
  set (c1 := mkCandidate (chromosome c0) (f (chromosome c0))) in *.
  set (w1 := World (<[candidate := c1]> (heap w)) (draws w) (cursor w)) in *.
  assert (Hc1 : heap w1 !! candidate = Some c1).
  { apply list_lookup_insert_eq. eapply lookup_lt_Some; eauto. }
  destruct (hill_loop_result _ _ _ _ _ _ _ Hc1 eq_refl H)
    as (c & Hc & Hev & Hcur & Hlen & Hdr).
  destruct (hill_loop_inv _ _ _ _ _ _ _ Hc1 H) as (c' & Hc' & _ & Hl & _).
  assert (c' = c) as -> by congruence.
  exists c. unfold w1 in *. cbn [heap cursor draws] in *.
  rewrite length_insert in Hlen. split_and!; auto.
Qed.

Lemma hill_climb_accounting_witness :
  exists r w' c,
    hill_climb 0%nat sum_fitness 3 (demo_world [1; 2; 3; 4; 5] [0; 7; 1; 0; 2; 50]%N)
      = Ok r w' /\
    heap w' !! r = Some c /\ fitness c = sum_fitness (chromosome c) /\
    cursor w' = 6%nat /\ length (heap w') = 4%nat.
Proof.
  destruct (hill_climb 0%nat sum_fitness 3
              (demo_world [1; 2; 3; 4; 5] [0; 7; 1; 0; 2; 50]%N))
    as [r w'| |] eqn:E; [| vm_compute in E; discriminate ..].
  destruct (hill_climb_accounting sum_fitness 0%nat 3
              (demo_world [1; 2; 3; 4; 5] [0; 7; 1; 0; 2; 50]%N)
              (mkCandidate [1; 2; 3; 4; 5] 0%Q) r w' eq_refl E)
    as (c & Hc & Hev & _ & Hcur & Hlen & _).
  exists r, w', c. auto.
Defined.

(** The edges of [hill_climb]: with no iteration to make it returns the
    input object itself; on an empty chromosome the first iteration raises
    [ValueError] from [random.randint(0, -1)].  In both cases the fitness of
    the input has already been overwritten. *)
Theorem hill_climb_edge_cases (f : list Z -> Q) (candidate : ref) (max_iterations : Z)
    (w : world Z) (c0 : Candidate Z) :
  heap w !! candidate = Some c0 ->
  let w1 := World (<[candidate := mkCandidate (chromosome c0) (f (chromosome c0))]>
                     (heap w)) (draws w) (cursor w) in
  (max_iterations <= 0 -> hill_climb candidate f max_iterations w = Ok candidate w1) /\
  (chromosome c0 = [] -> 0 < max_iterations ->
     hill_climb candidate f max_iterations w = Raise ValueError w1).
Proof.
  intros Hc0 w1. split.
  - intros Hn. unfold hill_climb.
    rewrite (bind_of_Ok _ _ _ _ _ (calculate_fitness_eq _ f _ _ Hc0)).
    replace (Z.to_nat max_iterations) with 0%nat by lia. reflexivity.
  - intros He Hn. unfold hill_climb.
    rewrite (bind_of_Ok _ _ _ _ _ (calculate_fitness_eq _ f _ _ Hc0)).
    destruct (Z.to_nat max_iterations) as [|n] eqn:En; [lia |].
    cbn [hill_loop]. unfold hill_step. rewrite bind_assoc.
    erewrite bind_of_Raise; [reflexivity |].
    apply (make_neighbor_empty f _ _
             (mkCandidate (chromosome c0) (f (chromosome c0)))); [| exact He].
    cbn [heap]. apply list_lookup_insert_eq. eapply lookup_lt_Some; eauto.
Qed.

Lemma hill_climb_edge_cases_witness :
  hill_climb 0%nat sum_fitness 5 (demo_world [] []%N)
  = Raise ValueError (World [mkCandidate [] (sum_fitness [])] (replay []) 0%nat).
Proof.
  apply (proj2 (hill_climb_edge_cases sum_fitness 0%nat 5 (demo_world [] []%N)
                  (mkCandidate [] 0%Q) eq_refl)); [reflexivity | lia].
Defined.

(** [tabu_search] with a negative [tabu_list_size] raises [ValueError]
    (from [deque(maxlen=...)]) after it has evaluated the input. *)
Theorem tabu_search_negative_size (f : list Z -> Q) (initial : ref)
    (tabu_list_size max_iterations neighborhood_size : Z)
    (w : world Z) (c0 : Candidate Z) :
  heap w !! initial = Some c0 -> tabu_list_size < 0 ->
  tabu_search f initial tabu_list_size max_iterations neighborhood_size w
  = Raise ValueError
      (World (<[initial := mkCandidate (chromosome c0) (f (chromosome c0))]> (heap w))
             (draws w) (cursor w)).
Proof.
  intros Hc0 Hneg. unfold tabu_search, tabu_init.
  rewrite !bind_assoc.
  rewrite (bind_of_Ok _ _ _ _ _ (calculate_fitness_eq _ f _ _ Hc0)).
  destruct (Z.ltb_spec tabu_list_size 0); [reflexivity | lia].
Qed.

Lemma tabu_search_negative_size_witness :
  tabu_search sum_fitness 0%nat (-1) 100 10 (demo_world [1; 2; 3] []%N)
  = Raise ValueError (World [mkCandidate [1; 2; 3] (sum_fitness [1; 2; 3])]
                        (replay []) 0%nat).
Proof.
  apply (tabu_search_negative_size sum_fitness 0%nat (-1) 100 10
           (demo_world [1; 2; 3] []%N) (mkCandidate [1; 2; 3] 0%Q) eq_refl).
  lia.
Defined.

(* ===================================================================== *)
(** ** More about selection *)
(* ===================================================================== *)

Section SortedByFitness.
Context {G : Type}.
Implicit Types (w : world G) (ks : list (Q * ref)).

Lemma keyed_keys generation : forall w ks w',
  keyed generation w = Ok ks w' ->
  w' = w /\ map snd ks = generation /\ keys_of w ks.
Proof.
  induction generation as [|r generation IH]; intros w ks w' H; cbn [keyed] in H.
  - apply ret_Ok in H as [<- <-]. split; [reflexivity |]. split; [reflexivity | constructor].
  - apply bind_Ok in H as (c & w1 & Hc & H). apply deref_Ok in Hc as [Hc ->].
    apply bind_Ok in H as (ks' & w2 & Hks & H). apply ret_Ok in H as [<- <-].
    destruct (IH _ _ _ Hks) as (-> & Hmap & Hkeys).
    split; [reflexivity |]. split; [cbn; now rewrite Hmap |].
    constructor; [| exact Hkeys]. exists c. auto.
Qed.

Lemma keyed_dangling generation : forall w e w',
  keyed generation w = Raise e w' -> e = AttributeError /\ w' = w.
Proof.
  induction generation as [|r generation IH]; intros w e w' H; cbn [keyed] in H;
    [discriminate |].
  unfold bind at 1 in H. unfold deref in H. destruct (heap w !! r); [| now injection H].
  unfold bind in H. destruct (keyed generation w) as [ks w1|e1 w1|] eqn:E;
    [discriminate | | discriminate].
  injection H as <- <-. eauto.
Qed.

(** Descending order of the keys. *)
Definition key_ge (a b : Q * ref) : Prop := (fst b <= fst a)%Q.

Lemma insert_by_descending x ks :
  StronglySorted key_ge ks ->
  StronglySorted key_ge (insert_by (fun a b => Qle_bool b a) x ks).
Proof.
  induction 1 as [|y ks Hs IH Hy]; cbn [insert_by].
  - repeat constructor.
  - destruct (Qle_bool (fst y) (fst x)) eqn:Hle.
    + apply Qle_bool_iff in Hle. constructor; [now constructor |].
      constructor; [exact Hle |].
      eapply Forall_impl; [exact Hy |]. intros z Hz. unfold key_ge in *.
      eapply Qle_trans; eauto.
    + assert (Hxy : (fst x <= fst y)%Q).
      { apply Qlt_le_weak, Qnot_le_lt. intros Hc. apply Qle_bool_iff in Hc. congruence. }
      constructor; [exact IH |].
      rewrite insert_by_perm. constructor; [exact Hxy | exact Hy].
Qed.

Lemma sort_descending ks :
  StronglySorted key_ge (foldr (insert_by (fun a b => Qle_bool b a)) [] ks).
Proof.
  induction ks as [|k ks IH]; cbn [foldr]; [constructor |].
  now apply insert_by_descending.
Qed.

(** [sorted(generation, key=fitness, reverse=True)]: a rearrangement of the
    generation in which every candidate is at least as fit as all that come
    after it. *)
Lemma sorted_descending generation w sorted w' :
  sorted_by_fitness true generation w = Ok sorted w' ->
  w' = w /\ sorted ≡ₚ generation /\ StronglySorted (at_least_as_fit w) sorted.
Proof.
  intros H. unfold sorted_by_fitness in H.
  apply bind_Ok in H as (ks & w1 & Hks & H). apply ret_Ok in H as [<- <-].
  apply keyed_keys in Hks as (-> & Hmap & Hkeys).
  split; [reflexivity |]. split.
  - rewrite <- Hmap. apply fmap_Permutation, sort_perm.
  - pose proof (sort_descending ks) as Hsorted.
    assert (Hkeys' : keys_of w (foldr (insert_by (fun a b => Qle_bool b a)) [] ks)).
    { unfold keys_of. now rewrite sort_perm. }
    induction Hsorted as [|k l Hs IH Hk]; cbn [map]; [constructor |].
    inversion Hkeys' as [|? ? (ck & Hck & Hfk) Hrest]; subst.
    constructor; [now apply IH |].
    apply Forall_forall. intros r Hr.
    apply list_elem_of_In, in_map_iff in Hr as (k' & <- & Hk').
    apply list_elem_of_In in Hk'.
    pose proof (proj1 (Forall_forall _ _) Hk _ Hk') as Hge.
    pose proof (proj1 (Forall_forall _ _) Hrest _ Hk') as (ck' & Hck' & Hfk').
    exists ck, ck'. split; [exact Hck |]. split; [exact Hck' |].
    unfold key_ge in Hge. now rewrite Hfk, Hfk'.
Qed.

(** The first [k] of a descending list dominate the rest. *)
Lemma top_dominates (R : ref -> ref -> Prop) (sorted : list ref) k :
  StronglySorted R sorted ->
  forall e r, e ∈ take k sorted -> r ∈ drop k sorted -> R e r.
Proof.
  intros Hs. revert k. induction Hs as [|x l Hs IH Hx]; intros k e r He Hr.
  - rewrite take_nil in He. now apply elem_of_nil in He.
  - destruct k as [|k]; [now apply elem_of_nil in He |].
    cbn [take drop] in *. apply elem_of_cons in He as [-> | He].
    + apply (proj1 (Forall_forall _ _) Hx).
      exact (subseteq_drop k l r Hr).
    + eapply IH; eauto.
Qed.
End SortedByFitness.

Section EliteFacts.
Context {G : Type}.
Implicit Types (w : world G) (generation : list ref).


Lemma sorted_descending_total generation w :
  all_fitness (fun _ => True) w generation ->
  exists sorted, sorted_by_fitness true generation w = Ok sorted w /\
                 sorted ≡ₚ generation /\ StronglySorted (at_least_as_fit w) sorted.
Proof.
  intros Hall. destruct (sorted_by_fitness_eq true _ _ Hall) as (sorted & Hs & _).
  exists sorted. split; [exact Hs |]. now apply sorted_descending in Hs as (_ & ? & ?).
Qed.


Lemma random_choice_single {A} (x : A) w : random_choice [x] w = Ok x (advance w).
Proof.
  rewrite random_choice_eq. cbn [length]. rewrite Nat.mod_1_r. reflexivity.
Qed.

End EliteFacts.

Lemma py_int_le_ceiling (x : Q) : py_int x <= Qceiling x.
Proof.
  unfold py_int. destruct (Qle_bool 0 x); [| lia].
  rewrite Zle_Qle. eapply Qle_trans; [apply Qfloor_le | apply Qle_ceiling].
Qed.


Lemma take_mono {A} (l : list A) (k K : nat) x : (k <= K)%nat -> x ∈ take k l -> x ∈ take K l.
Proof.
  intros Hk Hx. apply elem_of_take in Hx as (i & Hi & Hlt).
  apply elem_of_take. exists i. split; [exact Hi | lia].
Qed.





Section TruncationFacts.
Context {G : Type}.
Implicit Types (w : world G) (generation : list ref).

(** The re-draw loop over [random.choice(l)]: what it returns is an item of
    [l] other than [parent1], and no object is touched. *)
Lemma resample_choice (l : list ref) fuel : forall (parent1 parent2 p : ref) w w',
  resample fuel (random_choice l) parent1 parent2 w = Ok p w' ->
  parent2 ∈ l -> p ∈ l /\ p <> parent1 /\ heap w' = heap w.
Proof.
  induction fuel as [|fuel IH]; intros parent1 parent2 p w w' H Hin; cbn [resample] in H;
    destruct (bool_decide_reflect (parent2 = parent1)) as [He|Hne].
  - discriminate.
  - apply ret_Ok in H as [<- <-]. auto.
  - apply bind_Ok in H as (q & w1 & Hq & H). apply random_choice_Ok in Hq as [Hq ->].
    destruct (IH _ _ _ _ _ H Hq) as (? & ? & ->). auto.
  - apply ret_Ok in H as [<- <-]. auto.
Qed.

(** On a group of one the loop has nothing else to draw. *)
Lemma resample_single_forever (x : ref) fuel : forall w,
  resample fuel (random_choice [x]) x x w = OutOfFuel.
Proof.
  induction fuel as [|fuel IH]; intros w; cbn [resample];
    rewrite bool_decide_eq_true_2 by reflexivity; [reflexivity |].
  rewrite (bind_of_Ok _ _ _ _ _ (random_choice_single x w)). apply IH.
Qed.

Lemma py_int_nonneg (x : Q) : (0 <= x)%Q -> 0 <= py_int x.
Proof.
  intros Hx. unfold py_int. rewrite (proj2 (Qle_bool_iff 0 x) Hx).
  change 0 with (Qfloor 0). now apply Qfloor_resp_le.
Qed.
End TruncationFacts.

(** When [truncation_selection] returns, it has touched no object, and its
    two parents are different candidates among the fittest
    [ceil(truncation_percentage * len(generation))]: the generation splits
    into that many candidates (all of them when it is shorter) and the
    rest, no candidate of the rest is fitter than one of the first group,
    and both parents are in the first group.  The group the code draws from
    has [int(truncation_percentage * len(generation))] candidates, which is
    never more than that ceiling, also when the product is rounded. *)
Theorem truncation_selection_top {G} (w : world G) (fuel : nat) (generation : list ref)
    (truncation_percentage : Q) (parent1 parent2 : ref) (w' : world G) :
  (0 <= truncation_percentage)%Q ->
  truncation_selection fuel generation truncation_percentage w
    = Ok (parent1, parent2) w' ->
  heap w' = heap w /\
  exists top rest,
    top ++ rest ≡ₚ generation /\
    length top
      = Nat.min (Z.to_nat (Qceiling (truncation_percentage
                                     * inject_Z (Z.of_nat (length generation)))))
                (length generation) /\
    parent1 ∈ top /\ parent2 ∈ top /\ parent1 <> parent2 /\
    forall e r, e ∈ top -> r ∈ rest -> at_least_as_fit w e r.
Proof.
  intros Hpct H. unfold truncation_selection in H.
  apply bind_Ok in H as (sorted & w1 & Hs & H).
  apply sorted_descending in Hs as (-> & Hperm & Hsorted).
  cbv beta zeta in H. revert H.
  pose proof (py_int_le_ceiling
                (truncation_percentage * inject_Z (Z.of_nat (length generation)))) as Hceil.
  set (bound := Qceiling _) in *.
  set (truncation_size := py_int _) in *.
  assert (Hsize : 0 <= truncation_size).
  { apply py_int_nonneg, Qmult_le_0_compat; [exact Hpct |].
    change 0%Q with (inject_Z 0). rewrite <- Zle_Qle. lia. }
  assert (Hslice : slice_to sorted truncation_size = take (Z.to_nat truncation_size) sorted).
  { unfold slice_to. destruct (Z.ltb_spec truncation_size 0); [lia | reflexivity]. }
  rewrite Hslice. intros H.
  apply bind_Ok in H as (p1 & w2 & H1 & H). apply random_choice_Ok in H1 as [Hin1 ->].
  apply bind_Ok in H as (p2 & w3 & H2 & H). apply random_choice_Ok in H2 as [Hin2 ->].
  apply bind_Ok in H as (p & w4 & Hp & H). apply ret_Ok in H as [[= <- <-] <-].
  destruct (resample_choice _ _ _ _ _ _ _ Hp Hin2) as (Hin & Hneq & Hheap).
  split; [exact Hheap |].
  exists (take (Z.to_nat bound) sorted), (drop (Z.to_nat bound) sorted).
  split. { now rewrite take_drop. }
  split. { rewrite length_take, (Permutation_length Hperm). reflexivity. }
  split; [eapply take_mono; [| exact Hin1]; lia |].
  split; [eapply take_mono; [| exact Hin]; lia |]. split; [congruence |].
  now apply top_dominates.
Qed.

Lemma truncation_selection_top_witness :
  exists parent1 parent2 top rest,
    value_of (truncation_selection 5 [0; 1; 2; 3]%nat (1 # 2)
                (population_world (with_fitness [1; 4; 2; 3]%Q) [0; 1]%N))
      = Some (parent1, parent2) /\
    top ++ rest ≡ₚ [0; 1; 2; 3]%nat /\ length top = 2%nat /\
    parent1 ∈ top /\ parent2 ∈ top /\ parent1 <> parent2 /\
    forall e r, e ∈ top -> r ∈ rest ->
      at_least_as_fit (population_world (with_fitness [1; 4; 2; 3]%Q) [0; 1]%N) e r.
Proof.
  destruct (truncation_selection 5 [0; 1; 2; 3]%nat (1 # 2)
              (population_world (with_fitness [1; 4; 2; 3]%Q) [0; 1]%N))
    as [[parent1 parent2] w'| |] eqn:E; [| vm_compute in E; discriminate ..].
  assert (Hpct : (0 <= 1 # 2)%Q) by (unfold Qle; cbn; lia).
  destruct (truncation_selection_top _ _ _ _ _ _ _ Hpct E)
    as (_ & top & rest & H).
  exists parent1, parent2, top, rest. split; [reflexivity | exact H].
Defined.

Lemma py_int_one (x : Q) : (1 <= x)%Q -> (x <= 3 # 2)%Q -> py_int x = 1.
Proof.
  intros H1 H2. unfold py_int.
  assert (H0 : Qle_bool 0 x = true) by (apply Qle_bool_iff; lra). rewrite H0.
  apply Qfloor_resp_le in H1, H2.
  change (Qfloor 1) with 1 in H1. change (Qfloor (3 # 2)) with 1 in H2. lia.
Qed.

Lemma py_int_zero (x : Q) : (- (1 # 2) <= x)%Q -> (x <= 1 # 2)%Q -> py_int x = 0.
Proof.
  intros H1 H2. unfold py_int. destruct (Qle_bool 0 x) eqn:H0.
  - apply Qle_bool_iff in H0. apply Qfloor_resp_le in H0, H2.
    change (Qfloor 0) with 0 in H0. change (Qfloor (1 # 2)) with 0 in H2. lia.
  - assert (Hneg : (x <= 0)%Q).
    { apply Qlt_le_weak, Qnot_le_lt. intros Hc. apply Qle_bool_iff in Hc. congruence. }
    apply Qceiling_resp_le in H1, Hneg.
    change (Qceiling 0) with 0 in Hneg. change (Qceiling (- (1 # 2))) with 0 in H1. lia.
Qed.

(** A top group of one makes [truncation_selection] spin for ever: both
    parents are that one candidate and each re-draw yields it again.  This
    is so whenever [1 <= truncation_percentage * len(generation) <= 1.5],
    as for the default percentage 0.5 on two or three candidates.  An empty
    top group makes it raise [IndexError]; this is so whenever the product
    lies between -0.5 and 0.5, as for 0.5 on one candidate.  (The bounds
    are floats, so the rounded product lies within them as well and
    [int] gives 1 and 0.) *)
Theorem truncation_selection_small_group {G} (w : world G) (generation : list ref)
    (truncation_percentage : Q) :
  all_fitness (fun _ => True) w generation ->
  (generation <> [] ->
   (1 <= truncation_percentage * inject_Z (Z.of_nat (length generation)))%Q ->
   (truncation_percentage * inject_Z (Z.of_nat (length generation)) <= 3 # 2)%Q ->
   forall fuel,
     truncation_selection fuel generation truncation_percentage w = OutOfFuel) /\
  ((- (1 # 2) <= truncation_percentage * inject_Z (Z.of_nat (length generation)))%Q ->
   (truncation_percentage * inject_Z (Z.of_nat (length generation)) <= 1 # 2)%Q ->
   forall fuel,
     truncation_selection fuel generation truncation_percentage w = Raise IndexError w).
Proof.
  intros Hall.
  destruct (sorted_descending_total _ _ Hall) as (sorted & Hs & Hperm & _).
  split.
  - intros Hne Hlo Hhi fuel.
    unfold truncation_selection. rewrite (bind_of_Ok _ _ _ _ _ Hs). cbv beta zeta.
    rewrite (py_int_one _ Hlo Hhi).
    destruct sorted as [|x l]; [apply Permutation_nil_l in Hperm; congruence |].
    change (slice_to (x :: l) 1) with [x].
    rewrite (bind_of_Ok _ _ _ _ _ (random_choice_single x w)).
    rewrite (bind_of_Ok _ _ _ _ _ (random_choice_single x (advance w))).
    unfold bind at 1. now rewrite resample_single_forever.
  - intros Hlo Hhi fuel.
    unfold truncation_selection. rewrite (bind_of_Ok _ _ _ _ _ Hs). cbv beta zeta.
    rewrite (py_int_zero _ Hlo Hhi).
    unfold slice_to. cbn [Z.ltb Z.compare Z.to_nat]. rewrite take_0. reflexivity.
Qed.

Lemma truncation_selection_small_group_witness :
  truncation_selection 1000 [0; 1; 2]%nat (1 # 2)
    (population_world (with_fitness [1; 3; 2]%Q) [5; 9]%N) = OutOfFuel /\
  truncation_selection 1000 [0]%nat (1 # 2)
    (population_world (with_fitness [1]%Q) [5; 9]%N)
  = Raise IndexError (population_world (with_fitness [1]%Q) [5; 9]%N).
Proof.
  split.
  - apply (proj1 (truncation_selection_small_group
                    (population_world (with_fitness [1; 3; 2]%Q) [5; 9]%N)
                    [0; 1; 2]%nat (1 # 2)
                    ltac:(repeat constructor; eexists; (split; [reflexivity | exact I]))));
      [discriminate | vm_compute; discriminate | vm_compute; discriminate].
  - apply (proj2 (truncation_selection_small_group
                    (population_world (with_fitness [1]%Q) [5; 9]%N)
                    [0]%nat (1 # 2)
                    ltac:(repeat constructor; eexists; (split; [reflexivity | exact I]))));
      [vm_compute; discriminate | vm_compute; discriminate].
Defined.

Section TournamentFacts.
Context {G : Type}.
Implicit Types (w : world G) (generation : list ref).

(** [max] keeps a key that no other key exceeds. *)
Lemma max_from_greatest (rest : list (Q * ref)) : forall best,
  exists k, k ∈ best :: rest /\ max_from best rest = snd k /\
            (fst best <= fst k)%Q /\ Forall (fun k' => (fst k' <= fst k)%Q) rest.
Proof.
  induction rest as [|x rest IH]; intros best; cbn [max_from].
  - exists best. split; [left |]. split; [reflexivity |]. split; [apply Qle_refl | constructor].
  - destruct (Qltb (fst best) (fst x)) eqn:Hlt.
    + apply Qltb_lt in Hlt. destruct (IH x) as (k & Hk & Hmax & Hx & Hrest).
      exists k. split; [now right |]. split; [exact Hmax |].
      split; [apply Qlt_le_weak; eapply Qlt_le_trans; eauto |].
      constructor; assumption.
    + apply Qltb_ge in Hlt. destruct (IH best) as (k & Hk & Hmax & Hb & Hrest).
      exists k. split.
      { apply elem_of_cons in Hk as [-> | Hk]; [left | right; now right]. }
      split; [exact Hmax |]. split; [exact Hb |].
      constructor; [eapply Qle_trans; eauto | exact Hrest].
Qed.

Lemma max_by_fitness_Ok (tournament : list ref) w p w' :
  max_by_fitness tournament w = Ok p w' ->
  w' = w /\ p ∈ tournament /\ forall r, r ∈ tournament -> at_least_as_fit w p r.
Proof.
  intros H. unfold max_by_fitness in H.
  apply bind_Ok in H as (ks & w1 & Hks & H).
  apply keyed_keys in Hks as (-> & Hmap & Hkeys).
  destruct ks as [|best rest]; [discriminate |]. apply ret_Ok in H as [<- <-].
  split; [reflexivity |].
  destruct (max_from_greatest rest best) as (k & Hk & -> & Hbest & Hrest).
  assert (Hall : Forall (fun k' => (fst k' <= fst k)%Q) (best :: rest))
    by (constructor; assumption).
  destruct (proj1 (Forall_forall _ _) Hkeys _ Hk) as (c & Hc & Hfc).
  rewrite <- Hmap. split; [now apply list_elem_of_fmap_2 |].
  intros r Hr. apply list_elem_of_fmap in Hr as (k' & -> & Hk').
  destruct (proj1 (Forall_forall _ _) Hkeys _ Hk') as (c' & Hc' & Hfc').
  exists c, c'. split; [exact Hc |]. split; [exact Hc' |].
  rewrite Hfc, Hfc'. exact (proj1 (Forall_forall _ _) Hall _ Hk').
Qed.

Lemma tournament_select_one_Ok generation tournament_size w p w' :
  tournament_select_one generation tournament_size w = Ok p w' ->
  heap w' = heap w /\ 1 <= tournament_size <= Z.of_nat (length generation) /\
  wins_tournament w generation (Z.to_nat tournament_size) p.
Proof.
  intros H. unfold tournament_select_one in H.
  apply bind_Ok in H as (tournament & w1 & Ht & H).
  pose proof (keeps_heap_random_sample _ _ _ _ _ Ht) as Hheap.
  apply random_sample_Ok in Ht as (Hk & Hlen & Hsub).
  apply max_by_fitness_Ok in H as (-> & Hin & Hmax).
  split; [exact Hheap |]. split.
  - destruct tournament; [now apply elem_of_nil in Hin | cbn in Hlen; lia].
  - exists tournament. split; [exact Hsub |]. split; [exact Hlen |]. split; [exact Hin |].
    intros r Hr. destruct (Hmax r Hr) as (c & c' & Hc & Hc' & Hle).
    exists c, c'. rewrite <- Hheap. auto.
Qed.

Lemma wins_whole_generation w generation p :
  wins_tournament w generation (length generation) p ->
  forall r, r ∈ generation -> at_least_as_fit w p r.
Proof.
  intros (tournament & Hsub & Hlen & _ & Hmax) r Hr. apply Hmax.
  rewrite (submseteq_length_Permutation _ _ Hsub); [exact Hr | lia].
Qed.

Lemma wins_tournament_heap w w' generation k p :
  heap w' = heap w -> wins_tournament w' generation k p -> wins_tournament w generation k p.
Proof.
  intros Hheap (tournament & Hsub & Hlen & Hin & Hmax).
  exists tournament. split; [exact Hsub |]. split; [exact Hlen |]. split; [exact Hin |].
  intros r Hr. destruct (Hmax r Hr) as (c & c' & Hc & Hc' & Hle).
  exists c, c'. rewrite <- Hheap. auto.
Qed.
End TournamentFacts.

(** [tournament_selection] returns only for
    [1 <= tournament_size <= len(generation)]; it touches no object, and
    each parent won a tournament of [tournament_size] candidates drawn
    without replacement: it is one of them and none of them is fitter.  A
    tournament of the whole generation therefore yields two candidates of
    maximal fitness.  A size of zero or less, or above the population size,
    raises [ValueError] and consumes no draw. *)
Theorem tournament_selection_winner :
  (forall G (w : world G) generation tournament_size parent1 parent2 w',
     tournament_selection generation tournament_size w = Ok (parent1, parent2) w' ->
     heap w' = heap w /\
     1 <= tournament_size <= Z.of_nat (length generation) /\
     wins_tournament w generation (Z.to_nat tournament_size) parent1 /\
     wins_tournament w generation (Z.to_nat tournament_size) parent2 /\
     (tournament_size = Z.of_nat (length generation) ->
      forall r, r ∈ generation ->
        at_least_as_fit w parent1 r /\ at_least_as_fit w parent2 r)) /\
  (forall G (w : world G) generation tournament_size,
     tournament_size <= 0 \/ Z.of_nat (length generation) < tournament_size ->
     tournament_selection generation tournament_size w = Raise ValueError w).
Proof.
  split.
  - intros G w generation tournament_size parent1 parent2 w' H.
    unfold tournament_selection in H.
    apply bind_Ok in H as (p1 & w1 & H1 & H). apply bind_Ok in H as (p2 & w2 & H2 & H).
    apply ret_Ok in H as [[= <- <-] <-].
    apply tournament_select_one_Ok in H1 as (Heap1 & Hsize & Hwin1).
    apply tournament_select_one_Ok in H2 as (Heap2 & _ & Hwin2).
    apply (wins_tournament_heap w) in Hwin2; [| exact Heap1].
    split; [congruence |]. split; [exact Hsize |]. split; [exact Hwin1 |].
    split; [exact Hwin2 |]. intros -> r Hr. rewrite Nat2Z.id in Hwin1, Hwin2.
    split; eapply wins_whole_generation; eauto.
  - intros G w generation tournament_size Hbad.
    unfold tournament_selection, tournament_select_one. rewrite !bind_assoc.
    destruct (Z.eq_dec tournament_size 0) as [-> | Hnz].
    + unfold random_sample.
      destruct (Z.ltb_spec (Z.of_nat (length generation)) 0); [lia |]. reflexivity.
    + assert (Hout : tournament_size < 0 \/ Z.of_nat (length generation) < tournament_size)
        by lia.
      rewrite (bind_of_Raise _ _ _ _ _ (random_sample_too_many generation _ w Hout)).
      reflexivity.
Qed.

Lemma tournament_selection_winner_witness :
  exists parent1 parent2,
    value_of (tournament_selection [0; 1; 2; 3]%nat 2
                (population_world (with_fitness [1; 4; 2; 3]%Q) [0; 1; 2; 3]%N))
      = Some (parent1, parent2) /\
    wins_tournament (population_world (with_fitness [1; 4; 2; 3]%Q) [0; 1; 2; 3]%N)
      [0; 1; 2; 3]%nat 2 parent1 /\
    wins_tournament (population_world (with_fitness [1; 4; 2; 3]%Q) [0; 1; 2; 3]%N)
      [0; 1; 2; 3]%nat 2 parent2.
Proof.
  destruct (tournament_selection [0; 1; 2; 3]%nat 2
              (population_world (with_fitness [1; 4; 2; 3]%Q) [0; 1; 2; 3]%N))
    as [[parent1 parent2] w'| |] eqn:E; [| vm_compute in E; discriminate ..].
  destruct (proj1 tournament_selection_winner _ _ _ _ _ _ _ E)
    as (_ & _ & H1 & H2 & _).
  exists parent1, parent2. split; [reflexivity |]. split; [exact H1 | exact H2].
Defined.

Section SelectionMembers.
Context {G : Type}.
Implicit Types (w : world G) (generation : list ref).

Lemma sorted_by_fitness_Ok reverse generation w sorted w' :
  sorted_by_fitness reverse generation w = Ok sorted w' ->
  w' = w /\ sorted ≡ₚ generation.
Proof.
  intros H. unfold sorted_by_fitness in H.
  apply bind_Ok in H as (ks & w1 & Hks & H). apply ret_Ok in H as [<- <-].
  apply keyed_keys in Hks as (-> & Hmap & _).
  split; [reflexivity |]. rewrite <- Hmap. apply fmap_Permutation, sort_perm.
Qed.

Lemma roulette_walk_Ok generation : forall pick current w parent w',
  roulette_walk pick current generation w = Ok parent w' ->
  w' = w /\ from_generation generation parent.
Proof.
  induction generation as [|r generation IH]; intros pick current w parent w' H;
    cbn [roulette_walk] in H.
  - apply ret_Ok in H as [<- <-]. split; [reflexivity | discriminate].
  - apply bind_Ok in H as (c & w1 & Hc & H). apply deref_Ok in Hc as [_ ->].
    cbv zeta in H. destruct (Qltb pick (current + fitness c)).
    + apply ret_Ok in H as [<- <-]. split; [reflexivity |]. intros p [= <-]. left.
    + apply IH in H as [-> Hin]. split; [reflexivity |].
      intros p Hp. right. now apply Hin.
Qed.

Lemma roulette_select_one_Ok total generation w parent w' :
  roulette_select_one total generation w = Ok parent w' ->
  heap w' = heap w /\ from_generation generation parent.
Proof.
  intros H. unfold roulette_select_one in H.
  rewrite (bind_of_Ok _ _ _ _ _ (random_uniform_eq _ _ _)) in H.
  apply roulette_walk_Ok in H as [-> Hin]. split; [reflexivity | exact Hin].
Qed.

(** The re-draw loop returns the second parent it was given or a later
    result of [select_one]. *)
Lemma resample_Ok {P} `{EqDecision P} (select_one : M G P) (good : P -> Prop) (h : list (Candidate G))
    fuel :
  (forall w p w', heap w = h -> select_one w = Ok p w' -> heap w' = h /\ good p) ->
  forall (parent1 parent2 p : P) w w',
    heap w = h -> good parent2 ->
    resample fuel select_one parent1 parent2 w = Ok p w' ->
    heap w' = h /\ good p.
Proof.
  intros Hsel. induction fuel as [|fuel IH]; intros parent1 parent2 p w w' Hw Hgood H;
    cbn [resample] in H;
    destruct (bool_decide_reflect (parent2 = parent1)) as [He|Hne].
  - discriminate.
  - apply ret_Ok in H as [<- <-]. auto.
  - apply bind_Ok in H as (q & w1 & Hq & H).
    destruct (Hsel _ _ _ Hw Hq) as [Hw1 Hgq]. eapply IH; eauto.
  - apply ret_Ok in H as [<- <-]. auto.
Qed.

Lemma rank_walk_member (ranked : list ref) : forall pick current i p,
  rank_walk pick current i ranked = Some p -> p ∈ ranked.
Proof.
  induction ranked as [|r ranked IH]; intros pick current i p H; cbn [rank_walk] in H;
    [discriminate |].
  cbv zeta in H. destruct (Qltb _ _).
  - injection H as <-. left.
  - right. eapply IH; eauto.
Qed.

Lemma rank_select_one_Ok total_ranks (ranked : list ref) w parent w' :
  rank_select_one total_ranks ranked w = Ok parent w' ->
  heap w' = heap w /\ from_generation ranked parent.
Proof.
  intros H. unfold rank_select_one in H.
  rewrite (bind_of_Ok _ _ _ _ _ (random_uniform_eq _ _ _)) in H.
  apply ret_Ok in H as [<- <-]. split; [reflexivity |].
  intros p Hp. eapply rank_walk_member; eauto.
Qed.

Lemma sus_collect_members room (candidate : ref) cumulative spacing (known : list ref) :
  forall point parents,
    (forall p, p ∈ parents -> p ∈ known \/ p = candidate) ->
    forall p, p ∈ fst (sus_collect room candidate cumulative spacing point parents) ->
              p ∈ known \/ p = candidate.
Proof.
  induction room as [|room IH]; intros point parents Hin p Hp; cbn [sus_collect] in Hp.
  - now apply Hin.
  - destruct (Qltb point cumulative); [| now apply Hin].
    eapply IH; [| exact Hp]. intros q Hq.
    apply elem_of_app in Hq as [Hq | Hq]; [now apply Hin |].
    apply list_elem_of_singleton in Hq. now right.
Qed.

Lemma sus_walk_members num_parents spacing generation :
  forall cumulative point parents w ps w' (known : list ref),
    (forall p, p ∈ parents -> p ∈ known) ->
    sus_walk num_parents spacing generation cumulative point parents w = Ok ps w' ->
    w' = w /\ forall p, p ∈ ps -> p ∈ known \/ p ∈ generation.
Proof.
  induction generation as [|r generation IH];
    intros cumulative point parents w ps w' known Hin H; cbn [sus_walk] in H.
  - apply ret_Ok in H as [<- <-]. split; [reflexivity |]. intros p Hp. left. now apply Hin.
  - apply bind_Ok in H as (c & w1 & Hc & H). apply deref_Ok in Hc as [_ ->].
    cbv zeta in H.
    pose proof (sus_collect_members
                  (Z.to_nat (num_parents - Z.of_nat (length parents))) r
                  (cumulative + fitness c)%Q spacing known point parents
                  (fun p Hp => or_introl (Hin p Hp))) as Hcollect.
    destruct (sus_collect _ r _ spacing point parents) as [parents' point'].
    cbn [fst] in Hcollect.
    apply (IH _ _ _ _ _ _ (r :: known)) in H as [-> Hps].
    + split; [reflexivity |]. intros p Hp.
      destruct (Hps p Hp) as [Hk | Hg]; [| right; now right].
      apply elem_of_cons in Hk as [-> | Hk]; [right; left | now left].
    + intros p Hp. destruct (Hcollect p Hp) as [Hk | ->]; [now right | left].
Qed.

Lemma sus_parents_members generation num_parents w ps w' :
  sus_parents generation num_parents w = Ok ps w' ->
  heap w' = heap w /\ forall p, p ∈ ps -> p ∈ generation.
Proof.
  intros H. unfold sus_parents in H.
  apply bind_Ok in H as (total & w1 & Hsum & H).
  pose proof (keeps_heap_sum_fitness_from _ _ _ _ _ Hsum) as Hh.
  destruct (num_parents =? 0); [discriminate |].
  rewrite (bind_of_Ok _ _ _ _ _ (random_uniform_eq _ _ _)) in H.
  apply (sus_walk_members _ _ _ _ _ _ _ _ _ []) in H as [-> Hps].
  - split; [exact Hh |]. intros p Hp.
    destruct (Hps p Hp) as [Hk | Hg]; [now apply elem_of_nil in Hk | exact Hg].
  - intros p Hp. now apply elem_of_nil in Hp.
Qed.

Lemma slice_to_subseteq {A} (l : list A) (n : Z) x : x ∈ slice_to l n -> x ∈ l.
Proof.
  unfold slice_to. destruct (n <? 0); intros Hx;
    apply elem_of_take in Hx as (i & Hi & _); eapply list_elem_of_lookup_2; eauto.
Qed.
End SelectionMembers.

(** No selection operator creates or changes a candidate, and each hands
    back candidates of the generation it was given: whenever one of the six
    returns, every object is as it was before the call and each parent is
    an element of [generation] (or [None], which roulette-wheel and
    rank-based selection return when the walk falls off the end). *)
Theorem selection_returns_members :
  (forall G fuel generation (w : world G) parent1 parent2 w',
     roulette_wheel_selection fuel generation w = Ok (parent1, parent2) w' ->
     heap w' = heap w /\
     from_generation generation parent1 /\ from_generation generation parent2) /\
  (forall G generation (w : world G) parent1 parent2 w',
     rank_based_selection generation w = Ok (parent1, parent2) w' ->
     heap w' = heap w /\
     from_generation generation parent1 /\ from_generation generation parent2) /\
  (forall G generation tournament_size (w : world G) parent1 parent2 w',
     tournament_selection generation tournament_size w = Ok (parent1, parent2) w' ->
     heap w' = heap w /\ parent1 ∈ generation /\ parent2 ∈ generation) /\
  (forall G generation num_parents (w : world G) parent1 parent2 w',
     stochastic_universal_sampling generation num_parents w = Ok (parent1, parent2) w' ->
     heap w' = heap w /\ parent1 ∈ generation /\ parent2 ∈ generation) /\
  (forall G fuel generation truncation_percentage (w : world G) parent1 parent2 w',
     truncation_selection fuel generation truncation_percentage w
       = Ok (parent1, parent2) w' ->
     heap w' = heap w /\ parent1 ∈ generation /\ parent2 ∈ generation) /\
  (forall G generation elite_fraction (w : world G) parent1 parent2 w',
     elitism_selection generation elite_fraction w = Ok (parent1, parent2) w' ->
     heap w' = heap w /\ parent1 ∈ generation /\ parent2 ∈ generation).
Proof.
  split_and!.
  - intros G fuel generation w parent1 parent2 w' H.
    unfold roulette_wheel_selection in H.
    apply bind_Ok in H as (total & w1 & Hsum & H).
    pose proof (keeps_heap_sum_fitness_from _ _ _ _ _ Hsum) as Hh1.
    cbv beta zeta in H.
    apply bind_Ok in H as (p1 & w2 & H1 & H).
    apply roulette_select_one_Ok in H1 as [Hh2 Hin1].
    apply bind_Ok in H as (p2 & w3 & H2 & H).
    apply roulette_select_one_Ok in H2 as [Hh3 Hin2].
    apply bind_Ok in H as (p & w4 & Hp & H). apply ret_Ok in H as [[= <- <-] <-].
    apply (resample_Ok _ (from_generation generation) (heap w)) in Hp as [Hh4 Hin];
      [auto | | congruence | exact Hin2].
    intros w5 q w6 Hw5 Hq. apply roulette_select_one_Ok in Hq as [Hh Hq].
    split; [congruence | exact Hq].
  - intros G generation w parent1 parent2 w' H.
    unfold rank_based_selection in H.
    apply bind_Ok in H as (ranked & w1 & Hs & H).
    apply sorted_by_fitness_Ok in Hs as [-> Hperm]. cbv beta zeta in H.
    apply bind_Ok in H as (p1 & w2 & H1 & H).
    apply rank_select_one_Ok in H1 as [Hh2 Hin1].
    apply bind_Ok in H as (p2 & w3 & H2 & H).
    apply rank_select_one_Ok in H2 as [Hh3 Hin2].
    apply ret_Ok in H as [[= <- <-] <-].
    split; [congruence |].
    split; intros p Hp; rewrite <- Hperm; [now apply Hin1 | now apply Hin2].
  - intros G generation tournament_size w parent1 parent2 w' H.
    unfold tournament_selection in H.
    apply bind_Ok in H as (p1 & w1 & H1 & H). apply bind_Ok in H as (p2 & w2 & H2 & H).
    apply ret_Ok in H as [[= <- <-] <-].
    apply tournament_select_one_Ok in H1 as (Hh1 & _ & (t1 & Hsub1 & _ & Hin1 & _)).
    apply tournament_select_one_Ok in H2 as (Hh2 & _ & (t2 & Hsub2 & _ & Hin2 & _)).
    split; [congruence |].
    split; [eapply elem_of_submseteq; eauto | eapply elem_of_submseteq; eauto].
  - intros G generation num_parents w parent1 parent2 w' H.
    unfold stochastic_universal_sampling in H.
    apply bind_Ok in H as (ps & w1 & Hps & H).
    apply sus_parents_members in Hps as [Hh Hin].
    destruct ps as [|q0 [|q1 rest]]; try discriminate.
    apply ret_Ok in H as [[= <- <-] <-].
    split; [exact Hh |]. split; apply Hin; [left | right; left].
  - intros G fuel generation truncation_percentage w parent1 parent2 w' H.
    unfold truncation_selection in H.
    apply bind_Ok in H as (sorted & w1 & Hs & H).
    apply sorted_by_fitness_Ok in Hs as [-> Hperm]. cbv beta zeta in H.
    apply bind_Ok in H as (p1 & w2 & H1 & H). apply random_choice_Ok in H1 as [Hin1 ->].
    apply bind_Ok in H as (p2 & w3 & H2 & H). apply random_choice_Ok in H2 as [Hin2 ->].
    apply bind_Ok in H as (p & w4 & Hp & H). apply ret_Ok in H as [[= <- <-] <-].
    destruct (resample_choice _ _ _ _ _ _ _ Hp Hin2) as (Hin & _ & Hheap).
    split; [exact Hheap |].
    split; rewrite <- Hperm; eapply slice_to_subseteq; eauto.
  - intros G generation elite_fraction w parent1 parent2 w' H.
    unfold elitism_selection in H.
    apply bind_Ok in H as (sorted & w1 & Hs & H).
    apply sorted_by_fitness_Ok in Hs as [-> Hperm]. cbv beta zeta in H.
    apply bind_Ok in H as (p1 & w2 & H1 & H). apply random_choice_Ok in H1 as [Hin1 ->].
    apply bind_Ok in H as (p2 & w3 & H2 & H). apply random_choice_Ok in H2 as [Hin2 ->].
    apply ret_Ok in H as [[= <- <-] <-].
    split; [reflexivity |].
    split; rewrite <- Hperm; eapply slice_to_subseteq; eauto.
Qed.

Lemma selection_returns_members_witness :
  exists parent1 parent2,
    value_of (roulette_wheel_selection 5 [0; 1; 2]%nat
                (population_world (with_fitness [1; 2; 3]%Q) [0; 0; 2 ^ 52]%N))
      = Some (parent1, parent2) /\
    from_generation [0; 1; 2]%nat parent1 /\ from_generation [0; 1; 2]%nat parent2.
Proof.
  destruct (roulette_wheel_selection 5 [0; 1; 2]%nat
              (population_world (with_fitness [1; 2; 3]%Q) [0; 0; 2 ^ 52]%N))
    as [[parent1 parent2] w'| |] eqn:E; [| vm_compute in E; discriminate ..].
  destruct (proj1 selection_returns_members _ _ _ _ _ _ _ E) as (_ & H1 & H2).
  exists parent1, parent2. split; [reflexivity |]. split; [exact H1 | exact H2].
Defined.
